(** * Liquid CSS Variables: a shallow embedding of [src/extension.js]

    The development follows the source file top-down.  The JavaScript
    built-ins the extension relies on (strings, IEEE-754 numbers, regular
    expressions with backtracking, loose equality) are modelled first; the
    functions of [extension.js] follow under their own names; the theorems
    about them come last.

    Conventions of the embedding:
    - a JavaScript string is a [string]; one [ascii] stands for one UTF-16
      code unit in the range 0..255;
    - a JavaScript number is a binary64 [spec_float] (precision 53, emax 1024);
    - arrays and objects are immutable values: reference identity and the
      in-place reordering done by [Array.prototype.sort] are not represented,
      and objects carry their own properties only (no prototype members);
    - the module-level variables of the extension become the fields of the
      records [resolver] and [state], threaded explicitly;
    - a thrown exception is the [Throw] outcome of the monad [M]. *)

From Stdlib Require Import ZArith NArith List String Ascii Bool Lia.
From Stdlib Require Import Floats.SpecFloat.
From stdpp Require Import base option list gmap strings.

Local Open Scope string_scope.
#[local] Set Warnings "-register-all".

(* ====================================================================== *)
(** * Part I: JavaScript strings                                           *)
(* ====================================================================== *)

Module JsString.

Definition code (c : ascii) : N := N_of_ascii c.

Definition in_range (lo hi c : ascii) : bool :=
  (code lo <=? code c)%N && (code c <=? code hi)%N.

Definition is_digit (c : ascii) : bool := in_range "0" "9" c.
Definition is_lower (c : ascii) : bool := in_range "a" "z" c.
Definition is_upper (c : ascii) : bool := in_range "A" "Z" c.

(** [\w] of a regular expression: [[A-Za-z0-9_]]. *)
Definition is_word (c : ascii) : bool :=
  is_lower c || is_upper c || is_digit c || Ascii.eqb c "_".

(** [\s], and what [trim] strips: TAB, LF, VT, FF, CR, SP and NBSP are the
    white space and line terminator code units below 256. *)
Definition is_space (c : ascii) : bool :=
  match code c with
  | 9 | 10 | 11 | 12 | 13 | 32 | 160 => true
  | _ => false
  end%N.

(** What [.] refuses: the line terminators LF and CR. *)
Definition is_line_terminator (c : ascii) : bool :=
  match code c with
  | 10 | 13 => true
  | _ => false
  end%N.

Definition to_upper (c : ascii) : ascii :=
  if is_lower c then ascii_of_N (code c - 32) else c.

Definition to_lower (c : ascii) : ascii :=
  if is_upper c then ascii_of_N (code c + 32) else c.

Definition chars (s : string) : list ascii := list_ascii_of_string s.
Definition of_chars (l : list ascii) : string := string_of_list_ascii l.

(** [s.startsWith(p)] on code-unit lists. *)
Fixpoint starts_with_l (p s : list ascii) : bool :=
  match p, s with
  | [], _ => true
  | _ :: _, [] => false
  | a :: p', b :: s' => Ascii.eqb a b && starts_with_l p' s'
  end.

Definition startsWith (s p : string) : bool := starts_with_l (chars p) (chars s).

Definition endsWith (s p : string) : bool :=
  starts_with_l (rev (chars p)) (rev (chars s)).

(** [s.indexOf(p)] from the left; [None] stands for [-1]. *)
Fixpoint index_of_l (p s : list ascii) (i : nat) : option nat :=
  if starts_with_l p s then Some i
  else match s with
       | [] => None
       | _ :: s' => index_of_l p s' (S i)
       end.

Definition indexOf (s p : string) : option nat := index_of_l (chars p) (chars s) 0.

Definition includes (s p : string) : bool :=
  match indexOf s p with Some _ => true | None => false end.

(** [s.substring(a, b)] for non-negative integer arguments: the bounds are
    clamped to the length and swapped when [a > b]. *)
Definition substring (a b : nat) (s : string) : string :=
  let lo := Nat.min a b in
  let hi := Nat.max a b in
  of_chars (firstn (hi - lo) (skipn lo (chars s))).

(** [s.substring(a)]. *)
Definition substring_from (a : nat) (s : string) : string :=
  of_chars (skipn a (chars s)).

(** [s.slice(1, -1)]. *)
Definition slice_1_m1 (s : string) : string :=
  let l := chars s in
  of_chars (firstn (List.length l - 1 - 1) (skipn 1 l)).

Fixpoint drop_space (l : list ascii) : list ascii :=
  match l with
  | c :: l' => if is_space c then drop_space l' else l
  | [] => []
  end.

Definition trim (s : string) : string :=
  of_chars (rev (drop_space (rev (drop_space (chars s))))).

(** [s.split(sep)] for a non-empty separator [sep]: [cur] is the piece being
    read, in reverse. *)
Fixpoint split_l (fuel : nat) (sep : list ascii) (s cur : list ascii) : list string :=
  match fuel with
  | O => [of_chars (rev cur)]
  | S fuel' =>
      match s with
      | [] => [of_chars (rev cur)]
      | c :: s' =>
          if starts_with_l sep s
          then of_chars (rev cur) :: split_l fuel' sep (skipn (List.length sep) s) []
          else split_l fuel' sep s' (c :: cur)
      end
  end.

(** [s.split(sep)]: with the empty separator the string falls apart into its
    code units (and the empty string into no piece at all). *)
Definition split (s sep : string) : list string :=
  match chars sep with
  | [] => map (fun c => String c EmptyString) (chars s)
  | sepl => split_l (S (String.length s)) sepl (chars s) []
  end.

Fixpoint join (sep : string) (l : list string) : string :=
  match l with
  | [] => ""
  | [x] => x
  | x :: l' => x ++ sep ++ join sep l'
  end.

(** [s.replace(p, r)] with a string pattern [p] and a replacement [r] free
    of [$]: the first occurrence only. *)
Definition replace_first (s p r : string) : string :=
  match indexOf s p with
  | None => s
  | Some i =>
      of_chars (firstn i (chars s)) ++ r
        ++ of_chars (skipn (i + String.length p) (chars s))
  end.

Fixpoint repeat_string (n : nat) (s : string) : string :=
  match n with
  | O => ""
  | S n' => s ++ repeat_string n' s
  end.

End JsString.

(* ====================================================================== *)
(** * Part II: JavaScript numbers                                          *)
(* ====================================================================== *)

(** Numbers are IEEE-754 binary64 values, computed with the reference
    operations of [SpecFloat].  Conversions from and to decimal text go
    through exact integer arithmetic on numerator and denominator. *)
Module JsNumber.
Import JsString.
Local Open Scope Z_scope.

Definition number : Type := spec_float.

Definition prec : Z := 53.
Definition emax : Z := 1024.

Definition NaN : number := S754_nan.
Definition zero : number := S754_zero false.
Definition infinity (neg : bool) : number := S754_infinity neg.

Definition add : number -> number -> number := SFadd prec emax.
Definition sub : number -> number -> number := SFsub prec emax.
Definition mul : number -> number -> number := SFmul prec emax.
Definition div : number -> number -> number := SFdiv prec emax.
Definition ltb : number -> number -> bool := SFltb.
Definition leb : number -> number -> bool := SFleb.
Definition eqb : number -> number -> bool := SFeqb.

Definition is_nan (x : number) : bool :=
  match x with S754_nan => true | _ => false end.

Definition is_zero (x : number) : bool :=
  match x with S754_zero _ => true | _ => false end.

Definition of_Z (z : Z) : number := binary_normalize prec emax z 0 false.
Definition of_nat (n : nat) : number := of_Z (Z.of_nat n).

(** The binary64 nearest to [p / q] (ties to even), for [0 <= p] and [0 < q],
    with sign [neg]: the quotient is taken with at least 56 significant bits
    and the position of the remainder against one half decides the rounding. *)
Definition of_ratio (neg : bool) (p q : Z) : number :=
  if p =? 0 then S754_zero neg
  else
    let k := Z.max 0 (56 + Z.log2 q - Z.log2 p) in
    let '(d, r) := Z.div_eucl (p * 2 ^ k) q in
    let loc := if r =? 0 then loc_Exact else loc_Inexact (Z.compare (2 * r) q) in
    binary_round_aux prec emax neg d (- k) loc.

(** A finite non-zero number as sign, numerator and denominator. *)
Definition to_ratio (x : number) : option (bool * Z * Z) :=
  match x with
  | S754_finite s m e =>
      if 0 <=? e then Some (s, Z.pos m * 2 ^ e, 1)
      else Some (s, Z.pos m, 2 ^ (- e))
  | _ => None
  end.

(** [p / q] times [10 ^ k], as a fraction. *)
Definition scale10 (p q k : Z) : Z * Z :=
  if 0 <=? k then (p * 10 ^ k, q) else (p, q * 10 ^ (- k)).

(** ** Decimal digits *)

Definition digit_char (d : Z) : ascii := ascii_of_N (48 + Z.to_N d).

Fixpoint digits_rev (fuel : nat) (z : Z) : list ascii :=
  match fuel with
  | O => []
  | S fuel' =>
      if z <? 10 then [digit_char z]
      else digit_char (z mod 10) :: digits_rev fuel' (z / 10)
  end.

(** The decimal digits of [z >= 0] (["0"] for zero). *)
Definition digits_of_Z (z : Z) : string :=
  of_chars (rev (digits_rev (S (Z.to_nat (Z.log2 z))) z)).

Definition digit_val (c : ascii) : Z := Z.of_N (code c) - 48.

(** The value of a digit in radix 16 (and so in any smaller radix). *)
Definition hex_val (c : ascii) : option Z :=
  if is_digit c then Some (digit_val c)
  else if in_range "a" "f" c then Some (Z.of_N (code c) - 87)
  else if in_range "A" "F" c then Some (Z.of_N (code c) - 55)
  else None.

Fixpoint span_digits (l : list ascii) : list ascii * list ascii :=
  match l with
  | c :: l' =>
      if is_digit c then let '(d, r) := span_digits l' in (c :: d, r)
      else ([], l)
  | [] => ([], [])
  end.

Definition digits_value (l : list ascii) : Z :=
  fold_left (fun acc c => 10 * acc + digit_val c) l 0.

(** ** [StrDecimalLiteral] *)

(** The exponent part [e], [e+] or [e-] followed by digits, when present. *)
Definition scan_exponent (l : list ascii) : Z * list ascii :=
  match l with
  | c :: l1 =>
      if Ascii.eqb c "e" || Ascii.eqb c "E" then
        let '(neg, l2) :=
          match l1 with
          | s :: l2 =>
              if Ascii.eqb s "-" then (true, l2)
              else if Ascii.eqb s "+" then (false, l2)
              else (false, l1)
          | [] => (false, l1)
          end in
        match span_digits l2 with
        | ([], _) => (0, l)
        | (ds, r) => ((if neg then - digits_value ds else digits_value ds), r)
        end
      else (0, l)
  | [] => (0, l)
  end.

(** The number denoted by mantissa digits [ds] and decimal exponent [e]:
    past 400 decimal orders of magnitude either way the result is already
    infinite or zero, so the power of ten is not computed. *)
Definition decimal_value (neg : bool) (ds : list ascii) (e : Z) : number :=
  let m := digits_value ds in
  if m =? 0 then S754_zero neg
  else
    let mag := Z.of_nat (List.length ds) + e in
    if 400 <? e then infinity neg
    else if mag <? - 400 then S754_zero neg
    else let '(p, q) := scale10 m 1 e in of_ratio neg p q.

(** The longest prefix of [l] that is an unsigned [StrDecimalLiteral], with
    the remainder of the input. *)
Definition scan_unsigned_decimal (neg : bool) (l : list ascii)
  : option (number * list ascii) :=
  if starts_with_l (chars "Infinity") l
  then Some (infinity neg, skipn 8 l)
  else
    let '(ip, r1) := span_digits l in
    match r1 with
    | c :: r1' =>
        if Ascii.eqb c "." then
          let '(fp, r2) := span_digits r1' in
          match ip, fp with
          | [], [] => None
          | _, _ =>
              let '(e, r3) := scan_exponent r2 in
              Some (decimal_value neg (ip ++ fp) (e - Z.of_nat (List.length fp)), r3)
          end
        else
          match ip with
          | [] => None
          | _ => let '(e, r3) := scan_exponent r1 in
                 Some (decimal_value neg ip e, r3)
          end
    | [] =>
        match ip with
        | [] => None
        | _ => Some (decimal_value neg ip 0, [])
        end
    end.

Definition scan_decimal (l : list ascii) : option (number * list ascii) :=
  match l with
  | c :: l' =>
      if Ascii.eqb c "-" then scan_unsigned_decimal true l'
      else if Ascii.eqb c "+" then scan_unsigned_decimal false l'
      else scan_unsigned_decimal false l
  | [] => None
  end.

(** [parseFloat(s)] on a string. *)
Definition parseFloat_string (s : string) : number :=
  match scan_decimal (drop_space (chars s)) with
  | Some (x, _) => x
  | None => NaN
  end.

Fixpoint span_radix (radix : Z) (l : list ascii) (acc : Z) (n : nat)
  : Z * nat * list ascii :=
  match l with
  | c :: l' =>
      match hex_val c with
      | Some d => if d <? radix then span_radix radix l' (radix * acc + d) (S n)
                  else (acc, n, l)
      | None => (acc, n, l)
      end
  | [] => (acc, n, [])
  end.

Definition has_hex_prefix (l : list ascii) : bool :=
  starts_with_l (chars "0x") l || starts_with_l (chars "0X") l.

(** [parseInt(s, radix)] on a string, for [radix = 16] ([hex = true]) and for
    an omitted radix ([hex = false], where a [0x] prefix still selects 16). *)
Definition parseInt_string (s : string) (hex : bool) : number :=
  let l := drop_space (chars s) in
  let '(neg, l1) :=
    match l with
    | c :: l' =>
        if Ascii.eqb c "-" then (true, l')
        else if Ascii.eqb c "+" then (false, l')
        else (false, l)
    | [] => (false, l)
    end in
  let '(radix, l2) :=
    if has_hex_prefix l1 then (16, skipn 2 l1)
    else ((if hex then 16 else 10), l1) in
  let '(v, n, _) := span_radix radix l2 0 O in
  match n with
  | O => NaN
  | _ => of_ratio neg v 1
  end.

(** [Number(s)] on a string ([StringToNumber]): the whole trimmed text must
    be a numeric literal; the empty text is [0]. *)
Definition whole_radix (radix : Z) (l : list ascii) : number :=
  match span_radix radix l 0 O with
  | (v, S _, []) => of_ratio false v 1
  | _ => NaN
  end.

Definition toNumber_string (s : string) : number :=
  let l := chars (trim s) in
  match l with
  | [] => zero
  | _ =>
      if has_hex_prefix l then whole_radix 16 (skipn 2 l)
      else if starts_with_l (chars "0o") l || starts_with_l (chars "0O") l
      then whole_radix 8 (skipn 2 l)
      else if starts_with_l (chars "0b") l || starts_with_l (chars "0B") l
      then whole_radix 2 (skipn 2 l)
      else match scan_decimal l with
           | Some (x, []) => x
           | _ => NaN
           end
  end.

(** ** [Number::toString] *)

(** The least [n >= n0] with [p / q < 10 ^ n]. *)
Fixpoint magnitude_from (fuel : nat) (p q n : Z) : Z :=
  match fuel with
  | O => n
  | S fuel' =>
      let '(a, b) := scale10 1 1 n in
      if p * b <? q * a then n else magnitude_from fuel' p q (n + 1)
  end.

(** The [n] with [10 ^ (n - 1) <= p / q < 10 ^ n], for [0 < p] and [0 < q]:
    the search starts from a lower estimate taken from the bit lengths. *)
Definition magnitude (p q : Z) : Z :=
  let l := Z.log2 p - Z.log2 q - 1 in
  let n0 := (if 0 <=? l then l * 30102 / 100000 else l * 30103 / 100000) - 1 in
  magnitude_from 16 p q n0.

Fixpoint strip_zeros (fuel : nat) (s k : Z) : Z * Z :=
  match fuel with
  | O => (s, k)
  | S fuel' =>
      if (1 <? k) && (s mod 10 =? 0) then strip_zeros fuel' (s / 10) (k - 1)
      else (s, k)
  end.

(** For the positive finite [x = p / q] of magnitude [n]: a [k]-digit integer
    [s] with [s * 10 ^ (n - k)] read back as [x], the closest to [x] of the
    two candidates around it (the even one on a tie). *)
Definition digits_at (x : number) (p q n k : Z) : option Z :=
  let '(a, b) := scale10 p q (k - n) in
  let lo := a / b in
  let hi := lo + 1 in
  let reads c := let '(cp, cq) := scale10 c 1 (n - k) in eqb (of_ratio false cp cq) x in
  let dlo := a - lo * b in
  let dhi := hi * b - a in
  match reads lo, reads hi with
  | true, true =>
      Some (if dlo <? dhi then lo else if dhi <? dlo then hi
            else if Z.even lo then lo else hi)
  | true, false => Some lo
  | false, true => Some hi
  | false, false => None
  end.

Fixpoint shortest_digits (fuel : nat) (x : number) (p q n k : Z) : Z * Z :=
  match fuel with
  | O => (0, k)
  | S fuel' =>
      match digits_at x p q n k with
      | Some s => (s, k)
      | None => shortest_digits fuel' x p q n (k + 1)
      end
  end.

Definition string_of_nat_digits (n : Z) : string := digits_of_Z n.

(** The text of a positive finite number with digits [s] ([k] of them) and
    decimal point position [n], as [Number::toString] lays it out. *)
Definition layout (s k n : Z) : string :=
  let ds := digits_of_Z s in
  if (k <=? n) && (n <=? 21) then ds ++ repeat_string (Z.to_nat (n - k)) "0"
  else if (0 <? n) && (n <=? 21) then
    substring 0 (Z.to_nat n) ds ++ "." ++ substring_from (Z.to_nat n) ds
  else if (-6 <? n) && (n <=? 0) then
    "0." ++ repeat_string (Z.to_nat (- n)) "0" ++ ds
  else
    let e := n - 1 in
    let es := (if e <? 0 then "-" else "+") ++ digits_of_Z (Z.abs e) in
    if k =? 1 then ds ++ "e" ++ es
    else substring 0 1 ds ++ "." ++ substring_from 1 ds ++ "e" ++ es.

Definition to_string_pos (x : number) (p q : Z) : string :=
  let n := magnitude p q in
  let '(s, k) := shortest_digits 17 x p q n 1 in
  (* a candidate [10 ^ k] is the digit 1 one place further left *)
  let '(s, k, n) := if s =? 10 ^ k then (1, 1, n + 1)
                    else let '(s', k') := strip_zeros 17 s k in (s', k', n) in
  layout s k n.

(** [String(x)] for a number [x]. *)
Definition to_string (x : number) : string :=
  match x with
  | S754_nan => "NaN"
  | S754_zero _ => "0"
  | S754_infinity s => if s then "-Infinity" else "Infinity"
  | S754_finite s m e =>
      match to_ratio x with
      | Some (_, p, q) =>
          (if s then "-" else "") ++ to_string_pos (SFabs x) p q
      | None => "NaN"
      end
  end.

(** ** [Number.prototype.toFixed] *)

(** The integer nearest to [p / q] (the larger one on a tie), [0 <= p]. *)
Definition round_half_up (p q : Z) : Z := (2 * p + q) / (2 * q).

(** The decimal text of [n / 10 ^ f] for a natural [n], with all of its [f]
    decimals: the digits of [n], zeros put before them until one stands
    before the decimal point. *)
Definition fixed_text (f : nat) (n : Z) : string :=
  let ds := digits_of_Z n in
  let k := String.length ds in
  let ds := if (k <=? f)%nat then repeat_string (f + 1 - k) "0" ++ ds else ds in
  let k := String.length ds in
  match f with
  | O => ds
  | _ => substring 0 (k - f) ds ++ "." ++ substring_from (k - f) ds
  end.

(** [x.toFixed(f)]: below [10 ^ 21] in magnitude the text shows the integer
    [n] nearest to [x * 10 ^ f] with the decimal point [f] digits from the
    right; the sign is kept whenever [x < 0]. *)
Definition toFixed (f : nat) (x : number) : string :=
  match x with
  | S754_nan => "NaN"
  | S754_infinity _ => to_string x
  | S754_zero _ =>
      match f with
      | O => "0"
      | _ => "0." ++ repeat_string f "0"
      end
  | S754_finite s m e =>
      match to_ratio x with
      | Some (_, p, q) =>
          if q * 10 ^ 21 <=? p then to_string x
          else (if s then "-" else "")
               ++ fixed_text f (round_half_up (p * 10 ^ Z.of_nat f) q)
      | None => "NaN"
      end
  end.

(** ** [Math.round] *)

(** The nearest integer, a tie going up; a result of zero keeps the sign
    of the argument. *)
Definition round (x : number) : number :=
  match x with
  | S754_finite s m e =>
      if 0 <=? e then x
      else
        let q := 2 ^ (- e) in
        let p := Z.pos m in
        let r := if s then - ((- (2 * p) + q) / (2 * q)) else (2 * p + q) / (2 * q) in
        (* for a negative argument, floor (x + 1/2) = - ceil (|x| - 1/2) *)
        if r =? 0 then S754_zero s else of_ratio s r 1
  | _ => x
  end.

(** The array index a number selects, when it is one: the integers from [0]
    (and [-0]) to below [2 ^ 32] name elements, every other number names
    none. *)
Definition to_index (x : number) : option nat :=
  match x with
  | S754_zero _ => Some O
  | S754_finite false m e =>
      if 0 <=? e then
        if (e <? 32) && (Z.pos m * 2 ^ e <? 2 ^ 32) then Some (Z.to_nat (Z.pos m * 2 ^ e))
        else None
      else
        let q := 2 ^ (- e) in
        if Z.pos m mod q =? 0 then Some (Z.to_nat (Z.pos m / q)) else None
  | _ => None
  end.

End JsNumber.

(* ====================================================================== *)
(** * Part III: JavaScript regular expressions                             *)
(* ====================================================================== *)

(** A backtracking matcher in continuation-passing style: alternatives are
    tried in the order the ECMAScript pattern semantics fixes (left
    alternative first, greedy quantifiers longest first, lazy ones shortest
    first), and the first success is the match. *)
Module Regex.
Import JsString.

(** Members of a character class [[...]]. *)
Inductive cls : Type :=
| CChar (c : ascii)
| CRange (lo hi : ascii)
| CWord          (* \w *)
| CDigit         (* \d *)
| CSpace         (* \s *)
| CNotSpace.     (* \S *)

Inductive re : Type :=
| Eps
| Chr (c : ascii)
| Any                                   (* .  *)
| Cls (neg : bool) (items : list cls)  (* [...] and [^...] *)
| Seq (a b : re)
| Alt (a b : re)
| Star (greedy : bool) (a : re)         (* a* and a*? *)
| Opt (greedy : bool) (a : re)          (* a? and a?? *)
| Group (i : nat) (a : re)              (* the i-th capturing group *)
| Bol                                   (* ^ *)
| Eol                                   (* $ *)
| Ahead (a : re)                        (* (?=a) *)
| Backref (i : nat).                    (* \i *)

(** [a+] and [a+?]: one [a], then [a*].  (No quantified atom of the
    extension's patterns contains a capturing group that an iteration could
    leave unset, so the reset of captures per iteration is not observable.) *)
Definition Plus (greedy : bool) (a : re) : re := Seq a (Star greedy a).

Fixpoint seqs (l : list re) : re :=
  match l with
  | [] => Eps
  | [a] => a
  | a :: l' => Seq a (seqs l')
  end.

Fixpoint alts (l : list re) : re :=
  match l with
  | [] => Eps
  | [a] => a
  | a :: l' => Alt a (alts l')
  end.

(** A literal text. *)
Definition lit (s : string) : re := seqs (map Chr (chars s)).

Definition word : re := Cls false [CWord].
Definition digit : re := Cls false [CDigit].
Definition space : re := Cls false [CSpace].
(** [[\s\S]]: any code unit. *)
Definition anything : re := Cls false [CSpace; CNotSpace].
Definition one_of (s : string) : re := Cls false (map CChar (chars s)).
Definition none_of (s : string) : re := Cls true (map CChar (chars s)).

Definition cls_has (x : ascii) (k : cls) : bool :=
  match k with
  | CChar c => Ascii.eqb c x
  | CRange lo hi => in_range lo hi x
  | CWord => is_word x
  | CDigit => is_digit x
  | CSpace => is_space x
  | CNotSpace => negb (is_space x)
  end.

(** Membership in a class; under the [i] flag a code unit also belongs when
    one of its case variants does. *)
Definition set_has (icase : bool) (items : list cls) (x : ascii) : bool :=
  existsb (cls_has x) items
  || (icase && (existsb (cls_has (to_upper x)) items
                || existsb (cls_has (to_lower x)) items)).

Definition chr_eq (icase : bool) (a x : ascii) : bool :=
  if icase then Ascii.eqb (to_upper a) (to_upper x) else Ascii.eqb a x.

Fixpoint starts_with_ci (icase : bool) (p s : list ascii) : bool :=
  match p, s with
  | [], _ => true
  | _ :: _, [] => false
  | a :: p', b :: s' => chr_eq icase a b && starts_with_ci icase p' s'
  end.

(** Captures: the most recent binding of a group comes first; a group that
    took part in no match is unbound ([undefined]). *)
Definition caps : Type := list (nat * option string).

Fixpoint get_cap (i : nat) (c : caps) : option string :=
  match c with
  | [] => None
  | (j, v) :: c' => if Nat.eqb i j then v else get_cap i c'
  end.

Definition set_cap (i : nat) (v : option string) (c : caps) : caps := (i, v) :: c.

Fixpoint groups_of (r : re) : list nat :=
  match r with
  | Seq a b | Alt a b => groups_of a ++ groups_of b
  | Star _ a | Opt _ a | Ahead a => groups_of a
  | Group i a => i :: groups_of a
  | _ => []
  end.

Definition clear_caps (gs : list nat) (c : caps) : caps :=
  fold_right (fun i acc => set_cap i None acc) c gs.

(** The iterations of [a*] ([greedy]) or [a*?], where [step] matches one
    [a] and [k] is what follows the quantifier.  An iteration that consumes
    nothing is refused, as in ECMAScript, so that [fuel], one more than the
    length of the input left, is never used up. *)
Fixpoint star_loop (A : Type) (greedy : bool)
    (step : nat -> list ascii -> caps -> (nat -> list ascii -> caps -> option A) -> option A)
    (k : nat -> list ascii -> caps -> option A)
    (fuel : nat) (i : nat) (s : list ascii) (c : caps) {struct fuel} : option A :=
  match fuel with
  | O => k i s c
  | S fuel' =>
      if greedy then
        match step i s c
                (fun j s' c' => if Nat.eqb j i then None
                                else star_loop A greedy step k fuel' j s' c') with
        | Some x => Some x
        | None => k i s c
        end
      else
        match k i s c with
        | Some x => Some x
        | None =>
            step i s c
              (fun j s' c' => if Nat.eqb j i then None
                              else star_loop A greedy step k fuel' j s' c')
        end
  end.

(** [run icase r i s c k]: match [r] at position [i], where [s] is the input
    from [i] on and [c] the captures so far; [k] is what remains to be
    matched.  The captures of the groups inside a quantified pattern are
    reset at the start of each iteration. *)
Fixpoint run (icase : bool) (A : Type) (r : re) (i : nat) (s : list ascii)
    (c : caps) (k : nat -> list ascii -> caps -> option A) {struct r} : option A :=
  match r with
  | Eps => k i s c
  | Chr a =>
      match s with
      | x :: s' => if chr_eq icase a x then k (S i) s' c else None
      | [] => None
      end
  | Any =>
      match s with
      | x :: s' => if is_line_terminator x then None else k (S i) s' c
      | [] => None
      end
  | Cls neg items =>
      match s with
      | x :: s' => if xorb neg (set_has icase items x) then k (S i) s' c else None
      | [] => None
      end
  | Seq a b => run icase A a i s c (fun j s' c' => run icase A b j s' c' k)
  | Alt a b =>
      match run icase A a i s c k with
      | Some x => Some x
      | None => run icase A b i s c k
      end
  | Star greedy a =>
      star_loop A greedy
        (fun i s c k' => run icase A a i s (clear_caps (groups_of a) c) k')
        k (S (List.length s)) i s c
  | Opt greedy a =>
      if greedy then
        match run icase A a i s (clear_caps (groups_of a) c)
                (fun j s' c' => if Nat.eqb j i then None else k j s' c') with
        | Some x => Some x
        | None => k i s c
        end
      else
        match k i s c with
        | Some x => Some x
        | None =>
            run icase A a i s (clear_caps (groups_of a) c)
              (fun j s' c' => if Nat.eqb j i then None else k j s' c')
        end
  | Group n a =>
      run icase A a i s c
        (fun j s' c' => k j s' (set_cap n (Some (of_chars (firstn (j - i) s))) c'))
  | Bol => if Nat.eqb i 0 then k i s c else None
  | Eol => match s with [] => k i s c | _ :: _ => None end
  | Ahead a =>
      match run icase caps a i s c (fun _ _ c' => Some c') with
      | Some c' => k i s c'
      | None => None
      end
  | Backref n =>
      match get_cap n c with
      | None => k i s c
      | Some t =>
          let tl := chars t in
          if starts_with_ci icase tl s
          then k (i + List.length tl) (skipn (List.length tl) s) c
          else None
      end
  end.

(** A compiled pattern: its syntax, the [i] flag and the number of capturing
    groups. *)
Record regexp : Type := RegExp { source : re; ignoreCase : bool; ngroups : nat }.

(** The result of a successful match: where it starts and ends, the text
    matched and the captures 1, 2, ... *)
Record rmatch : Type :=
  RMatch { m_index : nat; m_end : nat; m_text : string; m_groups : list (option string) }.

(** The [n]-th capture ([n >= 1]), [None] when it is [undefined]. *)
Definition group (n : nat) (m : rmatch) : option string :=
  match nth_error (m_groups m) (n - 1) with
  | Some g => g
  | None => None
  end.

(** The [n]-th capture of a group that always takes part in the match. *)
Definition group_text (n : nat) (m : rmatch) : string :=
  match group n m with Some t => t | None => "" end.

Definition match_at (r : regexp) (i : nat) (s : list ascii) : option rmatch :=
  run (ignoreCase r) rmatch (source r) i s []
    (fun j _ c =>
       Some (RMatch i j (of_chars (firstn (j - i) s))
               (map (fun n => get_cap n c) (seq 1 (ngroups r))))).

(** The leftmost match at or after position [i]; [s] is the input from [i]. *)
Fixpoint search (r : regexp) (i : nat) (s : list ascii) : option rmatch :=
  match match_at r i s with
  | Some m => Some m
  | None =>
      match s with
      | [] => None
      | _ :: s' => search r (S i) s'
      end
  end.

(** [r.exec(s)] for a pattern without the [g] flag, and [s.match(r)] for
    such a pattern. *)
Definition exec (r : regexp) (s : string) : option rmatch := search r 0 (chars s).

Definition test (r : regexp) (s : string) : bool :=
  match exec r s with Some _ => true | None => false end.

(** The successive matches of a pattern with the [g] flag, each search
    resuming where the previous match ended; after an empty match the
    search resumes one code unit further. *)
Fixpoint matches_from (fuel : nat) (r : regexp) (i : nat) (s : list ascii) : list rmatch :=
  match fuel with
  | O => []
  | S fuel' =>
      match search r i s with
      | None => []
      | Some m =>
          let e := if Nat.eqb (m_end m) (m_index m) then S (m_end m) else m_end m in
          m :: matches_from fuel' r e (skipn (e - i) s)
      end
  end.

(** All matches, as [s.replace(r, ...)] and [s.match(r)] with a [g] pattern
    enumerate them.  The loops [while ((m = r.exec(s)) !== null)] of the
    extension enumerate the same matches: their patterns all begin with a
    literal, so no match is empty. *)
Definition matches (r : regexp) (s : string) : list rmatch :=
  matches_from (S (String.length s)) r 0 (chars s).

(** The matches that such a loop enumerates when it is entered with
    [r.lastIndex = i]: the search starts at [i], and finds nothing when
    [i] lies beyond the text. *)
Definition matches_at (r : regexp) (i : nat) (s : string) : list rmatch :=
  if (String.length s <? i)%nat then []
  else matches_from (S (String.length s)) r i (skipn i (chars s)).

(** ** Replacement *)

(** The text a replacement template stands for at a match [m] of the input
    [s] with [n] capturing groups: [$$], [$&], [$`], [$'], [$1]..[$99]. *)
Fixpoint expand (fuel : nat) (n : nat) (s : list ascii) (m : rmatch) (t : list ascii)
  : string :=
  match fuel with
  | O => ""
  | S fuel' =>
      match t with
      | [] => ""
      | "$"%char :: t1 =>
          match t1 with
          | "$"%char :: t2 => "$" ++ expand fuel' n s m t2
          | "&"%char :: t2 => m_text m ++ expand fuel' n s m t2
          | "`"%char :: t2 => of_chars (firstn (m_index m) s) ++ expand fuel' n s m t2
          | "'"%char :: t2 => of_chars (skipn (m_end m) s) ++ expand fuel' n s m t2
          | d1 :: t2 =>
              if is_digit d1 then
                let v1 := N.to_nat (code d1 - 48) in
                let two :=
                  match t2 with
                  | d2 :: t3 =>
                      if is_digit d2 then
                        let v2 := 10 * v1 + N.to_nat (code d2 - 48) in
                        if (1 <=? v2)%nat && (v2 <=? n)%nat then Some (v2, t3) else None
                      else None
                  | [] => None
                  end in
                match two with
                | Some (v2, t3) => group_text v2 m ++ expand fuel' n s m t3
                | None =>
                    if (1 <=? v1)%nat && (v1 <=? n)%nat
                    then group_text v1 m ++ expand fuel' n s m t2
                    else "$" ++ expand fuel' n s m t1
                end
              else "$" ++ expand fuel' n s m t1
          | [] => "$"
          end
      | c :: t1 => String c (expand fuel' n s m t1)
      end
  end.

Definition substitution (r : regexp) (s : string) (template : string) (m : rmatch) : string :=
  expand (S (String.length template)) (ngroups r) (chars s) m (chars template).

(** The input with each match of [ms] replaced by the paired text: [i] is
    the position reached and [s] the input from there. *)
Fixpoint splice (i : nat) (s : list ascii) (ms : list (rmatch * string)) : string :=
  match ms with
  | [] => of_chars s
  | (m, t) :: ms' =>
      of_chars (firstn (m_index m - i) s) ++ t
        ++ splice (m_end m) (skipn (m_end m - i) s) ms'
  end.

(** [s.replace(r, f)] for a [g] pattern and a replacer function without
    effects. *)
Definition replace_fn (r : regexp) (s : string) (f : rmatch -> string) : string :=
  splice 0 (chars s) (map (fun m => (m, f m)) (matches r s)).

(** [s.replace(r, template)] for a [g] pattern. *)
Definition replace (r : regexp) (s : string) (template : string) : string :=
  replace_fn r s (substitution r s template).

(** [s.replace(r, template)] for a pattern without the [g] flag: the first
    match only. *)
Definition replace_one (r : regexp) (s : string) (template : string) : string :=
  match exec r s with
  | None => s
  | Some m => splice 0 (chars s) [(m, substitution r s template m)]
  end.

End Regex.

(* ====================================================================== *)
(** * Part IV: JavaScript values                                           *)
(* ====================================================================== *)

Module JsValue.
Import JsString.
Export JsNumber.

(** What an expression of the template language, a setting or a binding can
    hold.  [VObj] lists the own properties of an object in insertion order. *)
Inductive value : Type :=
| VUndef
| VNull
| VBool (b : bool)
| VNum (x : number)
| VStr (s : string)
| VArr (l : list value)
| VObj (o : list (string * value)).

(** [!!v] *)
Definition truthy (v : value) : bool :=
  match v with
  | VUndef | VNull => false
  | VBool b => b
  | VNum x => negb (is_zero x || is_nan x)
  | VStr s => negb (String.eqb s "")
  | VArr _ | VObj _ => true
  end.

(** [typeof v === 'object'] *)
Definition typeof_object (v : value) : bool :=
  match v with
  | VNull | VArr _ | VObj _ => true
  | _ => false
  end.

Definition isArray (v : value) : bool :=
  match v with VArr _ => true | _ => false end.

(** [String(v)]; an array joins the texts of its elements with commas,
    [undefined] and [null] elements counting as empty. *)
Fixpoint toString (v : value) : string :=
  match v with
  | VUndef => "undefined"
  | VNull => "null"
  | VBool b => if b then "true" else "false"
  | VNum x => to_string x
  | VStr s => s
  | VArr l =>
      (fix elems (l : list value) : string :=
         match l with
         | [] => ""
         | x :: l' =>
             let t := match x with VUndef | VNull => "" | _ => toString x end in
             match l' with
             | [] => t
             | _ :: _ => t ++ "," ++ elems l'
             end
         end) l
  | VObj _ => "[object Object]"
  end.

(** [Number(v)] *)
Definition toNumber (v : value) : number :=
  match v with
  | VUndef => NaN
  | VNull => zero
  | VBool b => if b then of_Z 1 else zero
  | VNum x => x
  | VStr s => toNumber_string s
  | VArr _ | VObj _ => toNumber_string (toString v)
  end.

(** [parseFloat(v)] and [parseInt(v)], which read the text of [v]. *)
Definition parseFloat (v : value) : number := parseFloat_string (toString v).
Definition parseInt (v : value) : number := parseInt_string (toString v) false.

(** The global [isNaN(v)]. *)
Definition isNaN (v : value) : bool := is_nan (toNumber v).

(** [ToPrimitive]: arrays and objects become their text. *)
Definition toPrimitive (v : value) : value :=
  match v with
  | VArr _ | VObj _ => VStr (toString v)
  | _ => v
  end.

Fixpoint assoc (k : string) (o : list (string * value)) : option value :=
  match o with
  | [] => None
  | (k', v) :: o' => if String.eqb k k' then Some v else assoc k o'
  end.

(** A canonical array index: ["0"], or digits without a leading zero. *)
Definition array_index (k : string) : option nat :=
  match chars k with
  | [] => None
  | c :: l' =>
      if forallb is_digit (c :: l') && (negb (Ascii.eqb c "0") || Nat.eqb (List.length l') 0)
      then Some (Z.to_nat (digits_value (c :: l')))
      else None
  end.

(** [v[k]] for a property name [k] (own properties, elements and [length]);
    [undefined] where there is no such property.  The members that a value
    inherits from its prototype ([constructor], [toString], the methods of
    arrays and strings) are not represented. *)
Definition get_prop (v : value) (k : string) : value :=
  match v with
  | VObj o => match assoc k o with Some x => x | None => VUndef end
  | VArr l =>
      if String.eqb k "length" then VNum (of_nat (List.length l))
      else match array_index k with
           | Some i => nth i l VUndef
           | None => VUndef
           end
  | VStr s =>
      if String.eqb k "length" then VNum (of_nat (String.length s))
      else match array_index k with
           | Some i =>
               match nth_error (chars s) i with
               | Some c => VStr (String c EmptyString)
               | None => VUndef
               end
           | None => VUndef
           end
  | _ => VUndef
  end.

(** [k in v] for an object or array [v]: own properties, elements and
    [length]; inherited members are not represented. *)
Definition has_prop (v : value) (k : string) : bool :=
  match v with
  | VObj o => match assoc k o with Some _ => true | None => false end
  | VArr l =>
      String.eqb k "length"
      || match array_index k with
         | Some i => (i <? List.length l)%nat
         | None => false
         end
  | _ => false
  end.

(** [l[x]] for an array [l] and a number [x]. *)
Definition array_get (l : list value) (x : number) : value :=
  match to_index x with
  | Some i => nth i l VUndef
  | None => VUndef
  end.

(** [Object.keys(o)[0]]: integer-like keys come first in ascending order,
    the other keys follow in insertion order. *)
Definition first_key (o : list (string * value)) : option string :=
  let idx := omap (fun kv => array_index (fst kv)) o in
  match idx with
  | i :: idx' => Some (digits_of_Z (Z.of_nat (fold_left Nat.min idx' i)))
  | [] => match o with
          | (k, _) :: _ => Some k
          | [] => None
          end
  end.

(** Code-unit order on strings: [a < b]. *)
Fixpoint string_ltb (a b : list ascii) : bool :=
  match a, b with
  | _, [] => false
  | [], _ :: _ => true
  | x :: a', y :: b' =>
      if (code x <? code y)%N then true
      else if (code y <? code x)%N then false
      else string_ltb a' b'
  end.

(** [a === b].  Two arrays or two objects are compared by their contents:
    JavaScript compares their references, which the embedding does not
    have, so that the result is the one of JavaScript for one array met
    twice and differs from it for two arrays of equal contents.  The
    source applies [===] to texts, numbers and [undefined] only. *)
Fixpoint strict_eq (a b : value) : bool :=
  match a, b with
  | VUndef, VUndef | VNull, VNull => true
  | VBool x, VBool y => Bool.eqb x y
  | VNum x, VNum y => eqb x y
  | VStr x, VStr y => String.eqb x y
  | VArr x, VArr y =>
      (fix all2 (x y : list value) : bool :=
         match x, y with
         | [], [] => true
         | u :: x', w :: y' => strict_eq u w && all2 x' y'
         | _, _ => false
         end) x y
  | VObj x, VObj y =>
      (fix all2 (x y : list (string * value)) : bool :=
         match x, y with
         | [], [] => true
         | (k, u) :: x', (k', w) :: y' => String.eqb k k' && strict_eq u w && all2 x' y'
         | _, _ => false
         end) x y
  | _, _ => false
  end.

(** [a == b]: equal types compare strictly; [null] and [undefined] equal
    each other only; a boolean compares as a number, an array or object as
    its text, and a number against a string numerically. *)
Definition loose_eq_prim (a b : value) : bool :=
  match a, b with
  | (VUndef | VNull), (VUndef | VNull) => true
  | (VUndef | VNull), _ | _, (VUndef | VNull) => false
  | VStr x, VStr y => String.eqb x y
  | _, _ => eqb (toNumber a) (toNumber b)
  end.

(** On two arrays or two objects [==] compares references in JavaScript;
    here it follows [strict_eq] and compares contents. *)
Definition loose_eq (a b : value) : bool :=
  match a, b with
  | (VArr _ | VObj _), (VArr _ | VObj _) => strict_eq a b
  | (VUndef | VNull), (VArr _ | VObj _) | (VArr _ | VObj _), (VUndef | VNull) => false
  | _, _ => loose_eq_prim (toPrimitive a) (toPrimitive b)
  end.

(** [a < b]: two strings compare by code units, anything else as numbers
    (a comparison with [NaN] is false). *)
Definition lt (a b : value) : bool :=
  match toPrimitive a, toPrimitive b with
  | VStr x, VStr y => string_ltb (chars x) (chars y)
  | pa, pb => ltb (toNumber pa) (toNumber pb)
  end.

(** [a <= b] *)
Definition le (a b : value) : bool :=
  match toPrimitive a, toPrimitive b with
  | VStr x, VStr y => negb (string_ltb (chars y) (chars x))
  | pa, pb => leb (toNumber pa) (toNumber pb)
  end.

End JsValue.

(* ====================================================================== *)
(** * Part V: the extension                                                *)
(* ====================================================================== *)

(** What the extension takes from its platform: the collation behind
    [String.prototype.localeCompare] with the [numeric] option, Node's
    [path.basename], and the values the editor returns for the settings of
    the [liquidCssVariables] section (user values or the declared defaults). *)
Record config : Type := Config {
  includePatterns : list string;
  excludePatterns : list string;
  remToPxConversion : bool;
  baseFontSize : JsNumber.number;
  onlyRoot : bool
}.

Class Host : Type := {
  localeCompare : string -> string -> comparison;
  basename : string -> string;
  workspaceConfiguration : config
}.

(** ** The monad of effects *)

(** A computation over the mutable state [S] either returns or throws; the
    state it leaves behind is kept in both cases.  [Exhausted] marks the end
    of a recursion bound and is not a JavaScript exception. *)
Inductive exn : Type :=
| TypeError (msg : string)
| Exhausted.

Inductive outcome (A : Type) : Type :=
| Ok (a : A)
| Throw (e : exn).
Arguments Ok {A} a.
Arguments Throw {A} e.

Definition M (S A : Type) : Type := S -> outcome A * S.

Definition ret {S A : Type} (a : A) : M S A := fun s => (Ok a, s).
Definition throw {S A : Type} (e : exn) : M S A := fun s => (Throw e, s).

Definition bind {S A B : Type} (c : M S A) (k : A -> M S B) : M S B :=
  fun s =>
    match c s with
    | (Ok a, s') => k a s'
    | (Throw e, s') => (Throw e, s')
    end.

Definition gets {S A : Type} (f : S -> A) : M S A := fun s => (Ok (f s), s).
Definition modify {S : Type} (f : S -> S) : M S unit := fun s => (Ok tt, f s).

Notation "x <- c ;; k" := (bind c (fun x => k))
  (at level 100, c at next level, right associativity).
Notation "c ;;; k" := (bind c (fun _ => k))
  (at level 100, right associativity).

(** [for (const x of l) body(x)] with an accumulator. *)
Fixpoint foldM {S A B : Type} (f : B -> A -> M S B) (l : list A) (b : B) : M S B :=
  match l with
  | [] => ret b
  | x :: l' => b' <- f b x ;; foldM f l' b'
  end.

Fixpoint mapM {S A B : Type} (f : A -> M S B) (l : list A) : M S (list B) :=
  match l with
  | [] => ret []
  | x :: l' => y <- f x ;; ys <- mapM f l' ;; ret (y :: ys)
  end.

Module Extension.
Import JsString JsValue Regex.

(** ** The compiled patterns of [REGEX] *)

Definition word_dash : re := Cls false [CWord; CChar "-"].
Definition word_dot : re := Cls false [CWord; CChar "."].
(** [[\w_]] *)
Definition word_us : re := Cls false [CWord; CChar "_"].
(** The double quote, and the classes ['DQ] and [^'DQ] of the two quote
    characters (DQ standing for the double quote). *)
Definition dquote : ascii := ascii_of_nat 34.
Definition quote : re := Cls false [CChar "'"; CChar dquote].
Definition not_quote : re := Cls true [CChar "'"; CChar dquote].
Definition ws : re := Star true space.
Definition ws1 : re := Plus true space.

(** [/{%-?\s*liquid\s+([\s\S]*?)%}/gi] *)
Definition REGEX_liquidBlock : regexp :=
  RegExp (seqs [lit "{%"; Opt true (Chr "-"); ws; lit "liquid"; ws1;
                Group 1 (Star false anything); lit "%}"]) true 1.

(** [/{%\s*for\s+(\w+)\s+in\s+settings\.color_schemes\s*-%}([\s\S]*?){%\s*endfor\s*%}/gi] *)
Definition REGEX_forScheme : regexp :=
  RegExp (seqs [lit "{%"; ws; lit "for"; ws1; Group 1 (Plus true word); ws1; lit "in"; ws1;
                lit "settings.color_schemes"; ws; lit "-%}";
                Group 2 (Star false anything);
                lit "{%"; ws; lit "endfor"; ws; lit "%}"]) true 2.

(** [/{%\s*assign\s+[^%]+%}/g] *)
Definition REGEX_assign : regexp :=
  RegExp (seqs [lit "{%"; ws; lit "assign"; ws1; Plus true (none_of "%"); lit "%}"]) false 0.

(** [/{%\s*if\s+[\w.]+\s*[<>=!]+\s*\d+\s*%}([\s\S]*?)(?:{%\s*else\s*%}[\s\S]*?)?{%\s*endif\s*%}/gi] *)
Definition REGEX_ifBlock : regexp :=
  RegExp (seqs [lit "{%"; ws; lit "if"; ws1; Plus true word_dot; ws;
                Plus true (one_of "<>=!"); ws; Plus true digit; ws; lit "%}";
                Group 1 (Star false anything);
                Opt true (seqs [lit "{%"; ws; lit "else"; ws; lit "%}"; Star false anything]);
                lit "{%"; ws; lit "endif"; ws; lit "%}"]) true 1.

(** The optional [| append: '...'] suffix of an output tag:
    [(?:\s*\|\s*append:\s*['DQ]([^'DQ]+)['DQ])?] *)
Definition append_suffix : re :=
  Opt true (seqs [ws; Chr "|"; ws; lit "append:"; ws; quote;
                  Group 2 (Plus true not_quote); quote]).

(** [/\{\{\s*scheme\.settings\.([\w.]+)(?:\s*\|\s*append:\s*['DQ]([^'DQ]+)['DQ])?\s*\}\}/g] *)
Definition REGEX_schemeSettings : regexp :=
  RegExp (seqs [lit "{{"; ws; lit "scheme.settings."; Group 1 (Plus true word_dot);
                append_suffix; ws; lit "}}"]) false 2.

(** [/\{\{\s*settings\.([\w.]+)(?:\s*\|\s*append:\s*['DQ]([^'DQ]+)['DQ])?\s*\}\}/g] *)
Definition REGEX_settings : regexp :=
  RegExp (seqs [lit "{{"; ws; lit "settings."; Group 1 (Plus true word_dot);
                append_suffix; ws; lit "}}"]) false 2.

(** [/\{\{\s*([\w_]+)\s*\}\}/g] *)
Definition REGEX_variable : regexp :=
  RegExp (seqs [lit "{{"; ws; Group 1 (Plus true word_us); ws; lit "}}"]) false 1.

(** [/{%[^%]*%}/g] *)
Definition REGEX_liquidTags : regexp :=
  RegExp (seqs [lit "{%"; Star true (none_of "%"); lit "%}"]) false 0.

(** [/\{\{[^}]*\}\}/g] *)
Definition REGEX_liquidOutput : regexp :=
  RegExp (seqs [lit "{{"; Star true (none_of "}"); lit "}}"]) false 0.

(** [/--([\w-]+)\s*:\s*([^;]+);/g] *)
Definition REGEX_cssVariable : regexp :=
  RegExp (seqs [lit "--"; Group 1 (Plus true word_dash); ws; Chr ":"; ws;
                Group 2 (Plus true (none_of ";")); Chr ";"]) false 2.

(** [/:root\s*G*\{/g], where the repeated group G is, token by token,
    [(?:  ,  \s*  [.#]  [\w-]+  \s*  )]. *)
Definition REGEX_rootBlock : regexp :=
  RegExp (seqs [lit ":root"; ws;
                Star true (seqs [Chr ","; ws; one_of ".#"; Plus true word_dash; ws]);
                Chr "{"]) false 0.

(** [/@media\s*([^{]+)\{/g] *)
Definition REGEX_mediaQuery : regexp :=
  RegExp (seqs [lit "@media"; ws; Group 1 (Plus true (none_of "{")); Chr "{"]) false 1.

(** [/^([\w_]+)\[([^\]]+)\]$/] *)
Definition REGEX_arrayAccess : regexp :=
  RegExp (seqs [Bol; Group 1 (Plus true word_us); Chr "["; Group 2 (Plus true (none_of "]"));
                Chr "]"; Eol]) false 2.

(** [/^([\w_]+)\.([\w_]+)$/] *)
Definition REGEX_propAccess : regexp :=
  RegExp (seqs [Bol; Group 1 (Plus true word_us); Chr "."; Group 2 (Plus true word_us); Eol])
    false 2.

(** [/^\d+(\.\d+)?$/] *)
Definition REGEX_numericLiteral : regexp :=
  RegExp (seqs [Bol; Plus true digit; Opt true (Group 1 (seqs [Chr "."; Plus true digit]));
                Eol]) false 1.

(** [/^[\w_]+$/], written inline in [evaluateLiquidExpression]. *)
Definition RE_identifier : regexp :=
  RegExp (seqs [Bol; Plus true word_us; Eol]) false 0.

(** ** The module-level state *)

(** An entry of [hexToRgbaCache]: the object [{ r, g, b, a }]. *)
Record rgba : Type := Rgba { rgba_r : number; rgba_g : number; rgba_b : number; rgba_a : number }.

(** A media variant [{ query, value }] of a registry entry. *)
Record variant : Type := Variant { v_query : string; v_value : string }.

(** A registry entry [{ value, file, filePath, media }]; [media] is [None]
    for an object created without that property. *)
Record entry : Type := Entry {
  e_value : string;
  e_file : string;
  e_filePath : string;
  e_media : option (list variant)
}.

(** What expression evaluation reads and writes: [shopifySettings] and
    [shopifySettingsSchema] ([VNull] for [null]), [settingValueCache] and
    [hexToRgbaCache]. *)
Record resolver : Type := Resolver {
  shopifySettings : value;
  shopifySettingsSchema : value;
  settingValueCache : gmap string value;
  hexToRgbaCache : gmap string rgba
}.

(** All of the module-level variables: [cssVariables], [cachedConfig] and
    the four above, with the one piece of state that the shared patterns
    of [REGEX] carry from one call to the next: [REGEX.rootBlock.lastIndex],
    which [parseRootBlocks] never resets.  (The other shared patterns are
    used by [replace] and [match], or reset before their loop.) *)
Record state : Type := State {
  cssVariables : gmap string entry;
  cachedConfig : option config;
  res : resolver;
  rootBlockLastIndex : nat
}.

Definition set_settingValueCache (c : gmap string value) (s : resolver) : resolver :=
  Resolver (shopifySettings s) (shopifySettingsSchema s) c (hexToRgbaCache s).

Definition set_hexToRgbaCache (c : gmap string rgba) (s : resolver) : resolver :=
  Resolver (shopifySettings s) (shopifySettingsSchema s) (settingValueCache s) c.

Definition set_settings (settings schema : value) (s : resolver) : resolver :=
  Resolver settings schema (settingValueCache s) (hexToRgbaCache s).

Definition set_cssVariables (m : gmap string entry) (s : state) : state :=
  State m (cachedConfig s) (res s) (rootBlockLastIndex s).

Definition set_cachedConfig (c : option config) (s : state) : state :=
  State (cssVariables s) c (res s) (rootBlockLastIndex s).

Definition set_res (q : resolver) (s : state) : state :=
  State (cssVariables s) (cachedConfig s) q (rootBlockLastIndex s).

Definition set_rootBlockLastIndex (i : nat) (s : state) : state :=
  State (cssVariables s) (cachedConfig s) (res s) i.

(** A computation on the resolver, run inside the whole state. *)
Definition lift {A : Type} (c : M resolver A) : M state A :=
  fun s => let '(o, q) := c (res s) in (o, set_res q s).

(** The bindings object [variables] of the template interpreter. *)
Abbreviation bindings := (gmap string value).

Section WithHost.
Context `{Host}.

(** ** [getExtensionConfig], [invalidateConfigCache] *)

Definition getExtensionConfig : M state config :=
  fun s =>
    match cachedConfig s with
    | Some c => (Ok c, s)
    | None => (Ok workspaceConfiguration, set_cachedConfig (Some workspaceConfiguration) s)
    end.

Definition invalidateConfigCache : M state unit :=
  modify (fun s =>
    set_res (set_settingValueCache ∅ (set_hexToRgbaCache ∅ (res s)))
            (set_cachedConfig None s)).

(** ** [remToPx], [pxToRem] *)

(** [/\.?0+$/] *)
Definition RE_trailingZeros : regexp :=
  RegExp (seqs [Opt true (Chr "."); Plus true (Chr "0"); Eol]) false 0.

(** The default parameter value [baseFontSize = 16]. *)
Definition sixteen : number := of_Z 16.

(** [None] stands for the [null] result. *)
Definition remToPx (remValue : value) (baseFontSize : option number) : option string :=
  let baseFontSize := default sixteen baseFontSize in
  let numValue := parseFloat remValue in
  if is_nan numValue then None
  else Some (replace_one RE_trailingZeros (toFixed 2 (mul numValue baseFontSize)) "").

Definition pxToRem (pxValue : value) (baseFontSize : option number) : option string :=
  let baseFontSize := default sixteen baseFontSize in
  let numValue := parseFloat pxValue in
  if is_nan numValue then None
  else Some (replace_one RE_trailingZeros (toFixed 4 (div numValue baseFontSize)) "").

(** ** [hexToRgba] *)

Definition one : number := of_Z 1.

(** The part of [hexToRgba] after the cache lookup, on the string [hex]. *)
Definition hexToRgba_decode (hex : string) (alpha : number) : option rgba :=
  let hex := replace_first hex "#" "" in
  let hex :=
    if Nat.eqb (String.length hex) 3
    then join "" (map (fun c => String c (String c EmptyString)) (chars hex))
    else hex in
  if negb (Nat.eqb (String.length hex) 6) && negb (Nat.eqb (String.length hex) 8) then None
  else
    let r := parseInt_string (substring 0 2 hex) true in
    let g := parseInt_string (substring 2 4 hex) true in
    let b := parseInt_string (substring 4 6 hex) true in
    let a := if Nat.eqb (String.length hex) 8
             then div (parseInt_string (substring 6 8 hex) true) (of_Z 255)
             else alpha in
    Some (Rgba r g b a).

Definition hexToRgba (hex : value) (alpha : option number) : M resolver (option rgba) :=
  let alpha := default one alpha in
  match hex with
  | VStr h =>
      if String.eqb h "" then ret None
      else
        let cacheKey := h ++ "-" ++ to_string alpha in
        cache <- gets hexToRgbaCache ;;
        match cache !! cacheKey with
        | Some result => ret (Some result)
        | None =>
            match hexToRgba_decode h alpha with
            | None => ret None
            | Some result =>
                modify (set_hexToRgbaCache (<[cacheKey := result]> cache)) ;;;
                ret (Some result)
            end
        end
  | _ => ret None
  end.

(** ** [getFirstColorScheme] *)

(** [v && typeof v === 'object'] *)
Definition is_object (v : value) : bool := truthy v && typeof_object v.

(** [Object.keys(v)[0]] for a value [v] other than [null] and [undefined]. *)
Definition keys_first (v : value) : option string :=
  match v with
  | VObj o => first_key o
  | VArr (_ :: _) => Some "0"
  | VStr (String _ _) => Some "0"
  | _ => None
  end.

(** [VNull] stands for the [null] result. *)
Definition getFirstColorScheme (st : resolver) : value :=
  let settings := shopifySettings st in
  if negb (truthy settings) || negb (truthy (get_prop settings "color_schemes")) then VNull
  else
    let schemes := get_prop settings "color_schemes" in
    match keys_first schemes with
    | Some firstSchemeKey =>
        if String.eqb firstSchemeKey "" then VNull else get_prop schemes firstSchemeKey
    | None => VNull
    end.

(** ** [formatSettingValue] *)

Definition formatSettingValue (value : value) (varName : string) : string :=
  match value with
  | VNum x => to_string x
  | VBool b => toString value
  | VStr s => s
  | VNull | VArr _ | VObj _ => "[object]"
  | VUndef => toString value
  end.

(** ** [resolveLiquidVariable] *)

(** [for (const prop of path) { if (value && typeof value === 'object')
    value = value[prop]; else break; }] *)
Fixpoint walk_keep (v : value) (path : list string) : value :=
  match path with
  | [] => v
  | prop :: path' => if is_object v then walk_keep (get_prop v prop) path' else v
  end.

(** [/\{\{\s*scheme\.settings\.([\w.]+)\s*\}\}/] *)
Definition RE_schemeVar : regexp :=
  RegExp (seqs [lit "{{"; ws; lit "scheme.settings."; Group 1 (Plus true word_dot); ws;
                lit "}}"]) false 1.

(** [/\{\{\s*settings\.([\w.]+)\s*\}\}/] *)
Definition RE_settingsVar : regexp :=
  RegExp (seqs [lit "{{"; ws; lit "settings."; Group 1 (Plus true word_dot); ws; lit "}}"])
    false 1.

Definition rgba_text (c : rgba) : string :=
  to_string (rgba_r c) ++ ", " ++ to_string (rgba_g c) ++ ", " ++ to_string (rgba_b c)
    ++ ", " ++ to_string (rgba_a c).

Definition rgb_text (c : rgba) : string :=
  to_string (rgba_r c) ++ " " ++ to_string (rgba_g c) ++ " " ++ to_string (rgba_b c).

Definition resolveLiquidVariable (liquidVar : string) : M resolver string :=
  match exec RE_schemeVar liquidVar with
  | Some schemeMatch =>
      st <- gets id ;;
      let firstScheme := getFirstColorScheme st in
      if negb (truthy firstScheme) || negb (truthy (get_prop firstScheme "settings"))
      then ret ("[scheme." ++ group_text 1 schemeMatch ++ "]")
      else
        let varPath := split (group_text 1 schemeMatch) "." in
        let value := walk_keep (get_prop firstScheme "settings") varPath in
        match value with
        | VStr v =>
            if startsWith v "#" then
              let lastProp := List.last varPath "" in
              if String.eqb lastProp "rgba" then
                rgba <- hexToRgba value None ;;
                ret (match rgba with Some c => rgba_text c | None => v end)
              else if String.eqb lastProp "rgb" then
                rgba <- hexToRgba value None ;;
                ret (match rgba with Some c => rgb_text c | None => v end)
              else
                rgba <- hexToRgba value None ;;
                ret (match rgba with Some c => rgba_text c | None => v end)
            else ret (formatSettingValue value (hd "" varPath))
        | _ => ret (formatSettingValue value (hd "" varPath))
        end
  | None =>
      match exec RE_settingsVar liquidVar with
      | None => ret liquidVar
      | Some m =>
          settings <- gets shopifySettings ;;
          schema <- gets shopifySettingsSchema ;;
          let varPath := split (group_text 1 m) "." in
          let varName := hd "" varPath in
          if truthy settings && negb (strict_eq (get_prop settings varName) VUndef) then
            ret (formatSettingValue (walk_keep (get_prop settings varName) (tl varPath)) varName)
          else if truthy schema && negb (strict_eq (get_prop schema varName) VUndef) then
            ret (formatSettingValue (get_prop schema varName) varName)
          else ret ("[" ++ join "." varPath ++ "]")
      end
  end.

(** ** [findMatchingBrace] *)

(** The loop of [findMatchingBrace] from index [i], where [s] is the text
    from [i] on; [None] stands for [-1]. *)
Fixpoint findMatchingBrace_from (s : list ascii) (i : nat) (depth : nat) : option nat :=
  match s with
  | [] => None
  | char :: s' =>
      if Ascii.eqb char "{" then findMatchingBrace_from s' (S i) (S depth)
      else if Ascii.eqb char "}" then
        match depth with
        | 1 => Some (i + 1)
        | _ => findMatchingBrace_from s' (S i) (depth - 1)
        end
      else findMatchingBrace_from s' (S i) depth
  end.

Definition findMatchingBrace (text : string) (startIndex : nat) : option nat :=
  findMatchingBrace_from (skipn startIndex (chars text)) startIndex 1.

(** ** [getSettingValue] *)

(** [for (const key of keys) { if (v && typeof v === 'object') v = v[key];
    else { v = undefined; break; } }] *)
Fixpoint walk_undef (v : value) (keys : list string) : value :=
  match keys with
  | [] => v
  | key :: keys' => if is_object v then walk_undef (get_prop v key) keys' else VUndef
  end.

(** [shopifySettings?.[settingKey]] *)
Definition optional_get (v : value) (k : string) : value :=
  match v with
  | VNull | VUndef => VUndef
  | _ => get_prop v k
  end.

(** The lookup of [getSettingValue] behind the cache. *)
Definition lookupSetting (settings schema : value) (settingKey : string) : value :=
  let settingValue := optional_get settings settingKey in
  let settingValue :=
    if includes settingKey "." then walk_undef settings (split settingKey ".")
    else settingValue in
  if strict_eq settingValue VUndef && truthy schema then get_prop schema settingKey
  else settingValue.

Definition getSettingValue (settingKey : string) : M resolver value :=
  cache <- gets settingValueCache ;;
  match cache !! settingKey with
  | Some v => ret v
  | None =>
      settings <- gets shopifySettings ;;
      schema <- gets shopifySettingsSchema ;;
      let settingValue := lookupSetting settings schema settingKey in
      modify (set_settingValueCache (<[settingKey := settingValue]> cache)) ;;;
      ret settingValue
  end.

(** ** [evaluateLiquidExpression], [applyLiquidFilter] *)

(** [variables[name]] *)
Definition lookup_var (variables : bindings) (name : string) : value :=
  default VUndef (variables !! name).

(** The scanner that opens [evaluateLiquidExpression]: [expr] is cut at each
    [|] outside quotes.  [prev] is the code unit before [char] (none at index
    0), [current] the piece being read (in reverse), [parts] the pieces
    pushed so far (in reverse). *)
Fixpoint split_pipes (expr : list ascii) (prev : option ascii) (current : list ascii)
    (inQuotes : bool) (quoteChar : ascii) (parts : list string) : list string :=
  match expr with
  | [] =>
      rev (match current with
           | [] => parts
           | _ :: _ => trim (of_chars (rev current)) :: parts
           end)
  | char :: expr' =>
      if (Ascii.eqb char dquote || Ascii.eqb char "'")
         && match prev with Some p => negb (Ascii.eqb p "\") | None => true end
      then
        if negb inQuotes then split_pipes expr' (Some char) (char :: current) true char parts
        else if Ascii.eqb char quoteChar
        then split_pipes expr' (Some char) (char :: current) false "000" parts
        else split_pipes expr' (Some char) (char :: current) inQuotes quoteChar parts
      else if Ascii.eqb char "|" && negb inQuotes
      then split_pipes expr' (Some char) [] inQuotes quoteChar
             (trim (of_chars (rev current)) :: parts)
      else split_pipes expr' (Some char) (char :: current) inQuotes quoteChar parts
  end.

Definition pipe_parts (expr : string) : list string :=
  split_pipes (chars expr) None [] false "000" [].

(** [(v.startsWith(q) && v.endsWith(q))] for either quote [q]. *)
Definition is_quoted (v : string) : bool :=
  (startsWith v "'" && endsWith v "'")
  || (startsWith v (String dquote "") && endsWith v (String dquote "")).

(** [/^([\w_]+)(?::\s*(.+))?$/] *)
Definition RE_filter : regexp :=
  RegExp (seqs [Bol; Group 1 (Plus true word_us);
                Opt true (seqs [Chr ":"; ws; Group 2 (Plus true Any)]); Eol]) false 2.

(** [/^['DQ]|['DQ]$/g] *)
Definition RE_outerQuotes : regexp :=
  RegExp (Alt (Seq Bol quote) (Seq quote Eol)) false 0.

(** [/['DQ](G)['DQ]\s*,\s*(.+)/], where the first group G is [[^'DQ]*]. *)
Definition RE_replaceArgs : regexp :=
  RegExp (seqs [quote; Group 1 (Star true not_quote); quote; ws; Chr ","; ws;
                Group 2 (Plus true Any)]) false 2.

(** [/^['DQ].*['DQ]$/] *)
Definition RE_quotedText : regexp :=
  RegExp (seqs [Bol; quote; Star true Any; quote; Eol]) false 0.

(** [/'?\[([^\]]+)\]'?/g] *)
Definition RE_placeholder : regexp :=
  RegExp (seqs [Opt true (Chr "'"); Chr "["; Group 1 (Plus true (none_of "]")); Chr "]";
                Opt true (Chr "'")]) false 1.

(** [/['DQ\[\]]/g] *)
Definition RE_placeholderMarks : regexp :=
  RegExp (Cls false [CChar "'"; CChar dquote; CChar "["; CChar "]"]) false 0.

(** The pattern [new RegExp(escapedSearch, 'g')]: every character that is
    special in a pattern is escaped in [escapedSearch], so the pattern
    matches the text [search] literally. *)
Definition RE_literal (search : string) : regexp := RegExp (lit search) false 0.

Definition hundred_thousand : number := of_Z 100000.
Definition minus_one : number := S754_finite true 4503599627370496 (-52).

(** [Math.round(x * 100000) / 100000] *)
Definition round5 (x : number) : number :=
  div (round (mul x hundred_thousand)) hundred_thousand.

(** [a] and [b] are the same element for a [Set]: [SameValueZero]. *)
Definition same_value_zero (a b : value) : bool :=
  match a, b with
  | VNum x, VNum y => eqb x y || (is_nan x && is_nan y)
  | _, _ => strict_eq a b
  end.

(** [[...new Set(l)]]: first occurrences, in order. *)
Fixpoint uniq (l : list value) (seen : list value) : list value :=
  match l with
  | [] => []
  | x :: l' =>
      if existsb (same_value_zero x) seen then uniq l' seen
      else x :: uniq l' (x :: seen)
  end.

(** [l.sort(compare)], a stable sort: [x] is inserted before the first
    element it does not follow. *)
Fixpoint insert_sorted (compare : value -> value -> comparison) (x : value)
    (l : list value) : list value :=
  match l with
  | [] => [x]
  | y :: l' =>
      match compare x y with
      | Gt => y :: insert_sorted compare x l'
      | _ => x :: l
      end
  end.

Definition is_undefined (v : value) : bool :=
  match v with VUndef => true | _ => false end.

(** [undefined] elements are not compared: they go last.  The result is
    a new array: the source sorts in place, which also reorders the array
    where a variable is bound to it; the embedding has no shared arrays. *)
Definition array_sort (compare : value -> value -> comparison) (l : list value)
  : list value :=
  fold_right (insert_sorted compare) [] (List.filter (fun v => negb (is_undefined v)) l)
    ++ List.filter (fun v => is_undefined v) l.

(** [l.findIndex(p)] and [l.indexOf(x)]; [None] stands for [-1]. *)
Fixpoint findIndex (p : value -> bool) (l : list value) (i : nat) : option nat :=
  match l with
  | [] => None
  | x :: l' => if p x then Some i else findIndex p l' (S i)
  end.

Definition index_number (i : option nat) : number :=
  match i with Some n => of_nat n | None => minus_one end.

Section Filters.
(** [evaluateLiquidExpression], which [applyLiquidFilter] calls back. *)
Variable evaluate : string -> bindings -> M resolver value.

Definition applyLiquidFilter (value : value) (filter : string) (variables : bindings)
  : M resolver JsValue.value :=
  match exec RE_filter filter with
  | None => ret value
  | Some filterMatch =>
      let filterName := group_text 1 filterMatch in
      let filterArg := group 2 filterMatch in
      if String.eqb filterName "split" then
        let splitBy :=
          match filterArg with
          | Some arg => replace RE_outerQuotes (trim arg) ""
          | None => ","
          end in
        ret (VArr (map VStr (split (toString value) splitBy)))
      else if String.eqb filterName "replace" then
        match filterArg with
        | None => throw (TypeError "Cannot read properties of undefined (reading 'match')")
        | Some arg =>
            match exec RE_replaceArgs arg with
            | Some replaceArgs =>
                let search := group_text 1 replaceArgs in
                let replaceValueExpr := trim (group_text 2 replaceArgs) in
                replaceValue <- evaluate replaceValueExpr variables ;;
                let replaceValue :=
                  if strict_eq replaceValue (VStr replaceValueExpr)
                     && test RE_quotedText replaceValueExpr
                  then VStr (replace RE_outerQuotes replaceValueExpr "")
                  else replaceValue in
                ret (VStr (replace (RE_literal search) (toString value) (toString replaceValue)))
            | None => ret value
            end
        end
      else if String.eqb filterName "append" then
        appendValue <- match filterArg with
                       | Some arg => evaluate arg variables
                       | None => ret (VStr "")
                       end ;;
        ret (VStr (toString value ++ toString appendValue))
      else if String.eqb filterName "times" then
        multiplier <- match filterArg with
                      | Some arg => v <- evaluate arg variables ;; ret (parseFloat v)
                      | None => ret one
                      end ;;
        let timesResult := mul (parseFloat value) multiplier in
        if is_nan timesResult then ret (VNum zero)
        else ret (VNum (round5 timesResult))
      else if String.eqb filterName "divided_by" then
        divisor <- match filterArg with
                   | Some arg => v <- evaluate arg variables ;; ret (parseFloat v)
                   | None => ret one
                   end ;;
        if is_zero divisor then ret (VNum zero)
        else
          let divResult := div (parseFloat value) divisor in
          if is_nan divResult then ret (VNum zero)
          else ret (VNum (round5 divResult))
      else if String.eqb filterName "minus" then
        subtrahend <- match filterArg with
                      | Some arg => v <- evaluate arg variables ;; ret (parseFloat v)
                      | None => ret zero
                      end ;;
        let minusResult := sub (parseFloat value) subtrahend in
        ret (VNum (if is_nan minusResult then zero else minusResult))
      else if String.eqb filterName "plus" then
        addend <- match filterArg with
                  | Some arg => v <- evaluate arg variables ;; ret (parseFloat v)
                  | None => ret zero
                  end ;;
        let plusResult := add (parseFloat value) addend in
        ret (VNum (if is_nan plusResult then zero else plusResult))
      else if String.eqb filterName "uniq" then
        ret (match value with VArr l => VArr (uniq l []) | _ => value end)
      else if String.eqb filterName "sort_natural" then
        ret (match value with
             | VArr l => VArr (array_sort (fun a b => localeCompare (toString a) (toString b)) l)
             | _ => value
             end)
      else if String.eqb filterName "find_index" then
        searchValue <- match filterArg with
                       | Some arg => evaluate arg variables
                       | None => ret (VStr "")
                       end ;;
        match value with
        | VArr l =>
            let searchStr := toString searchValue in
            match findIndex (strict_eq (VStr searchStr)) l 0 with
            | Some i => ret (VNum (of_nat i))
            | None =>
                let searchNum := parseFloat_string searchStr in
                if negb (is_nan searchNum)
                then ret (VNum (index_number
                                  (findIndex (fun v => eqb (parseFloat v) searchNum) l 0)))
                else ret (VNum minus_one)
            end
        | _ => ret (VNum minus_one)
        end
      else (* font_modify, font_face and the default case *)
        ret value
  end.

End Filters.

(** [evaluateLiquidExpression], bounded by [fuel] nested evaluations.  The
    expression evaluated by a nested call (an index, a filter argument) is a
    proper part of the text of the calling one. *)
Fixpoint evaluateLiquidExpression_fuel (fuel : nat) (expr : string) (variables : bindings)
  : M resolver value :=
  match fuel with
  | O => throw Exhausted
  | S fuel' =>
      let evaluate := evaluateLiquidExpression_fuel fuel' in
      match pipe_parts expr with
      | [] => throw (TypeError "Cannot read properties of undefined (reading 'startsWith')")
      | value :: filters =>
          base <-
            (if is_quoted value then ret (VStr (slice_1_m1 value))
             else if includes value "[" then
               match exec REGEX_arrayAccess value with
               | Some arrayMatch =>
                   let objectName := group_text 1 arrayMatch in
                   let indexExpr := group_text 2 arrayMatch in
                   if String.eqb objectName "settings" then
                     settingKey <- evaluate indexExpr variables ;;
                     settingValue <- getSettingValue (toString settingKey) ;;
                     ret (if is_undefined settingValue then VStr "" else settingValue)
                   else
                     let array := lookup_var variables objectName in
                     index <- evaluate indexExpr variables ;;
                     ret (match array with
                          | VArr l => array_get l (parseInt index)
                          | _ => VStr ""
                          end)
               | None => ret (VStr value)
               end
             else if includes value "." then
               match exec REGEX_propAccess value with
               | Some propMatch =>
                   let objectName := group_text 1 propMatch in
                   let propertyName := group_text 2 propMatch in
                   if String.eqb objectName "settings" then
                     v <- getSettingValue propertyName ;;
                     ret (if is_undefined v then VStr "" else v)
                   else
                     let obj := lookup_var variables objectName in
                     if is_object obj && has_prop obj propertyName
                     then ret (get_prop obj propertyName)
                     else ret (VStr value)
               | None =>
                   if test RE_identifier value
                   then ret (let v := lookup_var variables value in
                             if is_undefined v then VStr value else v)
                   else ret (VStr value)
               end
             else if test RE_identifier value then
               ret (let v := lookup_var variables value in
                    if is_undefined v then VStr value else v)
             else if test REGEX_numericLiteral value then
               ret (VNum (parseFloat_string value))
             else
               ret (VStr (fold_left
                            (fun value placeholder =>
                               let varName := replace RE_placeholderMarks placeholder "" in
                               let v := lookup_var variables varName in
                               let varValue := if is_undefined v then VStr "" else v in
                               replace_one (RE_literal placeholder) value (toString varValue))
                            (map m_text (matches RE_placeholder value)) value))) ;;
          foldM (fun value filter => applyLiquidFilter evaluate value filter variables)
            filters base
      end
  end.

Definition evaluateLiquidExpression (expr : string) (variables : bindings)
  : M resolver value :=
  evaluateLiquidExpression_fuel (S (String.length expr)) expr variables.

(** ** [evaluateLiquidCondition] *)

(** [/(.+?)\s*(>=|<=|>|<|==)\s*(.+)/] *)
Definition RE_comparison : regexp :=
  RegExp (seqs [Group 1 (Plus false Any); ws;
                Group 2 (alts [lit ">="; lit "<="; lit ">"; lit "<"; lit "=="]); ws;
                Group 3 (Plus true Any)]) false 3.

Definition evaluateLiquidCondition (condition : string) (variables : bindings)
  : M resolver bool :=
  if includes condition " contains " then
    let pieces := map trim (split condition " contains ") in
    let left := nth 0 pieces "" in
    let right := nth 1 pieces "" in
    l <- evaluateLiquidExpression left variables ;;
    r <- evaluateLiquidExpression right variables ;;
    ret (includes (toString l) (toString r))
  else
    match exec RE_comparison condition with
    | Some comparisonMatch =>
        let left := group_text 1 comparisonMatch in
        let operator := group_text 2 comparisonMatch in
        let right := group_text 3 comparisonMatch in
        leftVal <- evaluateLiquidExpression (trim left) variables ;;
        rightVal <- evaluateLiquidExpression (trim right) variables ;;
        if negb (String.eqb operator "==") then
          let leftNum := parseFloat leftVal in
          let rightNum := parseFloat rightVal in
          if String.eqb operator ">=" then ret (leb rightNum leftNum)
          else if String.eqb operator "<=" then ret (leb leftNum rightNum)
          else if String.eqb operator ">" then ret (ltb rightNum leftNum)
          else if String.eqb operator "<" then ret (ltb leftNum rightNum)
          else ret (loose_eq leftVal rightVal)
        else ret (loose_eq leftVal rightVal)
    | None =>
        value <- evaluateLiquidExpression condition variables ;;
        ret (truthy value)
    end.

(** ** [processIfBlockInLoop] *)

(** [/if\s+(.+)/], [/elsif\s+(.+)/], [/unless\s+(.+)/] *)
Definition RE_if : regexp :=
  RegExp (seqs [lit "if"; ws1; Group 1 (Plus true Any)]) false 1.
Definition RE_elsif : regexp :=
  RegExp (seqs [lit "elsif"; ws1; Group 1 (Plus true Any)]) false 1.
Definition RE_unless : regexp :=
  RegExp (seqs [lit "unless"; ws1; Group 1 (Plus true Any)]) false 1.

(** [/assign\s+([\w_]+)\s*=\s*(.+)/] *)
Definition RE_assignLine : regexp :=
  RegExp (seqs [lit "assign"; ws1; Group 1 (Plus true word_us); ws; Chr "="; ws;
                Group 2 (Plus true Any)]) false 2.

(** [/for\s+([\w_]+)\s+in\s+([\w_]+)/] *)
Definition RE_for : regexp :=
  RegExp (seqs [lit "for"; ws1; Group 1 (Plus true word_us); ws1; lit "in"; ws1;
                Group 2 (Plus true word_us)]) false 2.

(** One of the objects [{ condition, met, lines }] of [branches]; the
    condition is not read again once [met] is known. *)
Record branch : Type := Branch { met : bool; branch_lines : list string }.

Definition push_line (line : string) (b : branch) : branch :=
  Branch (met b) (branch_lines b ++ [line]).

(** The statement [echo expr]: its text is appended to the output. *)
Definition run_echo (line : string) (variables : bindings) (output : string)
  : M resolver string :=
  let echoExpr := trim (substring_from 5 line) in
  v <- evaluateLiquidExpression echoExpr variables ;;
  ret (output ++ toString v).

(** The statement [assign name = expr]; a line that does not have this
    shape changes nothing. *)
Definition run_assign (line : string) (variables : bindings) : M resolver bindings :=
  match exec RE_assignLine line with
  | Some assignMatch =>
      let varName := group_text 1 assignMatch in
      let expression := group_text 2 assignMatch in
      v <- evaluateLiquidExpression (trim expression) variables ;;
      ret (<[varName := v]> variables)
  | None => ret variables
  end.

(** The [echo] and [assign] lines of a branch or of an [unless] body, in
    order; other lines are passed over. *)
Fixpoint run_lines (lines : list string) (variables : bindings) (output : string)
  : M resolver (bindings * string) :=
  match lines with
  | [] => ret (variables, output)
  | line :: lines' =>
      if startsWith line "echo " then
        output' <- run_echo line variables output ;;
        run_lines lines' variables output'
      else if startsWith line "assign " then
        variables' <- run_assign line variables ;;
        run_lines lines' variables' output
      else run_lines lines' variables output
  end.

(** The [while (i < lines.length && depth > 0)] loop that collects the
    branches: [rest] is [lines] from index [i] on, [earlier] the closed
    branches (latest first) and [current] the branch being filled.  The
    result is the branches in order with the index the loop stopped at. *)
Fixpoint collect_branches (rest : list string) (i depth : nat) (conditionMet : bool)
    (earlier : list branch) (current : branch) (variables : bindings)
  : M resolver (list branch * nat) :=
  match rest with
  | [] => ret (rev (current :: earlier), i)
  | line :: rest' =>
      if startsWith line "if " then
        collect_branches rest' (S i) (S depth) conditionMet earlier
          (push_line line current) variables
      else if startsWith line "endif" then
        if Nat.eqb depth 1 then ret (rev (current :: earlier), i)
        else collect_branches rest' (S i) (depth - 1) conditionMet earlier
               (push_line line current) variables
      else if startsWith line "elsif " && Nat.eqb depth 1 then
        match exec RE_elsif line with
        | Some elsifMatch =>
            let elsifCondition := trim (group_text 1 elsifMatch) in
            elsifMet <- (if conditionMet then ret false
                         else evaluateLiquidCondition elsifCondition variables) ;;
            collect_branches rest' (S i) depth (conditionMet || elsifMet)
              (current :: earlier) (Branch elsifMet []) variables
        | None =>
            collect_branches rest' (S i) depth conditionMet earlier current variables
        end
      else if startsWith line "else" && Nat.eqb depth 1 then
        collect_branches rest' (S i) depth conditionMet
          (current :: earlier) (Branch (negb conditionMet) []) variables
      else
        collect_branches rest' (S i) depth conditionMet earlier
          (push_line line current) variables
  end.

(** The result [{ output, nextIndex }], with the bindings as the calls
    leave them. *)
Definition processIfBlockInLoop (lines : list string) (startIndex : nat)
    (variables : bindings) : M resolver (string * nat * bindings) :=
  let i := startIndex in
  let ifLine := nth i lines "" in
  match exec RE_if ifLine with
  | None => ret ("", i + 1, variables)
  | Some ifMatch =>
      let ifCondition := trim (group_text 1 ifMatch) in
      conditionMet <- evaluateLiquidCondition ifCondition variables ;;
      bi <- collect_branches (skipn (S i) lines) (S i) 1 conditionMet []
              (Branch conditionMet []) variables ;;
      let '(branches, i) := bi in
      match List.find met branches with
      | Some branch =>
          vo <- run_lines (branch_lines branch) variables "" ;;
          let '(variables', output) := vo in
          ret (output, i + 1, variables')
      | None => ret ("", i + 1, variables)
      end
  end.

(** ** [executeLiquidBlock] *)

(** The loops that look for [endfor] and [endunless]: [rest] is [lines] from
    index [i] on.  The result is the body and the index of the closing line
    (or [lines.length]). *)
Fixpoint collect_body (opener closer : string) (rest : list string) (i depth : nat)
    (body : list string) : list string * nat :=
  match rest with
  | [] => (body, i)
  | line :: rest' =>
      let depth := if startsWith line opener then S depth else depth in
      if startsWith line closer then
        if Nat.eqb depth 1 then (body, i)
        else collect_body opener closer rest' (S i) (depth - 1) (body ++ [line])
      else collect_body opener closer rest' (S i) depth (body ++ [line])
  end.

(** The [while (k < forBody.length)] loop over the body of a [for]. *)
Fixpoint run_for_body (fuel : nat) (forBody : list string) (k : nat)
    (variables : bindings) (output : string) : M resolver (bindings * string) :=
  match fuel with
  | O => throw Exhausted
  | S fuel' =>
      match nth_error forBody k with
      | None => ret (variables, output)
      | Some bodyLine =>
          if startsWith bodyLine "echo " then
            output' <- run_echo bodyLine variables output ;;
            run_for_body fuel' forBody (k + 1) variables output'
          else if startsWith bodyLine "assign " then
            variables' <- run_assign bodyLine variables ;;
            run_for_body fuel' forBody (k + 1) variables' output
          else if startsWith bodyLine "if " then
            ifResult <- processIfBlockInLoop forBody k variables ;;
            let '(out, nextIndex, variables') := ifResult in
            run_for_body fuel' forBody nextIndex variables' (output ++ out)
          else run_for_body fuel' forBody (k + 1) variables output
      end
  end.

(** The [for (let j = 0; j < array.length; j++)] loop: [array] is what is
    left of the array from index [j] on. *)
Fixpoint run_for (array : list value) (j : nat) (itemVar : string) (forBody : list string)
    (variables : bindings) (output : string) : M resolver (bindings * string) :=
  match array with
  | [] => ret (variables, output)
  | item :: array' =>
      let variables := <[itemVar := item]> variables in
      let variables := <["forloop" := VObj [("index", VNum (of_nat (j + 1)))]]> variables in
      vo <- run_for_body (S (List.length forBody)) forBody 0 variables output ;;
      let '(variables', output') := vo in
      run_for array' (S j) itemVar forBody variables' output'
  end.

(** The main loop [for (let i = 0; i < lines.length; i++)]. *)
Fixpoint run_block (fuel : nat) (lines : list string) (i : nat) (skipMode : bool)
    (variables : bindings) (output : string) : M resolver string :=
  match fuel with
  | O => throw Exhausted
  | S fuel' =>
      match nth_error lines i with
      | None => ret output
      | Some line =>
          if String.eqb line "comment" || startsWith line "comment " then
            run_block fuel' lines (S i) true variables output
          else if String.eqb line "endcomment" then
            run_block fuel' lines (S i) false variables output
          else if skipMode then
            run_block fuel' lines (S i) skipMode variables output
          else if startsWith line "assign " then
            variables' <- run_assign line variables ;;
            run_block fuel' lines (S i) skipMode variables' output
          else if startsWith line "for " then
            match exec RE_for line with
            | Some forMatch =>
                let itemVar := group_text 1 forMatch in
                let arrayVar := group_text 2 forMatch in
                let array :=
                  let v := lookup_var variables arrayVar in
                  if truthy v then v else VArr [] in
                let '(forBody, i') := collect_body "for " "endfor" (skipn (S i) lines) (S i) 1 [] in
                vo <- match array with
                      | VArr l => run_for l 0 itemVar forBody variables output
                      | _ => ret (variables, output)
                      end ;;
                let '(variables', output') := vo in
                run_block fuel' lines (S i') skipMode variables' output'
            | None => run_block fuel' lines (S i) skipMode variables output
            end
          else if startsWith line "unless " then
            match exec RE_unless line with
            | Some unlessMatch =>
                let condition := trim (group_text 1 unlessMatch) in
                c <- evaluateLiquidCondition condition variables ;;
                let conditionMet := negb c in
                let '(unlessBody, i') :=
                  collect_body "unless " "endunless" (skipn (S i) lines) (S i) 1 [] in
                vo <- (if conditionMet then run_lines unlessBody variables output
                       else ret (variables, output)) ;;
                let '(variables', output') := vo in
                run_block fuel' lines (S i') skipMode variables' output'
            | None => run_block fuel' lines (S i) skipMode variables output
            end
          else if startsWith line "echo " then
            output' <- run_echo line variables output ;;
            run_block fuel' lines (S i) skipMode variables output'
          else run_block fuel' lines (S i) skipMode variables output
      end
  end.

Definition LF : string := String (ascii_of_nat 10) "".

Definition executeLiquidBlock (liquidCode : string) : M resolver string :=
  let lines := List.filter (fun l => negb (String.eqb l "")) (map trim (split liquidCode LF)) in
  run_block (S (List.length lines)) lines 0 false ∅ "".

(** ** [evaluateCondition] *)

(** [/settings\.([\w.]+)\s*(==|!=|<=|>=|<|>)\s*(['DQ]?)(.+?)\3/] *)
Definition RE_settingComparison : regexp :=
  RegExp (seqs [lit "settings."; Group 1 (Plus true word_dot); ws;
                Group 2 (alts [lit "=="; lit "!="; lit "<="; lit ">="; lit "<"; lit ">"]); ws;
                Group 3 (Opt true quote); Group 4 (Plus false Any); Backref 3]) false 4.

(** [/settings\.([\w.]+)/] *)
Definition RE_settingName : regexp :=
  RegExp (seqs [lit "settings."; Group 1 (Plus true word_dot)]) false 1.

Definition evaluateCondition (condition : string) : M resolver bool :=
  let condition := trim condition in
  match exec RE_settingComparison condition with
  | Some comparisonMatch =>
      let settingKey := group_text 1 comparisonMatch in
      let operator := group_text 2 comparisonMatch in
      let quote := group_text 3 comparisonMatch in
      let compareValue := group_text 4 comparisonMatch in
      settingValue <- getSettingValue settingKey ;;
      let actualValue := settingValue in
      let expectedValue :=
        if negb (String.eqb quote "") then VStr compareValue
        else if isNaN (VStr compareValue) then VStr compareValue
        else VNum (toNumber (VStr compareValue)) in
      if String.eqb operator "==" then ret (loose_eq actualValue expectedValue)
      else if String.eqb operator "!=" then ret (negb (loose_eq actualValue expectedValue))
      else if String.eqb operator "<" then ret (lt actualValue expectedValue)
      else if String.eqb operator ">" then ret (lt expectedValue actualValue)
      else if String.eqb operator "<=" then ret (le actualValue expectedValue)
      else ret (le expectedValue actualValue)
  | None =>
      match exec RE_settingName condition with
      | Some simpleBoolMatch =>
          let settingKey := group_text 1 simpleBoolMatch in
          settingValue <- getSettingValue settingKey ;;
          ret (negb (strict_eq settingValue (VBool false))
               && negb (strict_eq settingValue VUndef)
               && negb (strict_eq settingValue VNull)
               && negb (strict_eq settingValue (VStr "")))
      | None => ret false
      end
  end.

(** ** [processConditionalBlocks] *)

(** [s.replace(r, f)] for a [g] pattern and a replacer [f] with effects: the
    matches are found first, then [f] runs on each in order. *)
Definition replace_fnM {S : Type} (r : regexp) (s : string) (f : rmatch -> M S string)
  : M S string :=
  let ms := matches r s in
  ts <- mapM f ms ;;
  ret (splice 0 (chars s) (combine ms ts)).

(** [/{%\s*if\s+([\s\S]*?)%}([\s\S]*?){%\s*endif\s*%}/gi] *)
Definition RE_ifRegex : regexp :=
  RegExp (seqs [lit "{%"; ws; lit "if"; ws1; Group 1 (Star false anything); lit "%}";
                Group 2 (Star false anything); lit "{%"; ws; lit "endif"; ws; lit "%}"])
    true 2.

(** [/{%\s*elsif\s+([\s\S]*?)%}([\s\S]*?)(?={%\s*(?:elsif|else|endif))/gi] *)
Definition RE_elsifRegex : regexp :=
  RegExp (seqs [lit "{%"; ws; lit "elsif"; ws1; Group 1 (Star false anything); lit "%}";
                Group 2 (Star false anything);
                Ahead (seqs [lit "{%"; ws; alts [lit "elsif"; lit "else"; lit "endif"]])])
    true 2.

(** [/{%\s*elsif/], [/{%\s*else\s*%}/] and [/{%\s*else\s*%}(G)$/], where the
    group G is [[\s\S]*]. *)
Definition RE_firstElsif : regexp :=
  RegExp (seqs [lit "{%"; ws; lit "elsif"]) false 0.
Definition RE_firstElse : regexp :=
  RegExp (seqs [lit "{%"; ws; lit "else"; ws; lit "%}"]) false 0.
Definition RE_elseBranch : regexp :=
  RegExp (seqs [lit "{%"; ws; lit "else"; ws; lit "%}"; Group 1 (Star true anything); Eol])
    false 1.

(** One of the objects [{ condition, content }] of [parts]; the condition
    of an [else] branch is [null]. *)
Record part : Type := Part { condition : option string; content : string }.

(** [for (const part of parts)]: the content of the first branch that
    matches, the empty text when none does. *)
Fixpoint first_matching (parts : list part) : M resolver string :=
  match parts with
  | [] => ret ""
  | part :: parts' =>
      match condition part with
      | None => ret (content part)
      | Some c =>
          ok <- evaluateCondition c ;;
          if ok then ret (content part) else first_matching parts'
      end
  end.

(** [Math.min(a, b)] where [None] stands for [Infinity]. *)
Definition min_index (a b : option nat) : option nat :=
  match a, b with
  | Some x, Some y => Some (Nat.min x y)
  | Some x, None | None, Some x => Some x
  | None, None => None
  end.

Definition conditional_branches (condition blockContent : string) : list part :=
  let currentContent := blockContent in
  let firstElsifMatch := exec RE_firstElsif currentContent in
  let firstElseMatch := exec RE_firstElse currentContent in
  let firstEnd := min_index (option_map m_index firstElsifMatch)
                            (option_map m_index firstElseMatch) in
  let first :=
    Part (Some condition)
      (substring 0 (default (String.length currentContent) firstEnd) currentContent) in
  let elsifs :=
    map (fun elsifMatch => Part (Some (trim (group_text 1 elsifMatch))) (group_text 2 elsifMatch))
      (matches RE_elsifRegex blockContent) in
  let else_ :=
    match exec RE_elseBranch blockContent with
    | Some elseMatch => [Part None (group_text 1 elseMatch)]
    | None => []
    end in
  first :: elsifs ++ else_.

Definition processConditionalBlocks (text : string) : M resolver string :=
  replace_fnM RE_ifRegex text
    (fun m => first_matching (conditional_branches (group_text 1 m) (group_text 2 m))).

(** ** [liquidToCSS] *)

(** [new RegExp(`\\{\\{\\s*${schemeVar}\\.id\\s*\\}\\}`, 'g')]; [schemeVar]
    is a run of word characters. *)
Definition RE_schemeId (schemeVar : string) : regexp :=
  RegExp (seqs [lit "{{"; ws; lit schemeVar; lit ".id"; ws; lit "}}"]) false 0.

(** [/\{\{\s*forloop\.index\s*\}\}/g] *)
Definition RE_forloopIndex : regexp :=
  RegExp (seqs [lit "{{"; ws; lit "forloop.index"; ws; lit "}}"]) false 0.

(** [/{%\s*if\s+forloop\.index\s*==\s*1\s*%}([\s\S]*?){%\s*endif\s*%}/gi] *)
Definition RE_firstIterationGuard : regexp :=
  RegExp (seqs [lit "{%"; ws; lit "if"; ws1; lit "forloop.index"; ws; lit "=="; ws; Chr "1";
                ws; lit "%}"; Group 1 (Star false anything);
                lit "{%"; ws; lit "endif"; ws; lit "%}"]) true 1.

(** [/{%\s*if\s+forloop\.index\s*[^%]+%}[\s\S]*?{%\s*endif\s*%}/gi] *)
Definition RE_otherIterationGuard : regexp :=
  RegExp (seqs [lit "{%"; ws; lit "if"; ws1; lit "forloop.index"; ws; Plus true (none_of "%");
                lit "%}"; Star false anything; lit "{%"; ws; lit "endif"; ws; lit "%}"])
    true 0.

(** The replacer of step 1: one iteration of the scheme loop. *)
Definition firstSchemeIteration (st : resolver) (schemeVar loopContent : string) : string :=
  let firstIteration := loopContent in
  let firstScheme := getFirstColorScheme st in
  let schemeId :=
    if truthy firstScheme
    then default "undefined" (keys_first (get_prop (shopifySettings st) "color_schemes"))
    else "scheme-1" in
  let firstIteration := replace (RE_schemeId schemeVar) firstIteration schemeId in
  let firstIteration := replace RE_forloopIndex firstIteration "1" in
  let firstIteration := replace RE_firstIterationGuard firstIteration "$1" in
  let firstIteration := replace RE_otherIterationGuard firstIteration "" in
  firstIteration.

(** The replacer of steps 5 and 6, for the prefix [scheme.settings.] or
    [settings.] of the reference. *)
Definition substituteSetting (prefix : string) (m : rmatch) : M resolver string :=
  let settingPath := group_text 1 m in
  let appendValue := group 2 m in
  let reference := "{{ " ++ prefix ++ settingPath ++ " }}" in
  resolved <- resolveLiquidVariable reference ;;
  match appendValue with
  | Some appendValue =>
      if negb (String.eqb appendValue "") && negb (String.eqb resolved reference)
      then ret (resolved ++ appendValue)
      else ret resolved
  | None => ret resolved
  end.

(** The function is listed step by step, with the numbers of its comments
    (Step 0 to Step 8). *)
Definition liquidToCSS_step0 (text : string) : M resolver string :=
  replace_fnM REGEX_liquidBlock text (fun m => executeLiquidBlock (group_text 1 m)).

Definition liquidToCSS_step1 (text : string) : M resolver string :=
  st <- gets id ;;
  ret (replace_fn REGEX_forScheme text
         (fun m => firstSchemeIteration st (group_text 1 m) (group_text 2 m))).

Definition liquidToCSS_step2 (text : string) : string := replace REGEX_assign text "".

Definition liquidToCSS_step3 (text : string) : M resolver string :=
  processConditionalBlocks text.

Definition liquidToCSS_step4 (text : string) : string :=
  replace_fn REGEX_ifBlock text (fun m => group_text 1 m).

Definition liquidToCSS_step5 (text : string) : M resolver string :=
  replace_fnM REGEX_schemeSettings text (substituteSetting "scheme.settings.").

Definition liquidToCSS_step6 (text : string) : M resolver string :=
  replace_fnM REGEX_settings text (substituteSetting "settings.").

Definition liquidToCSS_step7 (text : string) : string := replace REGEX_variable text "0.15".

Definition liquidToCSS_step8 (text : string) : string :=
  replace REGEX_liquidOutput (replace REGEX_liquidTags text "") "".

Definition liquidToCSS (text : string) : M resolver string :=
  text <- liquidToCSS_step0 text ;;
  text <- liquidToCSS_step1 text ;;
  let text := liquidToCSS_step2 text in
  text <- liquidToCSS_step3 text ;;
  let text := liquidToCSS_step4 text in
  text <- liquidToCSS_step5 text ;;
  text <- liquidToCSS_step6 text ;;
  let text := liquidToCSS_step7 text in
  ret (liquidToCSS_step8 text).

(** ** [parseVariablesInBlock], [parseMediaBlocks], [parseRootBlocks] *)

(** [cssVariables.set(name, e)] *)
Definition registry_set (name : string) (e : entry) : M state unit :=
  modify (fun s => set_cssVariables (<[name := e]> (cssVariables s)) s).

(** [mediaQuery ? ... : ...]: [null] and the empty text are falsy. *)
Definition query_given (mediaQuery : option string) : option string :=
  match mediaQuery with
  | Some q => if String.eqb q "" then None else Some q
  | None => None
  end.

(** The body of the [while] loop of [parseVariablesInBlock] for one match. *)
Definition recordVariable (filePath : string) (mediaQuery : option string) (varMatch : rmatch)
  : M state unit :=
  let varName := "--" ++ group_text 1 varMatch in
  let varValue := trim (group_text 2 varMatch) in
  registry <- gets cssVariables ;;
  match registry !! varName with
  | None =>
      registry_set varName
        (Entry varValue (basename filePath) filePath
           (Some match query_given mediaQuery with
                 | Some q => [Variant q varValue]
                 | None => []
                 end))
  | Some varData =>
      match query_given mediaQuery with
      | Some q =>
          match e_media varData with
          | Some variants =>
              registry_set varName
                (Entry (e_value varData) (e_file varData) (e_filePath varData)
                   (Some (variants ++ [Variant q varValue])%list))
          | None => throw (TypeError "Cannot read properties of undefined (reading 'push')")
          end
      | None => ret tt
      end
  end.

Definition parseVariablesInBlock (content filePath : string) (mediaQuery : option string)
  : M state unit :=
  foldM (fun _ varMatch => recordVariable filePath mediaQuery varMatch)
    (matches REGEX_cssVariable content) tt.

(** The body of the [while] loop of [parseMediaBlocks] for one match. *)
Definition parseMediaBlock (content filePath : string) (mediaMatch : rmatch) : M state unit :=
  let mediaQuery := trim (group_text 1 mediaMatch) in
  let startPos := m_index mediaMatch + String.length (m_text mediaMatch) in
  match findMatchingBrace content startPos with
  | None => ret tt
  | Some endPos =>
      let mediaContent := substring startPos (endPos - 1) content in
      parseVariablesInBlock mediaContent filePath (Some mediaQuery)
  end.

Definition parseMediaBlocks (content filePath : string) : M state unit :=
  foldM (fun _ mediaMatch => parseMediaBlock content filePath mediaMatch)
    (matches REGEX_mediaQuery content) tt.

(** The body of the [while] loop of [parseRootBlocks] for one match. *)
Definition parseRootBlock (text filePath : string) (rootStartMatch : rmatch) : M state unit :=
  let startPos := m_index rootStartMatch + String.length (m_text rootStartMatch) in
  match findMatchingBrace text startPos with
  | None => ret tt
  | Some endPos =>
      let rootContent := substring startPos (endPos - 1) text in
      parseVariablesInBlock rootContent filePath None ;;;
      parseMediaBlocks rootContent filePath
  end.

(** The loop [while ((m = REGEX.rootBlock.exec(text)) !== null)].  The
    source names the reset of [lastIndex] inside a comment only, so the
    loop is entered with the index that the previous call has left: 0 when
    that call ran to its end (the [exec] that finds no further match
    resets the index), and the end of the match whose region was being
    processed when that call was left by an exception.  Each [exec] moves
    the index to the end of its match before the region is processed. *)
Definition parseRootBlocks (text filePath : string) : M state unit :=
  lastIndex <- gets rootBlockLastIndex ;;
  foldM (fun _ rootStartMatch =>
           modify (set_rootBlockLastIndex (m_end rootStartMatch)) ;;;
           parseRootBlock text filePath rootStartMatch)
    (matches_at REGEX_rootBlock lastIndex text) tt ;;;
  modify (set_rootBlockLastIndex 0).

(** ** [parseLiquidEchoVariables] *)

(** [/echo\s+['DQ]([^'DQ]*--[\w-]+\s*:[^'DQ]+)['DQ]/g] *)
Definition RE_echo : regexp :=
  RegExp (seqs [lit "echo"; ws1; quote;
                Group 1 (seqs [Star true not_quote; lit "--"; Plus true word_dash; ws; Chr ":";
                               Plus true not_quote]);
                quote]) false 1.

(** [/--([\w-]+)\s*:\s*([^;]+)/g] *)
Definition RE_echoVariable : regexp :=
  RegExp (seqs [lit "--"; Group 1 (Plus true word_dash); ws; Chr ":"; ws;
                Group 2 (Plus true (none_of ";"))]) false 2.

(** [/\[[\w-]+\]/g] *)
Definition RE_interpolation : regexp :=
  RegExp (seqs [Chr "["; Plus true word_dash; Chr "]"]) false 0.

Definition recordEchoVariable (filePath : string) (varMatch : rmatch) : M state unit :=
  let varName := "--" ++ group_text 1 varMatch in
  let varValue := trim (group_text 2 varMatch) in
  let varValue := replace RE_interpolation varValue "..." in
  registry <- gets cssVariables ;;
  match registry !! varName with
  | None => registry_set varName (Entry varValue (basename filePath) filePath None)
  | Some _ => ret tt
  end.

Definition parseLiquidEchoVariables (text filePath : string) : M state unit :=
  foldM (fun _ echoMatch =>
           let echoContent := group_text 1 echoMatch in
           foldM (fun _ varMatch => recordEchoVariable filePath varMatch)
             (matches RE_echoVariable echoContent) tt)
    (matches RE_echo text) tt.

(** ** [parseClassBlocks] *)

(** [/\.[\w-]+\s*\{/gi] *)
Definition RE_classStart : regexp :=
  RegExp (seqs [Chr "."; Plus true word_dash; ws; Chr "{"]) true 0.

Definition recordClassVariable (filePath : string) (varMatch : rmatch) : M state unit :=
  let varName := "--" ++ group_text 1 varMatch in
  let varValue := trim (group_text 2 varMatch) in
  registry <- gets cssVariables ;;
  match registry !! varName with
  | None => registry_set varName (Entry varValue (basename filePath) filePath (Some []))
  | Some _ => ret tt
  end.

Definition parseClassBlock (text filePath : string) (classStartMatch : rmatch) : M state unit :=
  let startPos := m_index classStartMatch + String.length (m_text classStartMatch) in
  match findMatchingBrace text startPos with
  | None => ret tt
  | Some endPos =>
      let classContent := substring startPos (endPos - 1) text in
      let lines := split classContent LF in
      foldM (fun _ line =>
               if startsWith (trim line) "/*" || startsWith (trim line) "@media" then ret tt
               else foldM (fun _ varMatch => recordClassVariable filePath varMatch)
                      (matches REGEX_cssVariable line) tt)
        lines tt
  end.

Definition parseClassBlocks (text filePath : string) : M state unit :=
  foldM (fun _ classStartMatch => parseClassBlock text filePath classStartMatch)
    (matches RE_classStart text) tt.

(** ** [parseCssVariables] *)

(** [/{%\s*style\s*%}([\s\S]*?){%\s*endstyle\s*%}/gi] *)
Definition RE_liquidStyle : regexp :=
  RegExp (seqs [lit "{%"; ws; lit "style"; ws; lit "%}"; Group 1 (Star false anything);
                lit "{%"; ws; lit "endstyle"; ws; lit "%}"]) true 1.

(** [/{%\s*stylesheet\s*%}([\s\S]*?){%\s*endstylesheet\s*%}/gi] *)
Definition RE_liquidSheet : regexp :=
  RegExp (seqs [lit "{%"; ws; lit "stylesheet"; ws; lit "%}"; Group 1 (Star false anything);
                lit "{%"; ws; lit "endstylesheet"; ws; lit "%}"]) true 1.

(** [/<style[^>]*>([\s\S]*?)<\/style>/gi] *)
Definition RE_htmlStyle : regexp :=
  RegExp (seqs [lit "<style"; Star true (none_of ">"); Chr ">"; Group 1 (Star false anything);
                lit "</style>"]) true 1.

(** One of the objects [{ type, content, start }] of [styleBlocks]. *)
Record styleBlock : Type := StyleBlock { type_ : string; block_content : string; start : nat }.

(** The blocks one pattern finds, those without [:root] left out. *)
Definition blocks_of (r : regexp) (type : string) (text : string) : list styleBlock :=
  omap (fun m => if includes (group_text 1 m) ":root"
                  then Some (StyleBlock type (group_text 1 m) (m_index m))
                  else None)
       (matches r text).

(** [styleBlocks.sort((a, b) => a.start - b.start)], a stable sort. *)
Fixpoint insert_block (x : styleBlock) (l : list styleBlock) : list styleBlock :=
  match l with
  | [] => [x]
  | y :: l' => if (start y <? start x)%nat then y :: insert_block x l' else x :: l
  end.

Definition sort_blocks (l : list styleBlock) : list styleBlock :=
  fold_right insert_block [] l.

(** The body of the loop over [styleBlocks]. *)
Definition processStyleBlock (config : config) (filePath : string) (block : styleBlock)
  : M state unit :=
  cleanCSS <- lift (liquidToCSS (block_content block)) ;;
  if negb (includes cleanCSS ":root") then ret tt
  else
    parseLiquidEchoVariables cleanCSS filePath ;;;
    parseRootBlocks cleanCSS filePath ;;;
    if negb (onlyRoot config) then parseClassBlocks cleanCSS filePath else ret tt.

Definition parseCssVariables (text filePath : string) : M state unit :=
  if String.eqb text "" || (String.length text <? 50)%nat || negb (includes text ":root")
  then ret tt
  else
    config <- getExtensionConfig ;;
    let styleBlocks :=
      (blocks_of RE_liquidStyle "{% style %}" text
         ++ blocks_of RE_liquidSheet "{% stylesheet %}" text
         ++ blocks_of RE_htmlStyle "<style>" text)%list in
    match styleBlocks with
    | [] => ret tt
    | _ =>
        foldM (fun _ block => processStyleBlock config filePath block)
          (sort_blocks styleBlocks) tt
    end.

(** ** [scanLiquidFiles] *)

(** What a scan receives from outside: the values [loadShopifySettings] and
    [loadShopifySettingsSchema] return, whether the workspace has folders,
    and the files found, as path and text, in the order their reads
    complete. *)
Record workspace : Type := Workspace {
  loadedSettings : value;
  loadedSchema : value;
  hasFolders : bool;
  liquidFiles : list (string * string)
}.

(** The first statements of [scanLiquidFiles]: both clears and the two
    loads, taken as one step (the source awaits the loads after the
    clears). *)
Definition scanLiquidFiles_begin (w : workspace) : M state unit :=
  modify (fun s =>
    set_res (set_settings (loadedSettings w) (loadedSchema w)
               (set_settingValueCache ∅ (res s)))
            (set_cssVariables ∅ s)).

(** The handler of one file read: a failure of [parseCssVariables] is
    caught and logged, and the scan goes on. *)
Definition scanFile (f : string * string) : M state unit :=
  let '(fsPath, text) := f in
  if includes text ":root" then
    fun s => match parseCssVariables text fsPath s with
             | (Ok _, s') => (Ok tt, s')
             | (Throw _, s') => (Ok tt, s')
             end
  else ret tt.

(** The number of variables found.  A scan is taken as a whole: what other
    handlers of the extension do while the scan awaits its loads and reads
    is not represented. *)
Definition scanLiquidFiles (w : workspace) : M state nat :=
  scanLiquidFiles_begin w ;;;
  if negb (hasFolders w) then ret O
  else
    config <- getExtensionConfig ;;
    foldM (fun _ f => scanFile f) (liquidFiles w) tt ;;;
    registry <- gets cssVariables ;;
    ret (size registry).

End WithHost.

(** ** A host for the examples *)

(** The defaults [getExtensionConfig] passes to [config.get]. *)
Definition defaultConfiguration : config :=
  Config ["**/*.liquid"; "**/snippets/theme-styles-*.liquid"; "**/snippets/color-schemes.liquid"]
         ["**/node_modules/**"] true sixteen true.

(** [path.posix.basename]: what follows the last [/], trailing ones aside. *)
Fixpoint drop_slashes (l : list ascii) : list ascii :=
  match l with
  | c :: l' => if Ascii.eqb c "/" then drop_slashes l' else l
  | [] => []
  end.

Fixpoint take_segment (l : list ascii) : list ascii :=
  match l with
  | c :: l' => if Ascii.eqb c "/" then [] else c :: take_segment l'
  | [] => []
  end.

Definition posix_basename (p : string) : string :=
  of_chars (rev (take_segment (drop_slashes (rev (chars p))))).

(** Code-unit order, standing in for the collation of the platform. *)
Definition codeunit_compare (x y : string) : comparison :=
  if string_ltb (chars x) (chars y) then Lt
  else if string_ltb (chars y) (chars x) then Gt
  else Eq.

(** A POSIX host with the default configuration. *)
Definition posix_host : Host :=
  Build_Host codeunit_compare posix_basename defaultConfiguration.

(** The state of a freshly activated extension, before any settings are
    loaded. *)
Definition initial_resolver : resolver := Resolver VNull VNull ∅ ∅.
Definition initial_state : state := State ∅ None initial_resolver 0.

End Extension.

(* ====================================================================== *)
(** * Part VI: the vocabulary of the properties                            *)
(* ====================================================================== *)

Import JsString JsValue Regex Extension.

(** ** The registry *)

(** [m'] still has every name of [m], with its base value and its source
    file: entries are only added, or given more media variants. *)
Definition keeps_base (m m' : gmap string entry) : Prop :=
  forall name e, m !! name = Some e ->
    exists e', m' !! name = Some e'
      /\ e_value e' = e_value e /\ e_file e' = e_file e /\ e_filePath e' = e_filePath e.

(** Every entry has its [media] list, as the entries made by the root and
    class scans do. *)
Definition has_media_lists (m : gmap string entry) : Prop :=
  forall name e, m !! name = Some e -> e_media e <> None.

(** The match [m] of [REGEX.cssVariable] declares the property [name]. *)
Definition declares (name : string) (m : rmatch) : bool :=
  String.eqb ("--" ++ group_text 1 m) name.

(** The media variants that the declarations [ms], met under the query [q],
    add to an entry of [name] that exists already. *)
Definition variants_of (name : string) (q : string) (ms : list rmatch) : list variant :=
  map (fun m => Variant q (trim (group_text 2 m))) (List.filter (declares name) ms).

(** The media blocks of a region, as [parseMediaBlocks] walks them: the
    trimmed query and the text between the braces, for each match of
    [REGEX.mediaQuery] whose closing brace is found. *)
Definition media_blocks (content : string) : list (string * string) :=
  omap (fun mediaMatch =>
          let startPos := m_index mediaMatch + String.length (m_text mediaMatch) in
          match findMatchingBrace content startPos with
          | Some endPos =>
              Some (trim (group_text 1 mediaMatch), substring startPos (endPos - 1) content)
          | None => None
          end)
       (matches REGEX_mediaQuery content).

(** The variants the media blocks [blocks] add for [name]; a block whose
    query text is empty adds none. *)
Definition media_variants_of (name : string) (blocks : list (string * string))
  : list variant :=
  flat_map (fun b => if String.eqb (fst b) "" then []
                     else variants_of name (fst b) (matches REGEX_cssVariable (snd b)))
           blocks.

(** [c] leaves the registry with all it had: see [keeps_base]. *)
Definition registry_keeps {A : Type} (c : M state A) : Prop :=
  forall s, keeps_base (cssVariables s) (cssVariables (snd (c s))).

(** ** The caches *)

(** Every memoized setting is the value that a lookup in the settings now
    loaded gives: the cache holds nothing stale. *)
Definition settings_fresh (r : resolver) : Prop :=
  forall key v, settingValueCache r !! key = Some v ->
    v = lookupSetting (shopifySettings r) (shopifySettingsSchema r) key.

Definition same_settings (r r' : resolver) : Prop :=
  shopifySettings r' = shopifySettings r
  /\ shopifySettingsSchema r' = shopifySettingsSchema r.

(** [c] keeps the settings cache fresh and does not replace the settings. *)
Definition serves_fresh {A : Type} (c : M resolver A) : Prop :=
  forall r, settings_fresh r -> settings_fresh (snd (c r)) /\ same_settings r (snd (c r)).

(** The same, for a computation on the whole state. *)
Definition scan_fresh {A : Type} (c : M state A) : Prop :=
  forall s, settings_fresh (res s) ->
    settings_fresh (res (snd (c s))) /\ same_settings (res s) (res (snd (c s))).

(** ** Hex colors *)

(** All 256 code units. *)
Definition all_ascii : list ascii := map ascii_of_nat (seq 0 256).

Definition hex_digit (c : ascii) : bool :=
  match hex_val c with Some _ => true | None => false end.

Definition hex_value (c : ascii) : Z := default 0%Z (hex_val c).

(** The byte that two hex digits denote, as a number. *)
Definition hex_byte (c1 c2 : ascii) : number := of_Z (16 * hex_value c1 + hex_value c2).

(** The same representation of the same number. *)
Definition number_same (x y : number) : bool :=
  match x, y with
  | S754_zero s, S754_zero s' | S754_infinity s, S754_infinity s' => Bool.eqb s s'
  | S754_nan, S754_nan => true
  | S754_finite s m e, S754_finite s' m' e' => Bool.eqb s s' && Pos.eqb m m' && Z.eqb e e'
  | _, _ => false
  end.

(** The 22 hex digits. *)
Definition hex_digits : list ascii := chars "0123456789abcdefABCDEF".

(** [parseInt] of the digits [c1] and [c2] in radix 16 reads the byte. *)
Definition hex_pair_read (c1 c2 : ascii) : bool :=
  number_same (parseInt_string (String c1 (String c2 EmptyString)) true) (hex_byte c1 c2).

(** ** Positions of the matcher *)

(** From position [i], where the input left is [s], the matcher reaches
    position [j], where the input left is [s']. *)
Definition reaches (i : nat) (s : list ascii) (j : nat) (s' : list ascii) : Prop :=
  i <= j /\ j - i <= List.length s /\ s' = skipn (j - i) s.

(** ** Quantified single characters *)

(** The patterns that match one code unit, and the code units they match. *)
Definition is_atom (a : re) : bool :=
  match a with
  | Chr _ | Any | Cls _ _ => true
  | _ => false
  end.

Definition accepts (icase : bool) (a : re) (x : ascii) : bool :=
  match a with
  | Chr c => chr_eq icase c x
  | Any => negb (is_line_terminator x)
  | Cls neg items => xorb neg (set_has icase items x)
  | _ => false
  end.

(** What follows is tried after the longest run of code units satisfying
    [p] first, then after shorter and shorter ones. *)
Fixpoint greedy_span {A : Type} (p : ascii -> bool) (i : nat) (s : list ascii)
    (k : nat -> list ascii -> option A) : option A :=
  match s with
  | x :: s' =>
      if p x then
        match greedy_span p (S i) s' k with
        | Some r => Some r
        | None => k i s
        end
      else k i s
  | [] => k i s
  end.

(** What follows is tried after no code unit first, then after longer and
    longer runs of code units satisfying [p]. *)
Fixpoint lazy_span {A : Type} (p : ascii -> bool) (i : nat) (s : list ascii)
    (k : nat -> list ascii -> option A) : option A :=
  match k i s with
  | Some r => Some r
  | None =>
      match s with
      | x :: s' => if p x then lazy_span p (S i) s' k else None
      | [] => None
      end
  end.

(** ** Trailing zeros *)

(** One zero or more, and nothing else. *)
Definition zeros (s : list ascii) : bool :=
  match s with
  | [] => false
  | _ :: _ => forallb (Ascii.eqb "0") s
  end.

(** Zeros after at most one decimal point. *)
Definition zeros_tail (s : list ascii) : bool :=
  match s with
  | "."%char :: t => zeros t
  | _ => zeros s
  end.

(** The text without its trailing zeros and without the decimal point they
    leave at the end: the text up to the first place from which only
    zeros follow, after at most one decimal point. *)
Fixpoint strip_zeros_l (s : list ascii) : list ascii :=
  if zeros_tail s then []
  else
    match s with
    | [] => []
    | c :: s' => c :: strip_zeros_l s'
    end.

Definition strip_trailing_zeros (s : string) : string :=
  of_chars (strip_zeros_l (chars s)).

(** The text of a positive finite [x] cut after [f] decimals, the further
    decimals dropped: the integer part of [x * 10 ^ f] laid out as
    [toFixed] lays out its nearest integer. *)
Definition truncated_fixed (f : nat) (x : number) : string :=
  match to_ratio x with
  | Some (_, p, q) => fixed_text f (p * 10 ^ Z.of_nat f / q)
  | None => toFixed f x
  end.

(** ** Conditions *)

(** The comparison operators, in the order in which the pattern of
    [evaluateLiquidCondition] lists them. *)
Definition operators : list string := [">="; "<="; ">"; "<"; "=="].

(** The operator that a text starts with. *)
Definition operator_at (s : list ascii) : option string :=
  List.find (fun op => starts_with_l (chars op) s) operators.

(** The first occurrence of an operator in a text: what stands before it,
    the operator, what stands after it. *)
Fixpoint first_operator (s : list ascii) : option (list ascii * string * list ascii) :=
  match operator_at s with
  | Some op => Some ([], op, skipn (String.length op) s)
  | None =>
      match s with
      | [] => None
      | c :: s' =>
          match first_operator s' with
          | Some (l, op, r) => Some (c :: l, op, r)
          | None => None
          end
      end
  end.

(** The comparison of two values that an operator stands for: the ordering
    operators compare what [parseFloat] reads, [==] is loose equality. *)
Definition compare_values (op : string) (l r : value) : bool :=
  if String.eqb op ">=" then leb (parseFloat r) (parseFloat l)
  else if String.eqb op "<=" then leb (parseFloat l) (parseFloat r)
  else if String.eqb op ">" then ltb (parseFloat r) (parseFloat l)
  else if String.eqb op "<" then ltb (parseFloat l) (parseFloat r)
  else loose_eq l r.

(** The parts of the pattern [RE_comparison]: the operator, in the second
    group, and the right operand, in the third. *)
Definition operator_pattern : re :=
  Group 2 (alts [lit ">="; lit "<="; lit ">"; lit "<"; lit "=="]).

Definition right_pattern : re := Group 3 (Plus true Any).

(** A text without line terminators. *)
Definition one_line (s : list ascii) : bool :=
  forallb (fun c => negb (is_line_terminator c)) s.

(** A text without the white space at its end. *)
Fixpoint without_trailing_space (l : list ascii) : list ascii :=
  match l with
  | [] => []
  | c :: l' => if forallb is_space l then [] else c :: without_trailing_space l'
  end.

(** A text without the white space at its start, but for the last code
    unit of a text of white space only. *)
Fixpoint right_operand (r : list ascii) : list ascii :=
  match r with
  | [] => []
  | c :: r' =>
      if is_space c then
        match r' with
        | [] => [c]
        | _ :: _ => right_operand r'
        end
      else r
  end.

(** ** Braces *)

(** The opening and the closing braces of a text. *)
Definition opens (l : list ascii) : nat := count_occ ascii_dec l "{"%char.
Definition closes (l : list ascii) : nat := count_occ ascii_dec l "}"%char.

(** The code units from index [a] to index [b], the latter excluded. *)
Definition slice (a b : nat) (s : string) : list ascii :=
  firstn (b - a) (skipn a (chars s)).

(** ** Entries without a media list *)

(** The declaration [m] names an entry of the registry that has no media
    list, as the entries recorded from [echo] statements. *)
Definition lacks_media (registry : gmap string entry) (m : rmatch) : bool :=
  match registry !! ("--" ++ group_text 1 m) with
  | Some e => match e_media e with None => true | Some _ => false end
  | None => false
  end.

(** ** The literal prefix of a pattern *)

(** The text of a pattern made of literal characters only. *)
Fixpoint literal_of (r : re) : option (list ascii) :=
  match r with
  | Chr a => Some [a]
  | Seq a b =>
      match literal_of a, literal_of b with
      | Some x, Some y => Some (x ++ y)%list
      | _, _ => None
      end
  | _ => None
  end.

(** A literal text that every match of the pattern begins with. *)
Fixpoint prefix_of (r : re) : list ascii :=
  match r with
  | Chr a => [a]
  | Seq a b =>
      match literal_of a with
      | Some x => (x ++ prefix_of b)%list
      | None => prefix_of a
      end
  | Group _ a => prefix_of a
  | _ => []
  end.

(** The text [w] occurs in [s], letter case aside under [icase]. *)
Fixpoint occurs (icase : bool) (w s : list ascii) : bool :=
  starts_with_ci icase w s
  || match s with
     | [] => false
     | _ :: s' => occurs icase w s'
     end.

(** A character that has no other letter case. *)
Definition caseless (a : ascii) : bool :=
  forallb (fun x => Bool.eqb (chr_eq true a x) (Ascii.eqb a x)) all_ascii.

(** ** Straight lines of a block *)

(** A line of a [liquid] block that neither opens nor closes a comment and
    opens neither a [for] nor an [unless]. *)
Definition straight_line (line : string) : bool :=
  negb (String.eqb line "comment" || startsWith line "comment "
        || String.eqb line "endcomment"
        || startsWith line "for " || startsWith line "unless ").

(** The lines of a block as [executeLiquidBlock] reads them: trimmed, the
    empty ones left out. *)
Definition block_lines (liquidCode : string) : list string :=
  List.filter (fun l => negb (String.eqb l "")) (map trim (split liquidCode LF)).

(** ** Names *)

(** A name: one word character or more. *)
Definition is_name (v : string) : bool :=
  negb (String.eqb v "") && forallb is_word (chars v).

(** The members that every object inherits from [Object.prototype].  The
    values of the embedding carry their own properties only, so what is
    stated about a lookup by name leaves these names aside. *)
Definition inherited_names : list string :=
  ["constructor"; "hasOwnProperty"; "isPrototypeOf"; "propertyIsEnumerable";
   "toLocaleString"; "toString"; "valueOf"; "__defineGetter__"; "__defineSetter__";
   "__lookupGetter__"; "__lookupSetter__"; "__proto__"].

Definition inherited (name : string) : bool := existsb (String.eqb name) inherited_names.

(** An object with its own properties, or [null]: what the settings and
    the schema defaults are when they come from the files of a theme. *)
Definition is_record (v : value) : bool :=
  match v with VObj _ | VNull => true | _ => false end.

(** The reference [liquidToCSS] hands to [resolveLiquidVariable] for the
    setting [name]. *)
Definition setting_reference (name : string) : string := "{{ settings." ++ name ++ " }}".

(** A code unit that is no space, no quote and no pipe. *)
Definition plain (x : ascii) : bool :=
  negb (is_space x) && negb (Ascii.eqb x dquote) && negb (Ascii.eqb x "'")
  && negb (Ascii.eqb x "|").

(** ** The shape of the registry *)

(** What holds of every entry the scans record under [name]: the name
    begins with two dashes, the entry names the file of its path, and none
    of its media variants has an empty query. *)
Definition well_formed_entry `{Host} (name : string) (e : entry) : Prop :=
  startsWith name "--" = true
  /\ e_file e = basename (e_filePath e)
  /\ forall variants v, e_media e = Some variants -> In v variants -> v_query v <> "".

Definition well_formed `{Host} (m : gmap string entry) : Prop :=
  forall name e, m !! name = Some e -> well_formed_entry name e.

(** [c] keeps the registry well formed. *)
Definition keeps_well_formed `{Host} {A : Type} (c : M state A) : Prop :=
  forall s, well_formed (cssVariables s) -> well_formed (cssVariables (snd (c s))).

(** ** The inputs of the examples *)

(** Settings with one color scheme. *)
Definition example_settings : value :=
  VObj [("radius", VNum (of_Z 14));
        ("color_schemes",
         VObj [("scheme-1", VObj [("settings", VObj [("background", VStr "#ffffff")])])])].

Definition example_template : string :=
  "{% style %} :root { --color-background: {{ scheme.settings.background }}; --button-radius: {{ settings.radius }}px; } {% endstyle %}".

Definition example_workspace : workspace :=
  Workspace example_settings VNull true [("snippets/color-schemes.liquid", example_template)].

(** A registry that holds [--x] with the base value [1px]. *)
Definition x_entry : entry := Entry "1px" "base.liquid" "snippets/base.liquid" (Some []).
Definition x_recorded : state := State (<["--x" := x_entry]> ∅) None initial_resolver 0.

(** A registry that holds [--x] as an [echo] statement records it: the
    entry has no media list. *)
Definition x_echoed : state :=
  State (<["--x" := Entry "1px" "base.liquid" "snippets/base.liquid" None]> ∅) None
        initial_resolver 0.

(** A bare rule of 61 code units, outside any style block. *)
Definition bare_rule : string :=
  ":root { --x: 1px; } /* a rule that no style block encloses */".

(** The bindings in the first iteration of a [for] loop over [item]. *)
Definition first_iteration : bindings :=
  <["forloop" := VObj [("index", VNum (of_nat 1))]]> (<["item" := VStr "a"]> ∅).

(** Settings whose first color scheme holds three texts that are no hex
    colors: letters that are no hex digits, a sign among the digits, and
    two digits only. *)
Definition odd_colors : resolver :=
  Resolver
    (VObj [("color_schemes",
            VObj [("scheme-1",
                   VObj [("settings",
                          VObj [("background", VStr "#zzzzzz"); ("text", VStr "#ff-f00");
                                ("border", VStr "#12")])])])])
    VNull ∅ ∅.

(** Two files.  The style block of the first holds the text of an [echo]
    of [--x] and a root region that declares [--x] under a media query;
    the style block of the second holds one short root region. *)
Definition echo_then_media : string :=
  "{% style %}echo '--x: 1px;' :root{@media (min-width: 768px){--x:3px;}}{% endstyle %}".

Definition short_region : string :=
  "{% style %}:root{--w:1px;}{% endstyle %} <!-- nothing else in this file -->".

Definition two_files : workspace :=
  Workspace VNull VNull true
    [("snippets/a.liquid", echo_then_media); ("snippets/b.liquid", short_region)].

(** A resolver with the settings of the example loaded. *)
Definition example_resolver : resolver := Resolver example_settings VNull ∅ ∅.

(** A block of five lines: an [if] with an [else], one [echo] in each
    branch. *)
Definition if_else_block : string :=
  "if 1 > 2" ++ LF ++ "echo 'a'" ++ LF ++ "else" ++ LF ++ "echo 'b'" ++ LF ++ "endif".

(** The matches of [REGEX.cssVariable] in [ --x: 3px; ] and in
    [@media (min-width: 768px){--y:2px;}], and the match of
    [REGEX.rootBlock] in [:root{...}]. *)
Definition x_3px : rmatch := RMatch 1 10 "--x: 3px;" [Some "x"; Some "3px"].
Definition y_2px : rmatch := RMatch 26 34 "--y:2px;" [Some "y"; Some "2px"].
Definition root_start : rmatch := RMatch 0 6 ":root{" [].

(** A condition of two lines, [a] and [b > 5], and bindings that give [b]
    the number 7. *)
Definition two_line_condition : string := "a" ++ LF ++ "b > 5".
Definition b_is_7 : bindings := <["b" := VNum (of_Z 7)]> ∅.

(* ====================================================================== *)
(** * Part VII: properties                                                 *)
(* ====================================================================== *)

Section Properties.
Context `{Host}.
(** ** The early exit of [parseCssVariables] *)

(** C9.  A source text that is empty, shorter than 50 code units or without
    the substring [:root] makes [parseCssVariables] return at once: nothing
    is recorded and the whole state, the registry included, is left exactly
    as it was, whatever declarations the text contains. *)
Theorem parseCssVariables_quick_exit (text filePath : string) (s : state) :
  text = "" \/ (String.length text < 50)%nat \/ includes text ":root" = false ->
  parseCssVariables text filePath s = (Ok tt, s).
Proof.
  intros Hskip. unfold parseCssVariables.
  destruct Hskip as [-> | [Hshort | Hroot]].
  - reflexivity.
  - apply Nat.ltb_lt in Hshort. rewrite Hshort.
    rewrite orb_true_r. reflexivity.
  - rewrite Hroot. rewrite orb_true_r. reflexivity.
Qed.

(** ** Expressions that make the evaluator throw *)

(** C1.  The evaluator does raise: on the empty expression [parts] stays
    empty and [parts[0].startsWith] is a [TypeError]; on a bare [replace]
    filter [filterArg] is [undefined] and [filterArg.match] is a
    [TypeError].  Both hold for all bindings and in every state. *)
Theorem evaluateLiquidExpression_throws (variables : bindings) (st : resolver) :
  evaluateLiquidExpression "" variables st
    = (Throw (TypeError "Cannot read properties of undefined (reading 'startsWith')"), st)
  /\ evaluateLiquidExpression "x | replace" variables st
    = (Throw (TypeError "Cannot read properties of undefined (reading 'match')"), st).
Proof.
  split.
  - reflexivity.
  - vm_compute. reflexivity.
Qed.

(** ** The generic conditional of the transform *)

(** C2.  On [{% if x > 5 %}A{% else %}B{% endif %}] the transform returns
    [B] in every state: the reducer of step 3 takes every [if] block, finds
    no setting in the condition, and keeps the [else] branch, so that the
    optimistic step 4 has nothing left to resolve. *)
Theorem liquidToCSS_generic_if_else (st : resolver) :
  liquidToCSS "{% if x > 5 %}A{% else %}B{% endif %}" st = (Ok "B", st).
Proof.
  vm_compute. reflexivity.
Qed.



(** ** Loops in the monad *)

Lemma foldM_cons {S A B : Type} (f : B -> A -> M S B) (x : A) (l : list A) (b : B) (s : S) :
  foldM f (x :: l) b s
  = match f b x s with
    | (Ok b', s') => foldM f l b' s'
    | (Throw e, s') => (Throw e, s')
    end.
Proof. reflexivity. Qed.

(** A relation between the states before and after that every step of a
    loop establishes holds across the loop. *)
Lemma foldM_preserves {S A B : Type} (P : S -> S -> Prop) (f : B -> A -> M S B) :
  (forall s, P s s) ->
  (forall s1 s2 s3, P s1 s2 -> P s2 s3 -> P s1 s3) ->
  (forall b x s, P s (snd (f b x s))) ->
  forall l b s, P s (snd (foldM f l b s)).
Proof.
  intros Hrefl Htrans Hstep l.
  induction l as [|x l IH]; intros b s.
  - apply Hrefl.
  - rewrite foldM_cons. specialize (Hstep b x s).
    destruct (f b x s) as [[b'|e] s']; simpl in *.
    + eapply Htrans; [exact Hstep | apply IH].
    + exact Hstep.
Qed.

(** ** The registry only grows *)

Lemma keeps_base_refl (m : gmap string entry) : keeps_base m m.
Proof. intros name e He. exists e. auto. Qed.

Lemma keeps_base_trans (m1 m2 m3 : gmap string entry) :
  keeps_base m1 m2 -> keeps_base m2 m3 -> keeps_base m1 m3.
Proof.
  intros H12 H23 name e He.
  destruct (H12 name e He) as (e2 & He2 & Hv & Hf & Hp).
  destruct (H23 name e2 He2) as (e3 & He3 & Hv3 & Hf3 & Hp3).
  exists e3. repeat split; congruence.
Qed.

Lemma keeps_base_insert_new (m : gmap string entry) (name : string) (e : entry) :
  m !! name = None -> keeps_base m (<[name := e]> m).
Proof.
  intros Hnew other d Hd. exists d.
  rewrite lookup_insert_ne by congruence. auto.
Qed.

Lemma keeps_base_insert_same (m : gmap string entry) (name : string) (d : entry)
    (media : option (list variant)) :
  m !! name = Some d ->
  keeps_base m (<[name := Entry (e_value d) (e_file d) (e_filePath d) media]> m).
Proof.
  intros Hd other e He.
  destruct (decide (name = other)) as [->|Hne].
  - rewrite lookup_insert_eq. eexists. split; [reflexivity|].
    assert (e = d) by congruence. subst e. auto.
  - rewrite lookup_insert_ne by exact Hne. exists e. auto.
Qed.

Lemma recordVariable_keeps (filePath : string) (mediaQuery : option string) (m : rmatch) :
  registry_keeps (recordVariable filePath mediaQuery m).
Proof.
  intros s. unfold recordVariable, bind, gets, registry_set, modify, throw, ret. simpl.
  destruct (cssVariables s !! _) as [varData|] eqn:Hlook.
  - destruct (query_given mediaQuery) as [q|].
    + destruct (e_media varData) as [variants|]; simpl.
      * apply keeps_base_insert_same. exact Hlook.
      * apply keeps_base_refl.
    + apply keeps_base_refl.
  - simpl. apply keeps_base_insert_new. exact Hlook.
Qed.


Lemma registry_keeps_ret {A : Type} (a : A) : registry_keeps (ret a).
Proof. intros s. apply keeps_base_refl. Qed.

Lemma registry_keeps_bind {A B : Type} (c : M state A) (k : A -> M state B) :
  registry_keeps c -> (forall a, registry_keeps (k a)) -> registry_keeps (bind c k).
Proof.
  intros Hc Hk s. unfold bind. specialize (Hc s).
  destruct (c s) as [[a|e] s']; simpl in *.
  - eapply keeps_base_trans; [exact Hc | apply Hk].
  - exact Hc.
Qed.

Lemma registry_keeps_foldM {A B : Type} (f : B -> A -> M state B) (l : list A) (b : B) :
  (forall b x, registry_keeps (f b x)) -> registry_keeps (foldM f l b).
Proof.
  intros Hf s.
  apply (foldM_preserves (fun s s' => keeps_base (cssVariables s) (cssVariables s'))).
  - intros. apply keeps_base_refl.
  - intros. eapply keeps_base_trans; eauto.
  - intros. apply Hf.
Qed.

(** A computation on the resolver leaves the registry alone. *)
Lemma lift_registry {A : Type} (c : M resolver A) (s : state) :
  cssVariables (snd (lift c s)) = cssVariables s.
Proof. unfold lift. destruct (c (res s)). reflexivity. Qed.

Lemma registry_keeps_lift {A : Type} (c : M resolver A) : registry_keeps (lift c).
Proof. intros s. rewrite lift_registry. apply keeps_base_refl. Qed.

Lemma registry_keeps_getExtensionConfig : registry_keeps getExtensionConfig.
Proof.
  intros s. unfold getExtensionConfig.
  destruct (cachedConfig s); simpl; apply keeps_base_refl.
Qed.

Lemma parseVariablesInBlock_keeps (content filePath : string) (mediaQuery : option string) :
  registry_keeps (parseVariablesInBlock content filePath mediaQuery).
Proof.
  apply registry_keeps_foldM. intros. apply recordVariable_keeps.
Qed.

Lemma parseMediaBlocks_keeps (content filePath : string) :
  registry_keeps (parseMediaBlocks content filePath).
Proof.
  apply registry_keeps_foldM. intros _ mediaMatch. unfold parseMediaBlock.
  destruct (findMatchingBrace _ _).
  - apply parseVariablesInBlock_keeps.
  - apply registry_keeps_ret.
Qed.

(** What does not write the registry keeps it. *)
Lemma registry_keeps_frame {A : Type} (c : M state A) :
  (forall s, cssVariables (snd (c s)) = cssVariables s) -> registry_keeps c.
Proof. intros Hc s. rewrite Hc. apply keeps_base_refl. Qed.

Lemma parseRootBlock_keeps (text filePath : string) (rootStartMatch : rmatch) :
  registry_keeps (parseRootBlock text filePath rootStartMatch).
Proof.
  unfold parseRootBlock. destruct (findMatchingBrace _ _).
  - apply registry_keeps_bind.
    + apply parseVariablesInBlock_keeps.
    + intros _. apply parseMediaBlocks_keeps.
  - apply registry_keeps_ret.
Qed.

Lemma parseRootBlocks_keeps (text filePath : string) :
  registry_keeps (parseRootBlocks text filePath).
Proof.
  unfold parseRootBlocks.
  apply registry_keeps_bind; [apply registry_keeps_frame; reflexivity | intros lastIndex].
  apply registry_keeps_bind; [|intros _; apply registry_keeps_frame; reflexivity].
  apply registry_keeps_foldM. intros _ rootStartMatch.
  apply registry_keeps_bind; [apply registry_keeps_frame; reflexivity | intros _].
  apply parseRootBlock_keeps.
Qed.

Lemma record_if_new_keeps (name : string) (e : entry) :
  registry_keeps
    (registry <- gets cssVariables ;;
     match registry !! name with
     | None => registry_set name e
     | Some _ => ret tt
     end).
Proof.
  intros s. unfold bind, gets, registry_set, modify, ret. simpl.
  destruct (cssVariables s !! name) eqn:Hlook; simpl.
  - apply keeps_base_refl.
  - apply keeps_base_insert_new. exact Hlook.
Qed.

Lemma parseLiquidEchoVariables_keeps (text filePath : string) :
  registry_keeps (parseLiquidEchoVariables text filePath).
Proof.
  apply registry_keeps_foldM. intros _ echoMatch.
  apply registry_keeps_foldM. intros _ varMatch.
  apply record_if_new_keeps.
Qed.

Lemma parseClassBlocks_keeps (text filePath : string) :
  registry_keeps (parseClassBlocks text filePath).
Proof.
  apply registry_keeps_foldM. intros _ classStartMatch. unfold parseClassBlock.
  destruct (findMatchingBrace _ _).
  - apply registry_keeps_foldM. intros _ line.
    destruct (_ || _).
    + apply registry_keeps_ret.
    + apply registry_keeps_foldM. intros _ varMatch. apply record_if_new_keeps.
  - apply registry_keeps_ret.
Qed.

Lemma parseCssVariables_keeps (text filePath : string) :
  registry_keeps (parseCssVariables text filePath).
Proof.
  unfold parseCssVariables.
  destruct (_ || _); [apply registry_keeps_ret|].
  apply registry_keeps_bind; [apply registry_keeps_getExtensionConfig|].
  intros config.
  destruct (_ ++ _)%list; [apply registry_keeps_ret|].
  apply registry_keeps_foldM. intros _ block. unfold processStyleBlock.
  apply registry_keeps_bind; [apply registry_keeps_lift|].
  intros cleanCSS. destruct (negb _); [apply registry_keeps_ret|].
  apply registry_keeps_bind; [apply parseLiquidEchoVariables_keeps|]. intros _.
  apply registry_keeps_bind; [apply parseRootBlocks_keeps|]. intros _.
  destruct (negb _); [apply parseClassBlocks_keeps | apply registry_keeps_ret].
Qed.

Lemma scanFile_keeps (f : string * string) : registry_keeps (scanFile f).
Proof.
  destruct f as [fsPath text]. unfold scanFile.
  destruct (includes text ":root"); [|apply registry_keeps_ret].
  intros s. pose proof (parseCssVariables_keeps text fsPath s) as Hk.
  destruct (parseCssVariables text fsPath s) as [[[]|e] s']; exact Hk.
Qed.

(** A base declaration ([mediaQuery] is [null]) of a name that is recorded
    already changes nothing at all. *)
Lemma recordVariable_base_frame (filePath : string) (m : rmatch) (s : state)
    (name : string) (e : entry) :
  cssVariables s !! name = Some e ->
  cssVariables (snd (recordVariable filePath None m s)) !! name = Some e.
Proof.
  intros He. unfold recordVariable, bind, gets, registry_set, modify, ret. simpl.
  destruct (cssVariables s !! ("--" ++ group_text 1 m)) as [varData|] eqn:Hlook; simpl.
  - exact He.
  - rewrite lookup_insert_ne; [exact He|]. intros Heq. congruence.
Qed.

Lemma parseVariablesInBlock_base_frame (content filePath : string) (s : state)
    (name : string) (e : entry) :
  cssVariables s !! name = Some e ->
  cssVariables (snd (parseVariablesInBlock content filePath None s)) !! name = Some e.
Proof.
  unfold parseVariablesInBlock. revert s.
  generalize tt at 1.
  induction (matches REGEX_cssVariable content) as [|m ms IH]; intros u s He.
  - exact He.
  - rewrite foldM_cons.
    pose proof (recordVariable_base_frame filePath m s name e He) as Hstep.
    destruct (recordVariable filePath None m s) as [[[]|err] s']; simpl in *.
    + apply IH. exact Hstep.
    + exact Hstep.
Qed.

(** ** What a scan adds for one name *)

Lemma has_media_lists_insert (m : gmap string entry) (name : string) (e : entry) :
  has_media_lists m -> e_media e <> None -> has_media_lists (<[name := e]> m).
Proof.
  intros Hm He other d.
  destruct (decide (name = other)) as [->|Hne].
  - rewrite lookup_insert_eq. intros [= <-]. exact He.
  - rewrite lookup_insert_ne by exact Hne. apply Hm.
Qed.

(** One declaration met without a media query (or with an empty one): the
    loop body never throws, and an entry that exists is not touched. *)
Lemma recordVariable_base (filePath : string) (mediaQuery : option string) (m : rmatch)
    (s : state) :
  query_given mediaQuery = None ->
  fst (recordVariable filePath mediaQuery m s) = Ok tt
  /\ (has_media_lists (cssVariables s) ->
      has_media_lists (cssVariables (snd (recordVariable filePath mediaQuery m s))))
  /\ (forall name e, cssVariables s !! name = Some e ->
        cssVariables (snd (recordVariable filePath mediaQuery m s)) !! name = Some e)
  /\ (forall name, cssVariables s !! name = None ->
        cssVariables (snd (recordVariable filePath mediaQuery m s)) !! name
        = if declares name m
          then Some (Entry (trim (group_text 2 m)) (basename filePath) filePath (Some []))
          else None).
Proof.
  intros Hq. unfold recordVariable, declares.
  remember ("--" ++ group_text 1 m) as varName eqn:HvarName.
  unfold bind, gets, registry_set, modify, ret. simpl. rewrite Hq.
  destruct (cssVariables s !! varName) as [varData|] eqn:Hlook; simpl.
  - repeat split; auto.
    intros name Hname.
    destruct (String.eqb_spec varName name) as [->|Hne]; [congruence|].
    exact Hname.
  - repeat split.
    + intros Hm. apply has_media_lists_insert; [exact Hm | discriminate].
    + intros name e He. rewrite lookup_insert_ne; [exact He | congruence].
    + intros name Hname.
      destruct (String.eqb_spec varName name) as [->|Hne].
      * apply lookup_insert_eq.
      * rewrite lookup_insert_ne by exact Hne. exact Hname.
Qed.

(** A scan without a media query (or with an empty one) over the matches
    [ms]: it does not throw, it leaves the existing entries as they are, and
    a new name gets the value of its first declaration. *)
Lemma base_scan (filePath : string) (mediaQuery : option string) (ms : list rmatch) :
  query_given mediaQuery = None ->
  forall s,
    let result := foldM (fun _ m => recordVariable filePath mediaQuery m) ms tt s in
    fst result = Ok tt
    /\ (has_media_lists (cssVariables s) -> has_media_lists (cssVariables (snd result)))
    /\ (forall name e, cssVariables s !! name = Some e ->
          cssVariables (snd result) !! name = Some e)
    /\ (forall name, cssVariables s !! name = None ->
          cssVariables (snd result) !! name
          = match List.find (declares name) ms with
            | Some m0 =>
                Some (Entry (trim (group_text 2 m0)) (basename filePath) filePath (Some []))
            | None => None
            end).
Proof.
  intros Hq. induction ms as [|m ms IH]; intros s; simpl.
  - repeat split; auto.
  - destruct (recordVariable_base filePath mediaQuery m s Hq) as (Hok & Hmedia & Hold & Hnew).
    unfold bind.
    destruct (recordVariable filePath mediaQuery m s) as [[[]|err] s'] eqn:Hstep;
      simpl in Hok; [|discriminate].
    simpl in Hmedia, Hold, Hnew.
    destruct (IH s') as (Hok' & Hmedia' & Hold' & Hnew').
    repeat split.
    + exact Hok'.
    + intros Hm. apply Hmedia', Hmedia, Hm.
    + intros name e He. apply Hold', Hold, He.
    + intros name Hname. specialize (Hnew name Hname).
      destruct (declares name m).
      * apply Hold'. exact Hnew.
      * apply Hnew'. exact Hnew.
Qed.

(** One declaration met under a non-empty media query, in a registry whose
    entries all have their media list. *)
Lemma recordVariable_media (filePath q : string) (m : rmatch) (s : state) :
  q <> "" ->
  has_media_lists (cssVariables s) ->
  fst (recordVariable filePath (Some q) m s) = Ok tt
  /\ has_media_lists (cssVariables (snd (recordVariable filePath (Some q) m s)))
  /\ (forall name e variants,
        cssVariables s !! name = Some e -> e_media e = Some variants ->
        cssVariables (snd (recordVariable filePath (Some q) m s)) !! name
        = Some (Entry (e_value e) (e_file e) (e_filePath e)
                  (Some (variants ++ if declares name m
                                     then [Variant q (trim (group_text 2 m))] else [])%list))).
Proof.
  intros Hq Hm. unfold recordVariable, declares.
  remember ("--" ++ group_text 1 m) as varName eqn:HvarName.
  unfold bind, gets, registry_set, modify, ret, throw.
  simpl. apply String.eqb_neq in Hq. rewrite Hq.
  destruct (cssVariables s !! varName) as [varData|] eqn:Hlook; simpl.
  - destruct (e_media varData) as [vs|] eqn:Hvs; [|exfalso; exact (Hm _ _ Hlook Hvs)].
    simpl. repeat split.
    + apply has_media_lists_insert; [exact Hm | discriminate].
    + intros name e variants He Hvariants.
      destruct (String.eqb_spec varName name) as [->|Hne].
      * rewrite lookup_insert_eq. congruence.
      * rewrite lookup_insert_ne by exact Hne. rewrite He.
        rewrite app_nil_r. destruct e; simpl in *. congruence.
  - repeat split.
    + apply has_media_lists_insert; [exact Hm | discriminate].
    + intros name e variants He Hvariants.
      destruct (String.eqb_spec varName name) as [->|Hne]; [congruence|].
      rewrite lookup_insert_ne by exact Hne. rewrite He.
      rewrite app_nil_r. destruct e; simpl in *. congruence.
Qed.

(** A scan under a non-empty media query over the matches [ms]: an existing
    entry keeps its base value and file and gains one variant for each of
    its declarations in [ms]. *)
Lemma media_scan (filePath q : string) (ms : list rmatch) :
  q <> "" ->
  forall s,
    has_media_lists (cssVariables s) ->
    let result := foldM (fun _ m => recordVariable filePath (Some q) m) ms tt s in
    fst result = Ok tt
    /\ has_media_lists (cssVariables (snd result))
    /\ (forall name e variants,
          cssVariables s !! name = Some e -> e_media e = Some variants ->
          cssVariables (snd result) !! name
          = Some (Entry (e_value e) (e_file e) (e_filePath e)
                    (Some (variants ++ variants_of name q ms)%list))).
Proof.
  intros Hq. induction ms as [|m ms IH]; intros s Hm; simpl.
  - repeat split; auto.
    intros name e variants He Hvariants. unfold variants_of. simpl.
    rewrite app_nil_r. rewrite He. destruct e; simpl in *. congruence.
  - destruct (recordVariable_media filePath q m s Hq Hm) as (Hok & Hm' & Hentry).
    unfold bind.
    destruct (recordVariable filePath (Some q) m s) as [[[]|err] s'] eqn:Hstep;
      simpl in Hok; [|discriminate].
    simpl in Hm', Hentry.
    destruct (IH s' Hm') as (Hok' & Hm'' & Hentry').
    repeat split; [exact Hok' | exact Hm'' |].
    intros name e variants He Hvariants.
    rewrite (Hentry' name _ _ (Hentry name e variants He Hvariants) eq_refl). simpl.
    unfold variants_of. simpl. destruct (declares name m); simpl.
    + rewrite <- app_assoc. reflexivity.
    + rewrite app_nil_r. reflexivity.
Qed.


Lemma parseVariablesInBlock_base (content filePath : string) (mediaQuery : option string)
    (s : state) :
  query_given mediaQuery = None ->
  let result := parseVariablesInBlock content filePath mediaQuery s in
  fst result = Ok tt
  /\ (has_media_lists (cssVariables s) -> has_media_lists (cssVariables (snd result)))
  /\ (forall name e, cssVariables s !! name = Some e ->
        cssVariables (snd result) !! name = Some e)
  /\ (forall name, cssVariables s !! name = None ->
        cssVariables (snd result) !! name
        = match List.find (declares name) (matches REGEX_cssVariable content) with
          | Some m0 =>
              Some (Entry (trim (group_text 2 m0)) (basename filePath) filePath (Some []))
          | None => None
          end).
Proof. intros Hq. exact (base_scan filePath mediaQuery _ Hq s). Qed.

Lemma parseVariablesInBlock_media (content filePath q : string) (s : state) :
  q <> "" ->
  has_media_lists (cssVariables s) ->
  let result := parseVariablesInBlock content filePath (Some q) s in
  fst result = Ok tt
  /\ has_media_lists (cssVariables (snd result))
  /\ (forall name e variants,
        cssVariables s !! name = Some e -> e_media e = Some variants ->
        cssVariables (snd result) !! name
        = Some (Entry (e_value e) (e_file e) (e_filePath e)
                  (Some (variants
                         ++ variants_of name q (matches REGEX_cssVariable content))%list))).
Proof. intros Hq Hm. exact (media_scan filePath q _ Hq s Hm). Qed.

(** [parseMediaBlocks] scans the media blocks of the region in order, each
    under its query. *)
Lemma parseMediaBlocks_blocks (content filePath : string) (s : state) :
  parseMediaBlocks content filePath s
  = foldM (fun _ b => parseVariablesInBlock (snd b) filePath (Some (fst b)))
      (media_blocks content) tt s.
Proof.
  unfold parseMediaBlocks, media_blocks. revert s.
  induction (matches REGEX_mediaQuery content) as [|mediaMatch ms IH]; intros s.
  - reflexivity.
  - rewrite foldM_cons. unfold parseMediaBlock at 1. cbn [omap list_omap].
    destruct (findMatchingBrace content _) as [endPos|].
    + rewrite foldM_cons. cbn [fst snd].
      destruct (parseVariablesInBlock _ filePath _ s) as [[[]|err] s']; [apply IH|reflexivity].
    + unfold ret. apply IH.
Qed.

(** The media blocks of a region, for a name that is recorded already: no
    failure, and one more variant for each declaration of the name in a
    block with a non-empty query. *)
Lemma media_phase (filePath : string) (blocks : list (string * string)) :
  forall s,
    has_media_lists (cssVariables s) ->
    let result := foldM (fun _ b => parseVariablesInBlock (snd b) filePath (Some (fst b)))
                    blocks tt s in
    fst result = Ok tt
    /\ has_media_lists (cssVariables (snd result))
    /\ (forall name e variants,
          cssVariables s !! name = Some e -> e_media e = Some variants ->
          cssVariables (snd result) !! name
          = Some (Entry (e_value e) (e_file e) (e_filePath e)
                    (Some (variants ++ media_variants_of name blocks)%list))).
Proof.
  induction blocks as [|[q content] blocks IH]; intros s Hm.
  - simpl. repeat split; auto.
    intros name e variants He Hvariants. rewrite app_nil_r, He.
    destruct e; simpl in *. congruence.
  - cbv zeta. rewrite foldM_cons. cbn [fst snd].
    assert (Hcons : forall name,
              media_variants_of name ((q, content) :: blocks)
              = ((if String.eqb q "" then []
                  else variants_of name q (matches REGEX_cssVariable content))
                 ++ media_variants_of name blocks)%list) by reflexivity.
    destruct (String.eqb_spec q "") as [->|Hq].
    + destruct (parseVariablesInBlock_base content filePath (Some "") s eq_refl)
        as (Hok & Hmedia & Hold & _).
      destruct (parseVariablesInBlock content filePath (Some "") s) as [[[]|err] s'];
        simpl in Hok; [|discriminate].
      simpl in Hmedia, Hold.
      destruct (IH s' (Hmedia Hm)) as (Hok' & Hm' & Hentry').
      repeat split; [exact Hok' | exact Hm' |].
      intros name e variants He Hvariants. rewrite Hcons. simpl.
      apply Hentry'; [apply Hold; exact He | exact Hvariants].
    + destruct (parseVariablesInBlock_media content filePath q s Hq Hm)
        as (Hok & Hmedia & Hentry).
      destruct (parseVariablesInBlock content filePath (Some q) s) as [[[]|err] s'];
        simpl in Hok; [|discriminate].
      simpl in Hmedia, Hentry.
      destruct (IH s' Hmedia) as (Hok' & Hm' & Hentry').
      repeat split; [exact Hok' | exact Hm' |].
      intros name e variants He Hvariants.
      rewrite Hcons.
      rewrite (Hentry' name _ _ (Hentry name e variants He Hvariants) eq_refl). simpl.
      rewrite <- app_assoc. reflexivity.
Qed.

(** With [lastIndex] at 0 the loop of [parseRootBlocks] takes all the
    matches of [REGEX.rootBlock] in the text. *)
Lemma matches_at_start (r : regexp) (text : string) : matches_at r 0 text = matches r text.
Proof. unfold matches_at, matches. rewrite skipn_O. reflexivity. Qed.

(** What the processing of one root region leaves for a name that was not
    recorded: the entry of its first declaration in the region, whatever
    the media blocks of the region add or throw. *)
Lemma parseRootBlock_records (text filePath : string) (rootStartMatch : rmatch)
    (s : state) (name : string) (m0 : rmatch) (endPos : nat) :
  let startPos := m_index rootStartMatch + String.length (m_text rootStartMatch) in
  let rootContent := substring startPos (endPos - 1) text in
  findMatchingBrace text startPos = Some endPos ->
  cssVariables s !! name = None ->
  List.find (declares name) (matches REGEX_cssVariable rootContent) = Some m0 ->
  exists e',
    cssVariables (snd (parseRootBlock text filePath rootStartMatch s)) !! name = Some e'
    /\ e_value e' = trim (group_text 2 m0)
    /\ e_file e' = basename filePath
    /\ e_filePath e' = filePath.
Proof.
  intros startPos rootContent Hbrace Hnew Hfirst.
  unfold parseRootBlock. fold startPos. rewrite Hbrace. fold rootContent.
  unfold bind.
  destruct (parseVariablesInBlock_base rootContent filePath None s eq_refl)
    as (Hok & _ & _ & Hentry).
  specialize (Hentry name Hnew). rewrite Hfirst in Hentry.
  destruct (parseVariablesInBlock rootContent filePath None s) as [[[]|err] s'];
    simpl in Hok; [|discriminate].
  simpl in Hentry.
  exact (parseMediaBlocks_keeps rootContent filePath s' name _ Hentry).
Qed.

(** C5.  First write wins.  (1) A base scan ([parseVariablesInBlock]
    without a media query) never throws and records a name that the
    registry does not hold with the value of its first declaration in the
    text scanned, the file and an empty media list; a name that the
    registry holds keeps its entry exactly, so that [--x: 1px;] followed by
    [--x: 2px;] leaves [1px], also within one text.  (2) The processing of
    a root region records a new name with the value of its first
    declaration in the region.  (3) For a name that the registry holds:
    whatever text [parseVariablesInBlock] scans, under a media query or
    not, the name stays with its base value and its source file, and a
    later base scan leaves the entry exactly as it is.  (4) The same holds
    across the extraction of a whole file ([parseCssVariables]), across
    the handler of one file of a scan ([scanFile]) and across the handlers
    of all the files of a scan, in any order: the registry is append-only
    within a scan. *)
Theorem registry_first_write_wins (s : state) (name : string) :
  (forall content filePath,
     let result := parseVariablesInBlock content filePath None s in
     fst result = Ok tt
     /\ cssVariables (snd result) !! name
        = match cssVariables s !! name with
          | Some e => Some e
          | None =>
              match List.find (declares name) (matches REGEX_cssVariable content) with
              | Some m0 =>
                  Some (Entry (trim (group_text 2 m0)) (basename filePath) filePath (Some []))
              | None => None
              end
          end)
  /\ (forall text filePath rootStartMatch endPos m0,
        let startPos := m_index rootStartMatch + String.length (m_text rootStartMatch) in
        let rootContent := substring startPos (endPos - 1) text in
        findMatchingBrace text startPos = Some endPos ->
        cssVariables s !! name = None ->
        List.find (declares name) (matches REGEX_cssVariable rootContent) = Some m0 ->
        exists e',
          cssVariables (snd (parseRootBlock text filePath rootStartMatch s)) !! name = Some e'
          /\ e_value e' = trim (group_text 2 m0)
          /\ e_file e' = basename filePath
          /\ e_filePath e' = filePath)
  /\ (forall e,
        cssVariables s !! name = Some e ->
        (forall content filePath mediaQuery,
           exists e',
             cssVariables (snd (parseVariablesInBlock content filePath mediaQuery s)) !! name
               = Some e'
             /\ e_value e' = e_value e /\ e_file e' = e_file e
             /\ e_filePath e' = e_filePath e)
        /\ (forall content filePath,
              cssVariables (snd (parseVariablesInBlock content filePath None s)) !! name
              = Some e))
  /\ (forall text filePath,
        keeps_base (cssVariables s) (cssVariables (snd (parseCssVariables text filePath s))))
  /\ (forall f, keeps_base (cssVariables s) (cssVariables (snd (scanFile f s))))
  /\ (forall files,
        keeps_base (cssVariables s)
          (cssVariables (snd (foldM (fun _ f => scanFile f) files tt s)))).
Proof.
  split; [|split; [|split; [|split; [|split]]]].
  - intros content filePath result.
    destruct (parseVariablesInBlock_base content filePath None s eq_refl)
      as (Hok & _ & Hold & Hnew).
    split; [exact Hok|]. unfold result.
    destruct (cssVariables s !! name) as [e|] eqn:Hlook.
    + apply Hold. exact Hlook.
    + apply Hnew. exact Hlook.
  - intros text filePath rootStartMatch endPos m0.
    apply parseRootBlock_records.
  - intros e He. split.
    + intros content filePath mediaQuery.
      exact (parseVariablesInBlock_keeps content filePath mediaQuery s name e He).
    + intros content filePath. apply parseVariablesInBlock_base_frame. exact He.
  - intros text filePath. apply parseCssVariables_keeps.
  - intros f. apply scanFile_keeps.
  - intros files. apply registry_keeps_foldM. intros _ f. apply scanFile_keeps.
Qed.

(** C6 (as amended).  A name that the registry holds already, with its
    media list, and that is declared once in the text of an [@media] block
    whose query text [q] is not empty: processing the block
    ([parseVariablesInBlock] under [q]) succeeds, leaves the base value and
    the source file of the entry unchanged, and appends exactly the one
    variant that carries [q] and the value declared in the block. *)
Theorem media_declaration_appends_variant (content filePath q : string) (s : state)
    (name : string) (e : entry) (variants : list variant) (m0 : rmatch) :
  q <> "" ->
  has_media_lists (cssVariables s) ->
  cssVariables s !! name = Some e ->
  e_media e = Some variants ->
  List.filter (declares name) (matches REGEX_cssVariable content) = [m0] ->
  let result := parseVariablesInBlock content filePath (Some q) s in
  fst result = Ok tt
  /\ cssVariables (snd result) !! name
     = Some (Entry (e_value e) (e_file e) (e_filePath e)
               (Some (variants ++ [Variant q (trim (group_text 2 m0))])%list)).
Proof.
  intros Hq Hm He Hvariants Honce result.
  destruct (parseVariablesInBlock_media content filePath q s Hq Hm) as (Hok & _ & Hentry).
  split; [exact Hok|].
  unfold result. rewrite (Hentry name e variants He Hvariants).
  unfold variants_of. rewrite Honce. reflexivity.
Qed.

(** Entered with [lastIndex] at 0, the loop of [parseRootBlocks] processes
    every match of [REGEX.rootBlock] in the text, in order. *)
Lemma parseRootBlocks_from_start (text filePath : string) (s : state) :
  rootBlockLastIndex s = 0 ->
  parseRootBlocks text filePath s
  = (foldM (fun _ rootStartMatch =>
              modify (set_rootBlockLastIndex (m_end rootStartMatch)) ;;;
              parseRootBlock text filePath rootStartMatch)
       (matches REGEX_rootBlock text) tt ;;;
     modify (set_rootBlockLastIndex 0)) s.
Proof.
  intros Hstart. unfold parseRootBlocks. unfold bind at 1, gets. simpl.
  rewrite Hstart, matches_at_start. reflexivity.
Qed.

(** A call of [parseRootBlocks] that runs to its end leaves [lastIndex] at
    0. *)
Lemma parseRootBlocks_resets (text filePath : string) (s : state) :
  fst (parseRootBlocks text filePath s) = Ok tt ->
  rootBlockLastIndex (snd (parseRootBlocks text filePath s)) = 0.
Proof.
  unfold parseRootBlocks. unfold bind at 1, gets. simpl. unfold bind, modify.
  destruct (foldM _ _ tt s) as [[[]|err] s']; [reflexivity | discriminate].
Qed.



(** ** The settings cache stays fresh *)

Lemma same_settings_refl (r : resolver) : same_settings r r.
Proof. split; reflexivity. Qed.

Lemma same_settings_trans (r1 r2 r3 : resolver) :
  same_settings r1 r2 -> same_settings r2 r3 -> same_settings r1 r3.
Proof. intros [H1 H2] [H3 H4]. split; congruence. Qed.

Lemma serves_fresh_ret {A : Type} (a : A) : serves_fresh (ret a).
Proof. intros r Hr. split; [exact Hr | apply same_settings_refl]. Qed.

Lemma serves_fresh_throw {A : Type} (e : exn) : serves_fresh (@throw resolver A e).
Proof. intros r Hr. split; [exact Hr | apply same_settings_refl]. Qed.

Lemma serves_fresh_gets {A : Type} (f : resolver -> A) : serves_fresh (gets f).
Proof. intros r Hr. split; [exact Hr | apply same_settings_refl]. Qed.

Lemma serves_fresh_bind {A B : Type} (c : M resolver A) (k : A -> M resolver B) :
  serves_fresh c -> (forall a, serves_fresh (k a)) -> serves_fresh (bind c k).
Proof.
  intros Hc Hk r Hr. unfold bind. destruct (Hc r Hr) as [Hfresh Hsame].
  destruct (c r) as [[a|e] r']; simpl in *.
  - destruct (Hk a r' Hfresh) as [Hfresh' Hsame'].
    split; [exact Hfresh' | eapply same_settings_trans; eauto].
  - split; assumption.
Qed.

Lemma serves_fresh_foldM {A B : Type} (f : B -> A -> M resolver B) (l : list A) (b : B) :
  (forall b x, serves_fresh (f b x)) -> serves_fresh (foldM f l b).
Proof.
  intros Hf. revert b. induction l as [|x l IH]; intros b.
  - apply serves_fresh_ret.
  - simpl. apply serves_fresh_bind; [apply Hf | intros b'; apply IH].
Qed.

Lemma serves_fresh_mapM {A B : Type} (f : A -> M resolver B) (l : list A) :
  (forall x, serves_fresh (f x)) -> serves_fresh (mapM f l).
Proof.
  intros Hf. induction l as [|x l IH].
  - apply serves_fresh_ret.
  - simpl. apply serves_fresh_bind; [apply Hf | intros y].
    apply serves_fresh_bind; [exact IH | intros ys; apply serves_fresh_ret].
Qed.

(** Under a fresh cache a lookup returns what the settings now loaded
    hold, whether it is served from the cache or not. *)
Lemma getSettingValue_fresh (key : string) (r : resolver) :
  settings_fresh r ->
  fst (getSettingValue key r)
  = Ok (lookupSetting (shopifySettings r) (shopifySettingsSchema r) key).
Proof.
  intros Hr. unfold getSettingValue, bind, gets, modify, ret. simpl.
  destruct (settingValueCache r !! key) as [v|] eqn:Hhit; simpl.
  - rewrite (Hr key v Hhit). reflexivity.
  - reflexivity.
Qed.

Lemma serves_fresh_getSettingValue (key : string) : serves_fresh (getSettingValue key).
Proof.
  intros r Hr. unfold getSettingValue, bind, gets, modify, ret. simpl.
  destruct (settingValueCache r !! key) as [v|] eqn:Hhit; simpl.
  - split; [exact Hr | apply same_settings_refl].
  - split; [|split; reflexivity].
    intros key' v'. unfold set_settingValueCache. simpl.
    destruct (decide (key = key')) as [->|Hne].
    + rewrite lookup_insert_eq. intros [= <-]. reflexivity.
    + rewrite lookup_insert_ne by exact Hne. apply Hr.
Qed.

Lemma serves_fresh_hexToRgba (hex : value) (alpha : option number) :
  serves_fresh (hexToRgba hex alpha).
Proof.
  intros r Hr. unfold hexToRgba.
  destruct hex; try (split; [exact Hr | apply same_settings_refl]).
  destruct (String.eqb s ""); [split; [exact Hr | apply same_settings_refl]|].
  unfold bind, gets, modify, ret. simpl.
  destruct (hexToRgbaCache r !! _); simpl; [split; [exact Hr | apply same_settings_refl]|].
  destruct (hexToRgba_decode s _); simpl; split;
    try exact Hr; try (split; reflexivity).
Qed.

Create HintDb served.
#[local] Hint Resolve serves_fresh_getSettingValue serves_fresh_hexToRgba : served.

(** One step of a proof that a computation serves fresh values: the monad
    operations by their lemmas, a case distinction by cases. *)
Ltac serve_step :=
  lazymatch goal with
  | |- serves_fresh (ret _) => apply serves_fresh_ret
  | |- serves_fresh (throw _) => apply serves_fresh_throw
  | |- serves_fresh (gets _) => apply serves_fresh_gets
  | |- serves_fresh (bind _ _) => apply serves_fresh_bind; [|intros ?]
  | |- serves_fresh (foldM _ _ _) => apply serves_fresh_foldM; intros ? ?
  | |- serves_fresh (mapM _ _) => apply serves_fresh_mapM; intros ?
  | |- serves_fresh (match ?x with _ => _ end) => destruct x
  | |- serves_fresh (let _ := _ in _) => cbv zeta
  | |- serves_fresh _ => solve [auto with served]
  end.

Ltac serve_all := repeat serve_step.

Lemma serves_fresh_resolveLiquidVariable (liquidVar : string) :
  serves_fresh (resolveLiquidVariable liquidVar).
Proof. unfold resolveLiquidVariable. serve_all. Qed.
#[local] Hint Resolve serves_fresh_resolveLiquidVariable : served.

Lemma serves_fresh_applyLiquidFilter (evaluate : string -> bindings -> M resolver value)
    (value : value) (filter : string) (variables : bindings) :
  (forall expr variables, serves_fresh (evaluate expr variables)) ->
  serves_fresh (applyLiquidFilter evaluate value filter variables).
Proof.
  intros Hevaluate. unfold applyLiquidFilter.
  serve_all.
Qed.


Lemma serves_fresh_evaluate_fuel (fuel : nat) (expr : string) (variables : bindings) :
  serves_fresh (evaluateLiquidExpression_fuel fuel expr variables).
Proof.
  revert expr variables. induction fuel as [|fuel IH]; intros expr variables.
  - apply serves_fresh_throw.
  - simpl.
    pose proof (fun value filter variables =>
                  serves_fresh_applyLiquidFilter (evaluateLiquidExpression_fuel fuel)
                    value filter variables IH) as Hfilter.
    destruct (pipe_parts expr) as [|value filters]; [apply serves_fresh_throw|].
    apply serves_fresh_bind; [serve_all | intros base].
    apply serves_fresh_foldM. intros v filter. apply Hfilter.
Qed.

Lemma serves_fresh_evaluateLiquidExpression (expr : string) (variables : bindings) :
  serves_fresh (evaluateLiquidExpression expr variables).
Proof. apply serves_fresh_evaluate_fuel. Qed.
#[local] Hint Resolve serves_fresh_evaluateLiquidExpression : served.

Lemma serves_fresh_evaluateLiquidCondition (condition : string) (variables : bindings) :
  serves_fresh (evaluateLiquidCondition condition variables).
Proof. unfold evaluateLiquidCondition. serve_all. Qed.
#[local] Hint Resolve serves_fresh_evaluateLiquidCondition : served.

Lemma serves_fresh_run_echo (line : string) (variables : bindings) (output : string) :
  serves_fresh (run_echo line variables output).
Proof. unfold run_echo. serve_all. Qed.

Lemma serves_fresh_run_assign (line : string) (variables : bindings) :
  serves_fresh (run_assign line variables).
Proof. unfold run_assign. serve_all. Qed.
#[local] Hint Resolve serves_fresh_run_echo serves_fresh_run_assign : served.

Lemma serves_fresh_run_lines (lines : list string) (variables : bindings) (output : string) :
  serves_fresh (run_lines lines variables output).
Proof.
  revert variables output. induction lines as [|line lines IH]; intros variables output.
  - apply serves_fresh_ret.
  - simpl. serve_all.
Qed.
#[local] Hint Resolve serves_fresh_run_lines : served.

Lemma serves_fresh_collect_branches (rest : list string) (i depth : nat)
    (conditionMet : bool) (earlier : list branch) (current : branch) (variables : bindings) :
  serves_fresh (collect_branches rest i depth conditionMet earlier current variables).
Proof.
  revert i depth conditionMet earlier current.
  induction rest as [|line rest IH]; intros i depth conditionMet earlier current.
  - apply serves_fresh_ret.
  - simpl. serve_all.
Qed.
#[local] Hint Resolve serves_fresh_collect_branches : served.

Lemma serves_fresh_processIfBlockInLoop (lines : list string) (startIndex : nat)
    (variables : bindings) :
  serves_fresh (processIfBlockInLoop lines startIndex variables).
Proof. unfold processIfBlockInLoop. serve_all. Qed.
#[local] Hint Resolve serves_fresh_processIfBlockInLoop : served.

Lemma serves_fresh_run_for_body (fuel : nat) (forBody : list string) (k : nat)
    (variables : bindings) (output : string) :
  serves_fresh (run_for_body fuel forBody k variables output).
Proof.
  revert k variables output. induction fuel as [|fuel IH]; intros k variables output.
  - apply serves_fresh_throw.
  - simpl. serve_all.
Qed.
#[local] Hint Resolve serves_fresh_run_for_body : served.

Lemma serves_fresh_run_for (array : list value) (j : nat) (itemVar : string)
    (forBody : list string) (variables : bindings) (output : string) :
  serves_fresh (run_for array j itemVar forBody variables output).
Proof.
  revert j variables output. induction array as [|item array IH]; intros j variables output.
  - apply serves_fresh_ret.
  - simpl. serve_all.
Qed.
#[local] Hint Resolve serves_fresh_run_for : served.

Lemma serves_fresh_run_block (fuel : nat) (lines : list string) (i : nat) (skipMode : bool)
    (variables : bindings) (output : string) :
  serves_fresh (run_block fuel lines i skipMode variables output).
Proof.
  revert i skipMode variables output.
  induction fuel as [|fuel IH]; intros i skipMode variables output.
  - apply serves_fresh_throw.
  - simpl. serve_all.
Qed.

Lemma serves_fresh_executeLiquidBlock (liquidCode : string) :
  serves_fresh (executeLiquidBlock liquidCode).
Proof. apply serves_fresh_run_block. Qed.
#[local] Hint Resolve serves_fresh_executeLiquidBlock : served.

Lemma serves_fresh_evaluateCondition (condition : string) :
  serves_fresh (evaluateCondition condition).
Proof. unfold evaluateCondition. serve_all. Qed.
#[local] Hint Resolve serves_fresh_evaluateCondition : served.

Lemma serves_fresh_first_matching (parts : list part) : serves_fresh (first_matching parts).
Proof.
  induction parts as [|part parts IH].
  - apply serves_fresh_ret.
  - simpl. serve_all.
Qed.
#[local] Hint Resolve serves_fresh_first_matching : served.

Lemma serves_fresh_replace_fnM (r : regexp) (s : string) (f : rmatch -> M resolver string) :
  (forall m, serves_fresh (f m)) -> serves_fresh (replace_fnM r s f).
Proof. intros Hf. unfold replace_fnM. serve_all. Qed.

Lemma serves_fresh_substituteSetting (prefix : string) (m : rmatch) :
  serves_fresh (substituteSetting prefix m).
Proof. unfold substituteSetting. serve_all. Qed.
#[local] Hint Resolve serves_fresh_substituteSetting : served.

Lemma serves_fresh_liquidToCSS (text : string) : serves_fresh (liquidToCSS text).
Proof.
  unfold liquidToCSS, liquidToCSS_step0, liquidToCSS_step1, liquidToCSS_step3,
    liquidToCSS_step5, liquidToCSS_step6, processConditionalBlocks.
  repeat first [ apply serves_fresh_replace_fnM; intros ? | serve_step ].
Qed.

(** ** The whole scan *)

Lemma scan_fresh_ret {A : Type} (a : A) : scan_fresh (ret a).
Proof. intros s Hs. split; [exact Hs | apply same_settings_refl]. Qed.

Lemma scan_fresh_bind {A B : Type} (c : M state A) (k : A -> M state B) :
  scan_fresh c -> (forall a, scan_fresh (k a)) -> scan_fresh (bind c k).
Proof.
  intros Hc Hk s Hs. unfold bind. destruct (Hc s Hs) as [Hfresh Hsame].
  destruct (c s) as [[a|e] s']; simpl in *.
  - destruct (Hk a s' Hfresh) as [Hfresh' Hsame'].
    split; [exact Hfresh' | eapply same_settings_trans; eauto].
  - split; assumption.
Qed.

Lemma scan_fresh_foldM {A B : Type} (f : B -> A -> M state B) (l : list A) (b : B) :
  (forall b x, scan_fresh (f b x)) -> scan_fresh (foldM f l b).
Proof.
  intros Hf. revert b. induction l as [|x l IH]; intros b.
  - apply scan_fresh_ret.
  - simpl. apply scan_fresh_bind; [apply Hf | intros b'; apply IH].
Qed.

Lemma scan_fresh_lift {A : Type} (c : M resolver A) : serves_fresh c -> scan_fresh (lift c).
Proof.
  intros Hc s Hs. unfold lift. destruct (Hc (res s) Hs) as [Hfresh Hsame].
  destruct (c (res s)) as [o r']. exact (conj Hfresh Hsame).
Qed.

(** A computation that does not write the resolver at all. *)
Lemma scan_fresh_frame {A : Type} (c : M state A) :
  (forall s, res (snd (c s)) = res s) -> scan_fresh c.
Proof.
  intros Hc s Hs. rewrite Hc. split; [exact Hs | apply same_settings_refl].
Qed.

Lemma record_frame (name : string) (e : entry) (s : state) :
  res (snd (registry_set name e s)) = res s.
Proof. reflexivity. Qed.

Lemma scan_fresh_recordVariable (filePath : string) (mediaQuery : option string)
    (m : rmatch) : scan_fresh (recordVariable filePath mediaQuery m).
Proof.
  apply scan_fresh_frame. intros s.
  unfold recordVariable, bind, gets, registry_set, modify, ret, throw. simpl.
  destruct (cssVariables s !! _); [|reflexivity].
  destruct (query_given mediaQuery); [|reflexivity].
  destruct (e_media _); reflexivity.
Qed.

Lemma scan_fresh_record_if_new (name : string) (e : entry) :
  scan_fresh
    (registry <- gets cssVariables ;;
     match registry !! name with
     | None => registry_set name e
     | Some _ => ret tt
     end).
Proof.
  apply scan_fresh_frame. intros s. unfold bind, gets, registry_set, modify, ret. simpl.
  destruct (cssVariables s !! name); reflexivity.
Qed.

Lemma scan_fresh_getExtensionConfig : scan_fresh getExtensionConfig.
Proof.
  apply scan_fresh_frame. intros s. unfold getExtensionConfig.
  destruct (cachedConfig s); reflexivity.
Qed.

Lemma scan_fresh_parseVariablesInBlock (content filePath : string)
    (mediaQuery : option string) :
  scan_fresh (parseVariablesInBlock content filePath mediaQuery).
Proof. apply scan_fresh_foldM. intros. apply scan_fresh_recordVariable. Qed.

Lemma scan_fresh_parseRootBlocks (text filePath : string) :
  scan_fresh (parseRootBlocks text filePath).
Proof.
  unfold parseRootBlocks.
  apply scan_fresh_bind; [apply scan_fresh_frame; reflexivity | intros lastIndex].
  apply scan_fresh_bind; [|intros _; apply scan_fresh_frame; reflexivity].
  apply scan_fresh_foldM. intros _ rootStartMatch.
  apply scan_fresh_bind; [apply scan_fresh_frame; reflexivity | intros _].
  unfold parseRootBlock.
  destruct (findMatchingBrace _ _); [|apply scan_fresh_ret].
  apply scan_fresh_bind; [apply scan_fresh_parseVariablesInBlock | intros _].
  apply scan_fresh_foldM. intros _ mediaMatch. unfold parseMediaBlock.
  destruct (findMatchingBrace _ _); [|apply scan_fresh_ret].
  apply scan_fresh_parseVariablesInBlock.
Qed.

Lemma scan_fresh_parseLiquidEchoVariables (text filePath : string) :
  scan_fresh (parseLiquidEchoVariables text filePath).
Proof.
  apply scan_fresh_foldM. intros _ echoMatch.
  apply scan_fresh_foldM. intros _ varMatch. apply scan_fresh_record_if_new.
Qed.

Lemma scan_fresh_parseClassBlocks (text filePath : string) :
  scan_fresh (parseClassBlocks text filePath).
Proof.
  apply scan_fresh_foldM. intros _ classStartMatch. unfold parseClassBlock.
  destruct (findMatchingBrace _ _); [|apply scan_fresh_ret].
  apply scan_fresh_foldM. intros _ line.
  destruct (_ || _); [apply scan_fresh_ret|].
  apply scan_fresh_foldM. intros _ varMatch. apply scan_fresh_record_if_new.
Qed.

Lemma scan_fresh_parseCssVariables (text filePath : string) :
  scan_fresh (parseCssVariables text filePath).
Proof.
  unfold parseCssVariables.
  destruct (_ || _); [apply scan_fresh_ret|].
  apply scan_fresh_bind; [apply scan_fresh_getExtensionConfig | intros config].
  destruct (_ ++ _)%list; [apply scan_fresh_ret|].
  apply scan_fresh_foldM. intros _ block. unfold processStyleBlock.
  apply scan_fresh_bind; [apply scan_fresh_lift, serves_fresh_liquidToCSS | intros cleanCSS].
  destruct (negb _); [apply scan_fresh_ret|].
  apply scan_fresh_bind; [apply scan_fresh_parseLiquidEchoVariables | intros _].
  apply scan_fresh_bind; [apply scan_fresh_parseRootBlocks | intros _].
  destruct (negb _); [apply scan_fresh_parseClassBlocks | apply scan_fresh_ret].
Qed.

Lemma scan_fresh_scanFile (f : string * string) : scan_fresh (scanFile f).
Proof.
  destruct f as [fsPath text]. unfold scanFile.
  destruct (includes text ":root"); [|apply scan_fresh_ret].
  intros s Hs. pose proof (scan_fresh_parseCssVariables text fsPath s Hs) as Hk.
  destruct (parseCssVariables text fsPath s) as [[[]|e] s']; exact Hk.
Qed.

(** What the first statements of a scan leave. *)
Lemma scanLiquidFiles_begin_state (w : workspace) (s : state) :
  snd (scanLiquidFiles_begin w s)
  = State ∅ (cachedConfig s)
      (Resolver (loadedSettings w) (loadedSchema w) ∅ (hexToRgbaCache (res s)))
      (rootBlockLastIndex s).
Proof. reflexivity. Qed.

Lemma settings_fresh_empty (settings schema : value) (hex : gmap string rgba) :
  settings_fresh (Resolver settings schema ∅ hex).
Proof. intros key v. simpl. rewrite lookup_empty. discriminate. Qed.



(** ** The hex decoder *)

Lemma all_ascii_complete (c : ascii) : In c all_ascii.
Proof.
  unfold all_ascii. rewrite <- (ascii_nat_embedding c).
  apply in_map, in_seq. pose proof (nat_ascii_bounded c). lia.
Qed.

(** A property checked on the 256 code units holds of every code unit. *)
Lemma forall_ascii (P : ascii -> bool) :
  forallb P all_ascii = true -> forall c, P c = true.
Proof.
  intros Hall c. rewrite forallb_forall in Hall. apply Hall, all_ascii_complete.
Qed.

Lemma number_same_eq (x y : number) : number_same x y = true -> x = y.
Proof.
  destruct x as [s|s| |s m e], y as [s'|s'| |s' m' e']; simpl; try discriminate.
  - intros Hs. apply Bool.eqb_prop in Hs. congruence.
  - intros Hs. apply Bool.eqb_prop in Hs. congruence.
  - reflexivity.
  - intros Hs. apply andb_true_iff in Hs as [Hs He]. apply andb_true_iff in Hs as [Hs Hm].
    apply Bool.eqb_prop in Hs. apply Pos.eqb_eq in Hm. apply Z.eqb_eq in He. congruence.
Qed.

Lemma hex_digit_listed (c : ascii) : hex_digit c = true -> In c hex_digits.
Proof.
  intros Hc.
  assert (Hall : forallb (fun a => if hex_digit a then existsb (Ascii.eqb a) hex_digits
                                   else true) all_ascii = true) by (vm_compute; reflexivity).
  pose proof (forall_ascii _ Hall c) as Hlisted. cbv beta in Hlisted. rewrite Hc in Hlisted.
  apply existsb_exists in Hlisted as (d & Hd & Heq).
  apply Ascii.eqb_eq in Heq. subst d. exact Hd.
Qed.

Lemma parseInt_hex_pair (c1 c2 : ascii) :
  hex_digit c1 = true -> hex_digit c2 = true ->
  parseInt_string (String c1 (String c2 "")) true = hex_byte c1 c2.
Proof.
  intros H1 H2.
  assert (Hall : forallb (fun a => forallb (hex_pair_read a) hex_digits) hex_digits = true)
    by (vm_compute; reflexivity).
  rewrite forallb_forall in Hall.
  specialize (Hall c1 (hex_digit_listed c1 H1)).
  rewrite forallb_forall in Hall.
  apply number_same_eq, Hall, hex_digit_listed, H2.
Qed.

Lemma hex_digit_not_hash (c : ascii) : hex_digit c = true -> Ascii.eqb "#" c = false.
Proof.
  intros Hc.
  assert (Hall : forallb (fun a => if hex_digit a then negb (Ascii.eqb "#" a) else true)
                   all_ascii = true) by (vm_compute; reflexivity).
  pose proof (forall_ascii _ Hall c) as Hread. cbv beta in Hread. rewrite Hc in Hread.
  apply negb_true_iff. exact Hread.
Qed.


Lemma index_of_hash_absent (l : list ascii) (i : nat) :
  forallb hex_digit l = true -> index_of_l (chars "#") l i = None.
Proof.
  revert i. induction l as [|c l IH]; intros i Hl.
  - reflexivity.
  - simpl in Hl. apply andb_true_iff in Hl as [Hc Hl].
    cbn [index_of_l chars list_ascii_of_string starts_with_l].
    rewrite (hex_digit_not_hash c Hc). cbn [andb]. apply IH. exact Hl.
Qed.

Lemma chars_of_chars (l : list ascii) : chars (of_chars l) = l.
Proof. apply list_ascii_of_string_of_list_ascii. Qed.

Lemma of_chars_chars (s : string) : of_chars (chars s) = s.
Proof. apply string_of_list_ascii_of_string. Qed.

(** A text of hex digits has no [#] to remove. *)
Lemma replace_first_hash_plain (l : list ascii) :
  forallb hex_digit l = true -> replace_first (of_chars l) "#" "" = of_chars l.
Proof.
  intros Hl. unfold replace_first, indexOf. rewrite chars_of_chars.
  rewrite (index_of_hash_absent l 0 Hl). reflexivity.
Qed.

(** A leading [#] is removed. *)
Lemma replace_first_hash_leading (l : list ascii) :
  replace_first (of_chars ("#"%char :: l)) "#" "" = of_chars l.
Proof.
  unfold replace_first, indexOf. rewrite chars_of_chars. reflexivity.
Qed.

(** The decoder after the removal of [#]. *)
Lemma hexToRgba_decode_unfold (hex : string) (alpha : number) :
  hexToRgba_decode hex alpha
  = let hex := replace_first hex "#" "" in
    let hex := if Nat.eqb (String.length hex) 3
               then join "" (map (fun c => String c (String c EmptyString)) (chars hex))
               else hex in
    if negb (Nat.eqb (String.length hex) 6) && negb (Nat.eqb (String.length hex) 8) then None
    else Some (Rgba (parseInt_string (substring 0 2 hex) true)
                 (parseInt_string (substring 2 4 hex) true)
                 (parseInt_string (substring 4 6 hex) true)
                 (if Nat.eqb (String.length hex) 8
                  then div (parseInt_string (substring 6 8 hex) true) (of_Z 255)
                  else alpha)).
Proof. reflexivity. Qed.

Lemma decode_six (c1 c2 c3 c4 c5 c6 : ascii) (alpha : number) (hex : string) :
  forallb hex_digit [c1; c2; c3; c4; c5; c6] = true ->
  replace_first hex "#" "" = of_chars [c1; c2; c3; c4; c5; c6] ->
  hexToRgba_decode hex alpha
  = Some (Rgba (hex_byte c1 c2) (hex_byte c3 c4) (hex_byte c5 c6) alpha).
Proof.
  intros Hdigits Hhex. rewrite hexToRgba_decode_unfold, Hhex. cbv zeta.
  cbn in Hdigits. repeat (apply andb_true_iff in Hdigits as [? Hdigits]).
  change (String.length (of_chars [c1; c2; c3; c4; c5; c6])) with 6.
  cbn [Nat.eqb negb andb].
  change (substring 0 2 (of_chars [c1; c2; c3; c4; c5; c6])) with (String c1 (String c2 "")).
  change (substring 2 4 (of_chars [c1; c2; c3; c4; c5; c6])) with (String c3 (String c4 "")).
  change (substring 4 6 (of_chars [c1; c2; c3; c4; c5; c6])) with (String c5 (String c6 "")).
  rewrite !parseInt_hex_pair by assumption. reflexivity.
Qed.

Lemma decode_eight (c1 c2 c3 c4 c5 c6 c7 c8 : ascii) (alpha : number) (hex : string) :
  forallb hex_digit [c1; c2; c3; c4; c5; c6; c7; c8] = true ->
  replace_first hex "#" "" = of_chars [c1; c2; c3; c4; c5; c6; c7; c8] ->
  hexToRgba_decode hex alpha
  = Some (Rgba (hex_byte c1 c2) (hex_byte c3 c4) (hex_byte c5 c6)
            (div (hex_byte c7 c8) (of_Z 255))).
Proof.
  intros Hdigits Hhex. rewrite hexToRgba_decode_unfold, Hhex. cbv zeta.
  cbn in Hdigits. repeat (apply andb_true_iff in Hdigits as [? Hdigits]).
  change (String.length (of_chars [c1; c2; c3; c4; c5; c6; c7; c8])) with 8.
  cbn [Nat.eqb negb andb].
  change (substring 0 2 (of_chars [c1; c2; c3; c4; c5; c6; c7; c8]))
    with (String c1 (String c2 "")).
  change (substring 2 4 (of_chars [c1; c2; c3; c4; c5; c6; c7; c8]))
    with (String c3 (String c4 "")).
  change (substring 4 6 (of_chars [c1; c2; c3; c4; c5; c6; c7; c8]))
    with (String c5 (String c6 "")).
  change (substring 6 8 (of_chars [c1; c2; c3; c4; c5; c6; c7; c8]))
    with (String c7 (String c8 "")).
  rewrite !parseInt_hex_pair by assumption. reflexivity.
Qed.

Lemma decode_three (c1 c2 c3 : ascii) (alpha : number) (hex : string) :
  forallb hex_digit [c1; c2; c3] = true ->
  replace_first hex "#" "" = of_chars [c1; c2; c3] ->
  hexToRgba_decode hex alpha
  = Some (Rgba (hex_byte c1 c1) (hex_byte c2 c2) (hex_byte c3 c3) alpha).
Proof.
  intros Hdigits Hhex. rewrite hexToRgba_decode_unfold, Hhex. cbv zeta.
  cbn in Hdigits. repeat (apply andb_true_iff in Hdigits as [? Hdigits]).
  change (String.length (of_chars [c1; c2; c3])) with 3. cbn [Nat.eqb].
  change (join "" (map (fun c => String c (String c "")) (chars (of_chars [c1; c2; c3]))))
    with (of_chars [c1; c1; c2; c2; c3; c3]).
  change (String.length (of_chars [c1; c1; c2; c2; c3; c3])) with 6.
  cbn [Nat.eqb negb andb].
  change (substring 0 2 (of_chars [c1; c1; c2; c2; c3; c3])) with (String c1 (String c1 "")).
  change (substring 2 4 (of_chars [c1; c1; c2; c2; c3; c3])) with (String c2 (String c2 "")).
  change (substring 4 6 (of_chars [c1; c1; c2; c2; c3; c3])) with (String c3 (String c3 "")).
  rewrite !parseInt_hex_pair by assumption. reflexivity.
Qed.

Lemma length_join_doubled (l : list ascii) :
  String.length (join "" (map (fun c => String c (String c "")) l)) = 2 * List.length l.
Proof.
  induction l as [|c l IH]; [reflexivity|].
  destruct l as [|d l].
  - reflexivity.
  - change (join "" (map (fun c => String c (String c "")) (c :: d :: l)))
      with (String c (String c (join "" (map (fun c => String c (String c "")) (d :: l))))).
    cbn [String.length]. rewrite IH. cbn [List.length]. lia.
Qed.

Lemma length_chars (s : string) : List.length (chars s) = String.length s.
Proof. induction s as [|c s IH]; [reflexivity|]. cbn. rewrite <- IH. reflexivity. Qed.

(** The lengths the decoder accepts, and no other. *)
Lemma decode_by_length (hex : string) (alpha : number) :
  let n := String.length (replace_first hex "#" "") in
  (n <> 3 -> n <> 6 -> n <> 8 -> hexToRgba_decode hex alpha = None)
  /\ (n = 3 \/ n = 6 \/ n = 8 -> hexToRgba_decode hex alpha <> None).
Proof.
  intros n. rewrite hexToRgba_decode_unfold. cbv zeta. fold n.
  split.
  - intros H3 H6 H8.
    apply Nat.eqb_neq in H3, H6, H8. rewrite H3. cbv iota. fold n.
    rewrite H6, H8. reflexivity.
  - intros [H3 | [H6 | H8]].
    + rewrite H3. cbn [Nat.eqb]. rewrite length_join_doubled, length_chars. fold n.
      rewrite H3. discriminate.
    + rewrite H6. cbn [Nat.eqb]. fold n. rewrite H6. discriminate.
    + rewrite H8. cbn [Nat.eqb]. fold n. rewrite H8. discriminate.
Qed.

(** The wrapper around the decoder: the default [alpha] and the cache. *)
Lemma hexToRgba_miss (hex : string) (alpha : option number) (r : resolver) :
  hex <> "" ->
  hexToRgbaCache r !! (hex ++ "-" ++ to_string (default one alpha)) = None ->
  fst (hexToRgba (VStr hex) alpha r) = Ok (hexToRgba_decode hex (default one alpha)).
Proof.
  intros Hhex Hmiss. unfold hexToRgba.
  apply String.eqb_neq in Hhex. rewrite Hhex.
  unfold bind, gets, modify, ret. simpl. rewrite Hmiss.
  destruct (hexToRgba_decode hex (default one alpha)); reflexivity.
Qed.

(** The decoder, case by case.  Let [hex'] be the input without its first
    [#].  (1) Three hex digits decode to the record of the three doubled
    digits, with the [alpha] argument as alpha channel; (2) six hex digits
    decode to their three bytes, again with [alpha]; (3) eight hex digits
    decode to three bytes and the fourth byte divided by 255.  (4) When the
    length of [hex'] is not 3, 6 or 8 the result is absent, and when it is,
    the result is never absent.  (5) [hexToRgba] returns what the decoder
    gives when the cache has no record for the key, [alpha] defaulting to
    1. *)
Lemma hexToRgba_decodes (hex : string) (alpha : number) :
  (forall c1 c2 c3,
     forallb hex_digit [c1; c2; c3] = true ->
     replace_first hex "#" "" = of_chars [c1; c2; c3] ->
     hexToRgba_decode hex alpha
     = Some (Rgba (hex_byte c1 c1) (hex_byte c2 c2) (hex_byte c3 c3) alpha))
  /\ (forall c1 c2 c3 c4 c5 c6,
        forallb hex_digit [c1; c2; c3; c4; c5; c6] = true ->
        replace_first hex "#" "" = of_chars [c1; c2; c3; c4; c5; c6] ->
        hexToRgba_decode hex alpha
        = Some (Rgba (hex_byte c1 c2) (hex_byte c3 c4) (hex_byte c5 c6) alpha))
  /\ (forall c1 c2 c3 c4 c5 c6 c7 c8,
        forallb hex_digit [c1; c2; c3; c4; c5; c6; c7; c8] = true ->
        replace_first hex "#" "" = of_chars [c1; c2; c3; c4; c5; c6; c7; c8] ->
        hexToRgba_decode hex alpha
        = Some (Rgba (hex_byte c1 c2) (hex_byte c3 c4) (hex_byte c5 c6)
                  (div (hex_byte c7 c8) (of_Z 255))))
  /\ (let n := String.length (replace_first hex "#" "") in
      (n <> 3 -> n <> 6 -> n <> 8 -> hexToRgba_decode hex alpha = None)
      /\ (n = 3 \/ n = 6 \/ n = 8 -> hexToRgba_decode hex alpha <> None))
  /\ (forall r,
        hex <> "" ->
        (hexToRgbaCache r !! (hex ++ "-" ++ to_string alpha) = None ->
         fst (hexToRgba (VStr hex) (Some alpha) r) = Ok (hexToRgba_decode hex alpha))
        /\ (hexToRgbaCache r !! (hex ++ "-1") = None ->
            fst (hexToRgba (VStr hex) None r) = Ok (hexToRgba_decode hex one))).
Proof.
  split; [|split; [|split; [|split]]].
  - intros. apply decode_three; assumption.
  - intros. apply decode_six; assumption.
  - intros. apply decode_eight; assumption.
  - apply decode_by_length.
  - intros r Hhex. split; intros Hmiss.
    + exact (hexToRgba_miss hex (Some alpha) r Hhex Hmiss).
    + exact (hexToRgba_miss hex None r Hhex Hmiss).
Qed.

(** C4.  [hexToRgba] checks that its argument is a text, that the text is
    not empty and that its length without the first [#] is 3, 6 or 8, and
    never looks at the characters.  (1) Whatever the characters are, a text
    of such a length gives a record, from the cache or from the decoder,
    and never absent.  (2) [zzzzzz] gives three channels that are not
    numbers; [12345g] reads its last pair as 5; [ff-f00] reads its second
    pair as -15.  (3) The callers, which fall back on the text of the
    setting when the result is absent, therefore print these channels: a
    scheme color [#zzzzzz] resolves to [NaN, NaN, NaN, 1] and [#ff-f00] to
    [255 -15 0], while [#12], a text of another length, resolves to
    itself. *)
Theorem hexToRgba_accepts_non_hex :
  (forall (hex : string) (alpha : option number) (r : resolver),
     hex <> "" ->
     (let n := String.length (replace_first hex "#" "") in n = 3 \/ n = 6 \/ n = 8) ->
     exists c, fst (hexToRgba (VStr hex) alpha r) = Ok (Some c))
  /\ (fst (hexToRgba (VStr "zzzzzz") None initial_resolver)
      = Ok (Some (Rgba NaN NaN NaN one))
      /\ fst (hexToRgba (VStr "12345g") None initial_resolver)
         = Ok (Some (Rgba (of_Z 18) (of_Z 52) (of_Z 5) one))
      /\ fst (hexToRgba (VStr "ff-f00") None initial_resolver)
         = Ok (Some (Rgba (of_Z 255) (of_Z (-15)) (of_Z 0) one)))
  /\ (fst (resolveLiquidVariable "{{ scheme.settings.background }}" odd_colors)
      = Ok "NaN, NaN, NaN, 1"
      /\ fst (resolveLiquidVariable "{{ scheme.settings.text.rgb }}" odd_colors)
         = Ok "255 -15 0"
      /\ fst (resolveLiquidVariable "{{ scheme.settings.border }}" odd_colors) = Ok "#12").
Proof.
  split; [|split].
  - intros hex alpha r Hhex Hlength. unfold hexToRgba.
    apply String.eqb_neq in Hhex. rewrite Hhex.
    unfold bind, gets, modify, ret. simpl.
    destruct (hexToRgbaCache r !! _) as [memo|]; [exists memo; reflexivity|].
    pose proof (proj2 (decode_by_length hex (default one alpha)) Hlength) as Hsome.
    destruct (hexToRgba_decode hex (default one alpha)) as [c|]; [|contradiction].
    exists c. reflexivity.
  - repeat split; vm_compute; reflexivity.
  - repeat split; vm_compute; reflexivity.
Qed.

(** ** The matcher moves forward *)

Lemma reaches_here (i : nat) (s : list ascii) : reaches i s i s.
Proof. unfold reaches. rewrite Nat.sub_diag. repeat split; lia. Qed.

Lemma reaches_next (i : nat) (x : ascii) (s : list ascii) : reaches i (x :: s) (S i) s.
Proof.
  unfold reaches. replace (S i - i) with 1 by lia. cbn [List.length]. repeat split; lia.
Qed.

Lemma reaches_trans (i j l : nat) (s s' s'' : list ascii) :
  reaches i s j s' -> reaches j s' l s'' -> reaches i s l s''.
Proof.
  unfold reaches. intros (Hij & Hlen & ->) (Hjl & Hlen' & ->).
  rewrite length_skipn in Hlen'. split; [lia|]. split; [lia|].
  rewrite skipn_skipn. f_equal. lia.
Qed.

Lemma reaches_shorter (i j : nat) (s s' : list ascii) :
  reaches i s j s' -> j <> i -> List.length s' < List.length s.
Proof.
  unfold reaches. intros (Hij & Hlen & ->) Hne. rewrite length_skipn. lia.
Qed.

Lemma starts_with_ci_length (icase : bool) (p s : list ascii) :
  starts_with_ci icase p s = true -> List.length p <= List.length s.
Proof.
  revert s. induction p as [|a p IH]; intros [|b s] Hp; cbn in *; try lia; try discriminate.
  apply andb_prop in Hp as [_ Hp]. specialize (IH s Hp). lia.
Qed.

(** A loop whose step only continues at positions it reaches only
    continues at such positions. *)
Lemma star_loop_local (A : Type) (greedy : bool)
    (step : nat -> list ascii -> caps -> (nat -> list ascii -> caps -> option A) -> option A)
    (k1 k2 : nat -> list ascii -> caps -> option A) :
  (forall i s c h1 h2,
     (forall j s' c', reaches i s j s' -> h1 j s' c' = h2 j s' c') ->
     step i s c h1 = step i s c h2) ->
  forall fuel i s c,
    (forall j s' c', reaches i s j s' -> k1 j s' c' = k2 j s' c') ->
    star_loop A greedy step k1 fuel i s c = star_loop A greedy step k2 fuel i s c.
Proof.
  intros Hstep. induction fuel as [|fuel IH]; intros i s c Hk; cbn [star_loop].
  - apply Hk, reaches_here.
  - rewrite (Hk i s c (reaches_here i s)).
    rewrite (Hstep i s c
               (fun j s' c' => if Nat.eqb j i then None
                               else star_loop A greedy step k1 fuel j s' c')
               (fun j s' c' => if Nat.eqb j i then None
                               else star_loop A greedy step k2 fuel j s' c')).
    + reflexivity.
    + intros j s' c' Hreach. destruct (Nat.eqb j i); [reflexivity|].
      apply IH. intros l s'' c'' Hreach'. apply Hk.
      exact (reaches_trans _ _ _ _ _ _ Hreach Hreach').
Qed.

(** What remains to be matched is only asked about positions that the
    pattern reaches. *)
Lemma run_local (icase : bool) (A : Type) (r : re) :
  forall i s c (k1 k2 : nat -> list ascii -> caps -> option A),
    (forall j s' c', reaches i s j s' -> k1 j s' c' = k2 j s' c') ->
    run icase A r i s c k1 = run icase A r i s c k2.
Proof.
  revert A.
  induction r as [|a| |neg items|a IHa b IHb|a IHa b IHb|g a IHa|g a IHa|n a IHa| | |a IHa|n];
    intros A i s c k1 k2 Hk; cbn [run].
  - apply Hk, reaches_here.
  - destruct s as [|x s']; [reflexivity|].
    rewrite (Hk _ _ c (reaches_next i x s')). reflexivity.
  - destruct s as [|x s']; [reflexivity|].
    rewrite (Hk _ _ c (reaches_next i x s')). reflexivity.
  - destruct s as [|x s']; [reflexivity|].
    rewrite (Hk _ _ c (reaches_next i x s')). reflexivity.
  - apply IHa. intros j s' c' Hreach. apply IHb. intros l s'' c'' Hreach'.
    apply Hk. exact (reaches_trans _ _ _ _ _ _ Hreach Hreach').
  - rewrite (IHa A i s c k1 k2 Hk), (IHb A i s c k1 k2 Hk). reflexivity.
  - apply star_loop_local; [|exact Hk].
    intros j s' c' h1 h2 Hh. apply IHa, Hh.
  - rewrite (Hk i s c (reaches_here i s)).
    rewrite (IHa A i s (clear_caps (groups_of a) c)
               (fun j s' c' => if Nat.eqb j i then None else k1 j s' c')
               (fun j s' c' => if Nat.eqb j i then None else k2 j s' c')).
    + reflexivity.
    + intros j s' c' Hreach. rewrite (Hk j s' c' Hreach). reflexivity.
  - apply IHa. intros j s' c' Hreach. apply Hk, Hreach.
  - rewrite (Hk i s c (reaches_here i s)). reflexivity.
  - rewrite (Hk i s c (reaches_here i s)). reflexivity.
  - destruct (run icase caps a i s c (fun _ _ c' => Some c')) as [c'|]; [|reflexivity].
    apply Hk, reaches_here.
  - destruct (get_cap n c) as [t|]; [|apply Hk, reaches_here].
    destruct (starts_with_ci icase (chars t) s) eqn:Hstarts; [|reflexivity].
    apply Hk. apply starts_with_ci_length in Hstarts.
    unfold reaches. replace (i + List.length (chars t) - i) with (List.length (chars t)) by lia.
    repeat split; lia.
Qed.

(** The fuel of a quantifier is never used up: each iteration moves
    forward, so that any amount of fuel above the length of the input
    gives the same result. *)
Lemma star_loop_fuel (icase : bool) (A : Type) (greedy : bool) (a : re)
    (k : nat -> list ascii -> caps -> option A) :
  forall fuel fuel' i s c,
    List.length s < fuel ->
    List.length s < fuel' ->
    star_loop A greedy
      (fun i s c k' => run icase A a i s (clear_caps (groups_of a) c) k') k fuel i s c
    = star_loop A greedy
        (fun i s c k' => run icase A a i s (clear_caps (groups_of a) c) k') k fuel' i s c.
Proof.
  induction fuel as [|fuel IH]; intros fuel' i s c Hfuel Hfuel'; [lia|].
  destruct fuel' as [|fuel']; [lia|]. cbn [star_loop].
  rewrite (run_local icase A a i s (clear_caps (groups_of a) c)
             (fun j s' c' =>
                if Nat.eqb j i then None
                else star_loop A greedy
                       (fun i s c k' => run icase A a i s (clear_caps (groups_of a) c) k')
                       k fuel j s' c')
             (fun j s' c' =>
                if Nat.eqb j i then None
                else star_loop A greedy
                       (fun i s c k' => run icase A a i s (clear_caps (groups_of a) c) k')
                       k fuel' j s' c')).
  - reflexivity.
  - intros j s' c' Hreach. destruct (Nat.eqb_spec j i) as [|Hne]; [reflexivity|].
    pose proof (reaches_shorter _ _ _ _ Hreach Hne). apply IH; lia.
Qed.

(** ** The matcher on quantified single characters *)

Lemma run_atom (icase : bool) (A : Type) (a : re) (i : nat) (s : list ascii)
    (c : caps) (k : nat -> list ascii -> caps -> option A) :
  is_atom a = true ->
  run icase A a i s c k
  = match s with
    | x :: s' => if accepts icase a x then k (S i) s' c else None
    | [] => None
    end.
Proof.
  destruct a; try discriminate; intros _; simpl; destruct s as [|x s']; try reflexivity.
  destruct (is_line_terminator x); reflexivity.
Qed.

Lemma groups_of_atom (a : re) : is_atom a = true -> groups_of a = [].
Proof. destruct a; try discriminate; reflexivity. Qed.

Lemma greedy_span_ext {A : Type} (p : ascii -> bool) (s : list ascii) :
  forall (i : nat) (k k' : nat -> list ascii -> option A),
    (forall j s', k j s' = k' j s') ->
    greedy_span p i s k = greedy_span p i s k'.
Proof.
  induction s as [|x s IH]; intros i k k' Hk; simpl; [apply Hk|].
  rewrite (IH (S i) k k' Hk), Hk. reflexivity.
Qed.

Lemma lazy_span_ext {A : Type} (p : ascii -> bool) (s : list ascii) :
  forall (i : nat) (k k' : nat -> list ascii -> option A),
    (forall j s', k j s' = k' j s') ->
    lazy_span p i s k = lazy_span p i s k'.
Proof.
  induction s as [|x s IH]; intros i k k' Hk; simpl; rewrite Hk; [reflexivity|].
  rewrite (IH (S i) k k' Hk). reflexivity.
Qed.

Section Loop.
Variable A : Type.
Variable p : ascii -> bool.
Variable step : nat -> list ascii -> caps -> (nat -> list ascii -> caps -> option A) -> option A.
Variable k : nat -> list ascii -> caps -> option A.
Hypothesis step_one :
  forall i s c k',
    step i s c k'
    = match s with
      | x :: s' => if p x then k' (S i) s' c else None
      | [] => None
      end.

(** With enough fuel the greedy loop on one-character steps tries the
    longest run first. *)
Lemma star_loop_greedy (fuel : nat) :
  forall i s c, List.length s < fuel ->
    star_loop A true step k fuel i s c = greedy_span p i s (fun j s' => k j s' c).
Proof using step_one.
  induction fuel as [|fuel IH]; intros i s c Hfuel; [lia|].
  cbn [star_loop]. rewrite step_one.
  destruct s as [|x s']; cbn [greedy_span]; [reflexivity|].
  destruct (p x); [|reflexivity].
  replace (Nat.eqb (S i) i) with false by (symmetry; apply Nat.eqb_neq; lia).
  rewrite IH by (simpl in Hfuel; lia). reflexivity.
Qed.

(** With enough fuel the lazy loop tries the shortest run first. *)
Lemma star_loop_lazy (fuel : nat) :
  forall i s c, List.length s < fuel ->
    star_loop A false step k fuel i s c = lazy_span p i s (fun j s' => k j s' c).
Proof using step_one.
  induction fuel as [|fuel IH]; intros i s c Hfuel; [lia|].
  cbn [star_loop]. rewrite step_one. destruct s as [|x s']; cbn [lazy_span].
  - reflexivity.
  - destruct (k i (x :: s') c); [reflexivity|].
    destruct (p x); [|reflexivity].
    replace (Nat.eqb (S i) i) with false by (symmetry; apply Nat.eqb_neq; lia).
    rewrite IH by (simpl in Hfuel; lia). reflexivity.
Qed.

End Loop.

Lemma run_star_greedy (icase : bool) (A : Type) (a : re) (i : nat) (s : list ascii)
    (c : caps) (k : nat -> list ascii -> caps -> option A) :
  is_atom a = true ->
  run icase A (Star true a) i s c k
  = greedy_span (accepts icase a) i s (fun j s' => k j s' c).
Proof.
  intros Ha. cbn [run]. apply star_loop_greedy; [|lia].
  intros j s' c' k'. rewrite (groups_of_atom a Ha). simpl. apply run_atom, Ha.
Qed.

Lemma run_star_lazy (icase : bool) (A : Type) (a : re) (i : nat) (s : list ascii)
    (c : caps) (k : nat -> list ascii -> caps -> option A) :
  is_atom a = true ->
  run icase A (Star false a) i s c k
  = lazy_span (accepts icase a) i s (fun j s' => k j s' c).
Proof.
  intros Ha. cbn [run]. apply star_loop_lazy; [|lia].
  intros j s' c' k'. rewrite (groups_of_atom a Ha). simpl. apply run_atom, Ha.
Qed.

(** ** The unit conversions *)

(** After the zeros, the end of the text: the greedy loop succeeds exactly
    when only zeros are left. *)
Lemma greedy_zeros_to_end {A : Type} (s : list ascii) :
  forall (i : nat) (k : nat -> option A),
    greedy_span (Ascii.eqb "0") i s
      (fun j s' => match s' with [] => k j | _ :: _ => None end)
    = if forallb (Ascii.eqb "0") s then k (i + List.length s) else None.
Proof.
  induction s as [|x s IH]; intros i k; cbn [greedy_span forallb List.length].
  - rewrite Nat.add_0_r. reflexivity.
  - destruct (Ascii.eqb "0" x); cbn [andb]; [|reflexivity].
    rewrite IH. replace (S i + List.length s) with (i + S (List.length s)) by lia.
    destruct (forallb (Ascii.eqb "0") s); [destruct (k _)|]; reflexivity.
Qed.

(** The pattern [0+$]. *)
Lemma run_zeros {A : Type} (i : nat) (s : list ascii) (c : caps)
    (k : nat -> list ascii -> caps -> option A) :
  run false A (Seq (Plus true (Chr "0")) Eol) i s c k
  = if zeros s then k (i + List.length s) [] c else None.
Proof.
  unfold Plus. cbn [run]. destruct s as [|x s]; [reflexivity|].
  unfold chr_eq. cbn [zeros forallb List.length].
  destruct (Ascii.eqb "0" x); cbn [andb]; [|reflexivity].
  change (star_loop A true _ _ _ (S i) s c)
    with (run false A (Star true (Chr "0")) (S i) s c
            (fun j s' c' => match s' with [] => k j s' c' | _ :: _ => None end)).
  rewrite run_star_greedy by reflexivity.
  change (accepts false (Chr "0")) with (Ascii.eqb "0").
  rewrite (greedy_span_ext _ s (S i) _
             (fun j s' => match s' with [] => k j [] c | _ :: _ => None end))
    by (intros j [|y s']; reflexivity).
  rewrite (greedy_zeros_to_end s (S i) (fun j => k j [] c)).
  replace (S i + List.length s) with (i + S (List.length s)) by lia. reflexivity.
Qed.

Lemma zeros_not_point (t : list ascii) : zeros ("."%char :: t) = false.
Proof. reflexivity. Qed.

(** Where [RE_trailingZeros] matches: at a place from which zeros follow
    to the end, after at most one decimal point. *)
Lemma match_at_trailingZeros (i : nat) (s : list ascii) :
  match_at RE_trailingZeros i s
  = if zeros_tail s then Some (RMatch i (i + List.length s) (of_chars s) []) else None.
Proof.
  set (kfin := fun (j : nat) (_ : list ascii) (_ : caps) =>
                 Some (RMatch i j (of_chars (firstn (j - i) s)) [])).
  set (K := fun j s' c' => run false rmatch (Seq (Plus true (Chr "0")) Eol) j s' c' kfin).
  assert (HK : forall j s' c',
             K j s' c' = if zeros s' then kfin (j + List.length s') [] c' else None)
    by (intros; apply run_zeros).
  change (match_at RE_trailingZeros i s)
    with (run false rmatch (Opt true (Chr ".")) i s [] K).
  assert (Hall : forall n, firstn (i + n - i) s = firstn n s)
    by (intros n; f_equal; lia).
  cbn [run groups_of clear_caps fold_right]. destruct s as [|x t].
  - rewrite HK. reflexivity.
  - unfold chr_eq. destruct (Ascii.eqb_spec "." x) as [<-|Hx].
    + replace (Nat.eqb (S i) i) with false by (symmetry; apply Nat.eqb_neq; lia).
      rewrite !HK. cbn [zeros_tail]. rewrite zeros_not_point.
      destruct (zeros t); [|reflexivity].
      unfold kfin.
      replace (S i + List.length t) with (i + List.length ("."%char :: t)) by (simpl; lia).
      rewrite Hall, firstn_all. reflexivity.
    + rewrite HK.
      replace (zeros_tail (x :: t)) with (zeros (x :: t)).
      * destruct (zeros (x :: t)); [|reflexivity].
        unfold kfin. rewrite Hall, firstn_all. reflexivity.
      * unfold zeros_tail. destruct x as [[] [] [] [] [] [] [] []]; try reflexivity.
        contradiction Hx; reflexivity.
Qed.

(** The leftmost match cuts the text where [strip_zeros_l] cuts it, and
    ends where the text ends. *)
Lemma search_trailingZeros (s : list ascii) :
  forall i,
    match search RE_trailingZeros i s with
    | None => strip_zeros_l s = s
    | Some m =>
        i <= m_index m
        /\ firstn (m_index m - i) s = strip_zeros_l s
        /\ m_end m = i + List.length s
    end.
Proof.
  induction s as [|c s IH]; intros i; cbn [search]; rewrite match_at_trailingZeros.
  - reflexivity.
  - cbn [strip_zeros_l]. destruct (zeros_tail (c :: s)).
    + cbn [m_index m_end]. rewrite Nat.sub_diag. repeat split; lia.
    + specialize (IH (S i)). destruct (search RE_trailingZeros (S i) s) as [m|].
      * destruct IH as (Hle & Hcut & Hend). split; [lia|]. split.
        -- replace (m_index m - i) with (S (m_index m - S i)) by lia.
           cbn [firstn]. rewrite Hcut. reflexivity.
        -- rewrite Hend. simpl. lia.
      * rewrite IH. reflexivity.
Qed.

Lemma append_empty_r (s : string) : s ++ "" = s.
Proof.
  induction s as [|c s IH]; [reflexivity|].
  change (String c (s ++ "") = String c s). rewrite IH. reflexivity.
Qed.

(** Removing the match of [RE_trailingZeros] strips the trailing zeros. *)
Lemma replace_trailingZeros (s : string) :
  replace_one RE_trailingZeros s "" = strip_trailing_zeros s.
Proof.
  unfold replace_one, exec, strip_trailing_zeros.
  pose proof (search_trailingZeros (chars s) 0) as Hs.
  destruct (search RE_trailingZeros 0 (chars s)) as [m|].
  - destruct Hs as (_ & Hcut & Hend).
    cbn [splice]. rewrite Hcut, Hend. cbn [Nat.add].
    rewrite Nat.sub_0_r, skipn_all.
    unfold substitution. cbn. rewrite append_empty_r. reflexivity.
  - rewrite Hs. symmetry. apply of_chars_chars.
Qed.

(** [round_half_up p q] is the integer nearest to [p / q], the upper one
    of two that are equally near. *)
Lemma round_half_up_nearest (p q : Z) :
  (0 < q)%Z ->
  (2 * p - q < 2 * q * round_half_up p q <= 2 * p + q)%Z.
Proof.
  intros Hq. unfold round_half_up.
  pose proof (Z.mul_div_le (2 * p + q) (2 * q) ltac:(lia)).
  pose proof (Z.mul_succ_div_gt (2 * p + q) (2 * q) ltac:(lia)).
  lia.
Qed.

(** A finite number other than zero is a fraction with its sign. *)
Lemma to_ratio_finite (s : bool) (m : positive) (e : Z) :
  exists p q, to_ratio (S754_finite s m e) = Some (s, p, q) /\ (0 < p)%Z /\ (0 < q)%Z.
Proof.
  cbn [to_ratio]. destruct (0 <=? e)%Z eqn:He; eexists; eexists; (split; [reflexivity|]).
  - apply Z.leb_le in He. split; [|lia].
    apply Z.mul_pos_pos; [lia|]. apply Z.pow_pos_nonneg; lia.
  - apply Z.leb_gt in He. split; [lia|]. apply Z.pow_pos_nonneg; lia.
Qed.

(** C8 (as amended): for every input value and base font size, [remToPx]
    and [pxToRem] return absent when [parseFloat] of the value is not a
    number; otherwise [remToPx] returns the product of the value and the
    base, and [pxToRem] their quotient, written by [toFixed] with 2 and 4
    decimals, without the trailing zeros and the decimal point they leave.
    What [toFixed] writes, for every number: [NaN] and the infinities by
    name; zero as [0.00]; a finite number [p / q] of magnitude [10 ^ 21] or
    more as [String] writes it, in exponent notation; and a finite number
    below that, decimals not cut off, as its sign and the integer nearest
    to the magnitude times [10 ^ f], the larger one of two that are
    equally near, so that a tie goes away from zero. *)
Theorem conversions_round_to_nearest (v : value) (baseFontSize : option number) :
  (is_nan (parseFloat v) = true ->
     remToPx v baseFontSize = None /\ pxToRem v baseFontSize = None)
  /\ (is_nan (parseFloat v) = false ->
        remToPx v baseFontSize
        = Some (strip_trailing_zeros
                  (toFixed 2 (mul (parseFloat v) (default sixteen baseFontSize))))
        /\ pxToRem v baseFontSize
           = Some (strip_trailing_zeros
                     (toFixed 4 (div (parseFloat v) (default sixteen baseFontSize)))))
  /\ (forall (f : nat) (y : number),
        match y with
        | S754_nan => toFixed f y = "NaN"
        | S754_infinity s => toFixed f y = if s then "-Infinity" else "Infinity"
        | S754_zero _ =>
            toFixed f y = match f with O => "0" | _ => "0." ++ repeat_string f "0" end
        | S754_finite s _ _ =>
            exists p q,
              to_ratio y = Some (s, p, q) /\ (0 < p)%Z /\ (0 < q)%Z
              /\ if (q * 10 ^ 21 <=? p)%Z then toFixed f y = to_string y
                 else toFixed f y
                      = (if s then "-" else "")
                          ++ fixed_text f (round_half_up (p * 10 ^ Z.of_nat f) q)
                      /\ (2 * (p * 10 ^ Z.of_nat f) - q
                          < 2 * q * round_half_up (p * 10 ^ Z.of_nat f) q
                          <= 2 * (p * 10 ^ Z.of_nat f) + q)%Z
        end).
Proof.
  split; [|split].
  - intros Hnan. unfold remToPx, pxToRem. rewrite Hnan. split; reflexivity.
  - intros Hnum. unfold remToPx, pxToRem. rewrite Hnum, !replace_trailingZeros.
    split; reflexivity.
  - intros f [sx|sx| |sx m e]; try reflexivity.
    destruct (to_ratio_finite sx m e) as (p & q & Hratio & Hp & Hq).
    exists p, q. split; [exact Hratio|]. split; [exact Hp|]. split; [exact Hq|].
    unfold toFixed. rewrite Hratio.
    destruct (q * 10 ^ 21 <=? p)%Z; [reflexivity|].
    split; [reflexivity|]. apply round_half_up_nearest. exact Hq.
Qed.

(** ** The pattern of conditions *)

Lemma run_seq (icase : bool) (A : Type) (a b : re) (i : nat) (s : list ascii)
    (c : caps) (k : nat -> list ascii -> caps -> option A) :
  run icase A (Seq a b) i s c k
  = run icase A a i s c (fun j s' c' => run icase A b j s' c' k).
Proof. reflexivity. Qed.

Lemma run_group (icase : bool) (A : Type) (n : nat) (a : re) (i : nat)
    (s : list ascii) (c : caps) (k : nat -> list ascii -> caps -> option A) :
  run icase A (Group n a) i s c k
  = run icase A a i s c
      (fun j s' c' => k j s' (set_cap n (Some (of_chars (firstn (j - i) s))) c')).
Proof. reflexivity. Qed.

Lemma run_ws (A : Type) (b : re) (i : nat) (s : list ascii) (c : caps)
    (k : nat -> list ascii -> caps -> option A) :
  run false A (Seq ws b) i s c k
  = greedy_span (accepts false space) i s (fun j s' => run false A b j s' c k).
Proof. rewrite run_seq. unfold ws. apply run_star_greedy. reflexivity. Qed.

Lemma accepts_space (x : ascii) : accepts false space x = is_space x.
Proof.
  unfold accepts, space, set_has. cbn [existsb cls_has andb xorb].
  rewrite !orb_false_r. reflexivity.
Qed.

Lemma accepts_any (x : ascii) : accepts false Any x = negb (is_line_terminator x).
Proof. reflexivity. Qed.

Lemma firstn_added (A : Type) (i n : nat) (l : list A) :
  firstn (i + n - i) l = firstn n l.
Proof. f_equal. lia. Qed.

(** A greedy loop over code units that all qualify, before something that
    always matches, takes them all. *)
Lemma greedy_span_all {A : Type} (p : ascii -> bool) (g : nat -> A) (s : list ascii) :
  forall i,
    forallb p s = true ->
    greedy_span p i s (fun j _ => Some (g j)) = Some (g (i + List.length s)).
Proof.
  induction s as [|x s IH]; intros i Hall; cbn [greedy_span List.length].
  - rewrite Nat.add_0_r. reflexivity.
  - cbn [forallb] in Hall. apply andb_prop in Hall as [Hx Hs].
    rewrite Hx, (IH (S i) Hs). f_equal. f_equal. lia.
Qed.

Lemma one_line_cons (y : ascii) (t : list ascii) :
  one_line (y :: t) = true -> is_line_terminator y = false /\ one_line t = true.
Proof.
  unfold one_line. cbn [forallb]. intros Hy. apply andb_prop in Hy as [Hy Ht].
  split; [apply negb_true_iff, Hy | exact Ht].
Qed.

(** *** The first operator of a text *)

Lemma first_operator_here (sfx : list ascii) (op : string) (r : list ascii) :
  first_operator sfx = Some ([], op, r) ->
  operator_at sfx = Some op /\ r = skipn (String.length op) sfx.
Proof.
  destruct sfx as [|a t]; cbn [first_operator].
  - destruct (operator_at []) as [op'|]; [|discriminate].
    intros [= <- <-]. split; reflexivity.
  - destruct (operator_at (a :: t)) as [op'|].
    + intros [= <- <-]. split; reflexivity.
    + destruct (first_operator t) as [[[l' op'] r']|]; discriminate.
Qed.

Lemma first_operator_later (y y' : ascii) (l s : list ascii) (op : string)
    (r : list ascii) :
  first_operator (y :: s) = Some (y' :: l, op, r) ->
  operator_at (y :: s) = None /\ first_operator s = Some (l, op, r).
Proof.
  cbn [first_operator]. destruct (operator_at (y :: s)) as [op'|]; [discriminate|].
  destruct (first_operator s) as [[[l' op'] r']|]; [|discriminate].
  intros [= _ <- <- <-]. split; reflexivity.
Qed.

Lemma first_operator_absent (y : ascii) (s : list ascii) :
  first_operator (y :: s) = None ->
  operator_at (y :: s) = None /\ first_operator s = None.
Proof.
  cbn [first_operator]. destruct (operator_at (y :: s)) as [op'|]; [discriminate|].
  destruct (first_operator s) as [[[l' op'] r']|]; [discriminate|].
  intros _. split; reflexivity.
Qed.

(** The text is what stands before the operator, then the operator, then
    what stands after it. *)
Lemma first_operator_splits (s : list ascii) :
  forall l op r,
    first_operator s = Some (l, op, r) ->
    exists sfx, s = (l ++ sfx)%list /\ first_operator sfx = Some ([], op, r).
Proof.
  induction s as [|y s IH]; intros l op r Hfirst.
  - destruct l as [|y' l].
    + exists []. split; [reflexivity | exact Hfirst].
    + cbn [first_operator] in Hfirst.
      destruct (operator_at []); discriminate.
  - destruct l as [|y' l].
    + exists (y :: s). split; [reflexivity | exact Hfirst].
    + assert (Hy : y' = y).
      { cbn [first_operator] in Hfirst.
        destruct (operator_at (y :: s)); [discriminate|].
        destruct (first_operator s) as [[[l' op'] r']|]; [|discriminate].
        injection Hfirst as <- _ _ _. reflexivity. }
      subst y'. apply first_operator_later in Hfirst as [_ Hrest].
      destruct (IH l op r Hrest) as (sfx & -> & Hsfx).
      exists sfx. split; [reflexivity | exact Hsfx].
Qed.

(** An operator does not begin with white space. *)
Lemma operator_head (a : ascii) (t : list ascii) (op : string) :
  operator_at (a :: t) = Some op -> is_space a = false.
Proof.
  unfold operator_at, operators. cbn [List.find chars list_ascii_of_string starts_with_l].
  destruct (Ascii.eqb ">" a) eqn:Hgt, (Ascii.eqb "<" a) eqn:Hlt, (Ascii.eqb "=" a) eqn:Heq;
    cbn; try discriminate; intros _;
    repeat match goal with
           | Hc : Ascii.eqb _ _ = true |- _ => apply Ascii.eqb_eq in Hc
           end;
    subst; reflexivity || congruence.
Qed.

Lemma first_operator_suffix (l sfx : list ascii) (op : string) (r : list ascii) :
  first_operator (l ++ sfx)%list = Some (l, op, r) ->
  first_operator sfx = Some ([], op, r).
Proof.
  induction l as [|y l IH]; intros Hfirst; [exact Hfirst|].
  cbn [app] in Hfirst. apply first_operator_later in Hfirst as [_ Hrest]. exact (IH Hrest).
Qed.

Lemma starts_with_l_length (p s : list ascii) :
  starts_with_l p s = true -> List.length p <= List.length s.
Proof.
  revert s. induction p as [|a p IH]; intros [|b s] Hp; cbn in *; try lia; try discriminate.
  apply andb_prop in Hp as [_ Hp]. specialize (IH s Hp). lia.
Qed.

Lemma operator_length (sfx : list ascii) (op : string) :
  operator_at sfx = Some op ->
  List.length sfx = String.length op + List.length (skipn (String.length op) sfx).
Proof.
  intros Hop. apply find_some in Hop as [_ Hstarts].
  apply starts_with_l_length in Hstarts. rewrite length_chars in Hstarts.
  rewrite length_skipn. lia.
Qed.

Lemma one_line_app (a b : list ascii) :
  one_line (a ++ b)%list = true -> one_line a = true /\ one_line b = true.
Proof. unfold one_line. rewrite forallb_app. apply andb_prop. Qed.

Lemma one_line_skipn (n : nat) :
  forall s, one_line s = true -> one_line (skipn n s) = true.
Proof.
  induction n as [|n IH]; intros [|y s] Hline; try exact Hline.
  apply IH. apply (one_line_cons y), Hline.
Qed.

Lemma firstn_without_trailing_space (l sfx : list ascii) :
  firstn (List.length (without_trailing_space l)) (l ++ sfx)%list
  = without_trailing_space l.
Proof.
  induction l as [|y l IH]; [reflexivity|].
  cbn [without_trailing_space]. destruct (forallb is_space (y :: l)); [reflexivity|].
  cbn [List.length app firstn]. rewrite IH. reflexivity.
Qed.

Lemma lazy_span_here {A : Type} (p : ascii -> bool) (i : nat) (s : list ascii)
    (k : nat -> list ascii -> option A) (x : A) :
  k i s = Some x -> lazy_span p i s k = Some x.
Proof. intros Hk. destruct s; cbn [lazy_span]; rewrite Hk; reflexivity. Qed.

Section Comparison.

(** What the match is built from at the end: the position reached and the
    captures. *)
Variable f : nat -> caps -> rmatch.

Variable kfin : nat -> list ascii -> caps -> option rmatch.
Hypothesis kfin_builds : forall j s c, kfin j s c = Some (f j c).

(** The right operand takes the rest of a line. *)
Lemma run_right (q : nat) (t : list ascii) (c : caps) :
  one_line t = true ->
  run false rmatch right_pattern q t c kfin
  = match t with
    | [] => None
    | _ :: _ => Some (f (q + List.length t) (set_cap 3 (Some (of_chars t)) c))
    end.
Proof.
  intros Hline. unfold right_pattern. rewrite run_group. unfold Plus. rewrite run_seq.
  destruct t as [|y t']; [reflexivity|].
  apply one_line_cons in Hline as [Hy Ht].
  rewrite run_atom by reflexivity. rewrite accepts_any, Hy. cbn [negb].
  rewrite run_star_greedy by reflexivity.
  rewrite (greedy_span_ext _ t' (S q) _
             (fun j _ => Some (f j (set_cap 3 (Some (of_chars (firstn (j - q) (y :: t')))) c))))
    by (intros; apply kfin_builds).
  rewrite (greedy_span_all (accepts false Any)
             (fun j => f j (set_cap 3 (Some (of_chars (firstn (j - q) (y :: t')))) c))).
  - replace (S q + List.length t') with (q + List.length (y :: t')) by (simpl; lia).
    rewrite firstn_added, firstn_all. reflexivity.
  - exact Ht.
Qed.

(** After an operator: white space, then the right operand. *)
Lemma run_space_right (r : list ascii) :
  forall (q : nat) (c : caps),
    r <> [] ->
    one_line r = true ->
    run false rmatch (Seq ws right_pattern) q r c kfin
    = Some (f (q + List.length r) (set_cap 3 (Some (of_chars (right_operand r))) c)).
Proof.
  intros q c Hr Hline. rewrite run_ws.
  revert q Hr Hline. induction r as [|y t IH]; intros q Hr Hline; [contradiction|].
  cbn [greedy_span right_operand]. rewrite accepts_space.
  destruct (is_space y) eqn:Hy.
  - destruct t as [|z t'].
    + cbn [greedy_span]. rewrite !run_right by (exact Hline || reflexivity).
      reflexivity.
    + rewrite IH; [|discriminate|apply (one_line_cons y), Hline].
      f_equal. f_equal. simpl. lia.
  - rewrite run_right by exact Hline. reflexivity.
Qed.

(** Where no operator stands, the operator pattern fails. *)
Lemma run_no_operator (A : Type) (o : nat) (so : list ascii) (c : caps)
    (k : nat -> list ascii -> caps -> option A) :
  operator_at so = None ->
  run false A operator_pattern o so c k = None.
Proof.
  unfold operator_at, operators. cbn [List.find chars list_ascii_of_string starts_with_l].
  intros Hnone. unfold operator_pattern. rewrite run_group.
  cbn [alts lit seqs map chars list_ascii_of_string run]. unfold chr_eq.
  destruct so as [|a [|b t]]; [reflexivity| |].
  - destruct (Ascii.eqb ">" a), (Ascii.eqb "<" a), (Ascii.eqb "=" a);
      cbn in Hnone |- *; congruence.
  - destruct (Ascii.eqb ">" a), (Ascii.eqb "<" a), (Ascii.eqb "=" a), (Ascii.eqb "=" b);
      cbn in Hnone |- *; congruence.
Qed.

(** Where an operator stands, the operator pattern takes it, when what
    follows the pattern matches after it. *)
Lemma run_operator (A : Type) (o : nat) (so : list ascii) (c : caps)
    (k : nat -> list ascii -> caps -> option A) (op : string) (x : A) :
  operator_at so = Some op ->
  k (o + String.length op) (skipn (String.length op) so) (set_cap 2 (Some op) c) = Some x ->
  run false A operator_pattern o so c k = Some x.
Proof.
  unfold operator_at, operators. cbn [List.find chars list_ascii_of_string starts_with_l].
  intros Hop Hk. unfold operator_pattern. rewrite run_group.
  cbn [alts lit seqs map chars list_ascii_of_string run]. unfold chr_eq.
  replace (S (S o) - o) with 2 by lia. replace (S o - o) with 1 by lia.
  assert (Htwo : o + 2 = S (S o)) by lia.
  destruct so as [|a [|b t]]; [discriminate| |].
  - destruct (Ascii.eqb ">" a) eqn:Hgt, (Ascii.eqb "<" a) eqn:Hlt, (Ascii.eqb "=" a) eqn:Heq;
      cbn in Hop |- *; try discriminate; injection Hop as <-;
      repeat match goal with
             | Hc : Ascii.eqb _ _ = true |- _ => apply Ascii.eqb_eq in Hc
             end;
      subst; try congruence;
      cbn in Hk; rewrite ?Nat.add_1_r, ?Htwo, ?skipn_O in Hk;
      rewrite ?firstn_O; cbn [string_of_list_ascii]; rewrite Hk; reflexivity.
  - destruct (Ascii.eqb ">" a) eqn:Hgt, (Ascii.eqb "<" a) eqn:Hlt, (Ascii.eqb "=" a) eqn:Heq,
             (Ascii.eqb "=" b) eqn:Heq';
      cbn in Hop |- *; try discriminate; injection Hop as <-;
      repeat match goal with
             | Hc : Ascii.eqb _ _ = true |- _ => apply Ascii.eqb_eq in Hc
             end;
      subst; try congruence;
      cbn in Hk; rewrite ?Nat.add_1_r, ?Htwo, ?skipn_O in Hk;
      rewrite ?firstn_O; cbn [string_of_list_ascii]; rewrite Hk; reflexivity.
Qed.

(** An operator, white space, the right operand. *)
Lemma run_operator_right (o : nat) (sfx : list ascii) (c : caps) (op : string)
    (r : list ascii) :
  first_operator sfx = Some ([], op, r) ->
  r <> [] ->
  one_line r = true ->
  run false rmatch (Seq operator_pattern (Seq ws right_pattern)) o sfx c kfin
  = Some (f (o + String.length op + List.length r)
            (set_cap 3 (Some (of_chars (right_operand r))) (set_cap 2 (Some op) c))).
Proof.
  intros Hfirst Hr Hline. apply first_operator_here in Hfirst as [Hop Hrest].
  rewrite run_seq. apply (run_operator _ _ _ _ _ op); [exact Hop|].
  rewrite <- Hrest. apply run_space_right; assumption.
Qed.

(** White space is passed on the way to an operator. *)
Lemma greedy_space_operator (wsl sfx : list ascii) (c : caps) (op : string)
    (r : list ascii) :
  forall p,
    forallb is_space wsl = true ->
    first_operator sfx = Some ([], op, r) ->
    r <> [] ->
    one_line r = true ->
    greedy_span (accepts false space) p (wsl ++ sfx)%list
      (fun j s' => run false rmatch (Seq operator_pattern (Seq ws right_pattern)) j s' c kfin)
    = Some (f (p + List.length wsl + String.length op + List.length r)
              (set_cap 3 (Some (of_chars (right_operand r))) (set_cap 2 (Some op) c))).
Proof.
  induction wsl as [|w wsl IH]; intros p Hws Hfirst Hr Hline.
  - cbn [app List.length]. rewrite Nat.add_0_r.
    assert (Hhere : run false rmatch (Seq operator_pattern (Seq ws right_pattern)) p sfx c kfin
                    = Some (f (p + String.length op + List.length r)
                              (set_cap 3 (Some (of_chars (right_operand r)))
                                 (set_cap 2 (Some op) c))))
      by (apply run_operator_right; assumption).
    destruct sfx as [|a t]; cbn [greedy_span]; [exact Hhere|].
    rewrite accepts_space.
    apply first_operator_here in Hfirst as [Hop _].
    rewrite (operator_head a t op Hop). exact Hhere.
  - cbn [forallb] in Hws. apply andb_prop in Hws as [Hw Hws].
    cbn [app greedy_span List.length]. rewrite accepts_space, Hw.
    rewrite (IH (S p) Hws Hfirst Hr Hline). f_equal. f_equal. lia.
Qed.

(** White space that ends before the operator leads nowhere. *)
Lemma greedy_space_no_operator (A : Type) (l sfx : list ascii) (c : caps) (op : string)
    (r : list ascii) (b : re) (k : nat -> list ascii -> caps -> option A) :
  forall p,
    forallb is_space l = false ->
    first_operator (l ++ sfx)%list = Some (l, op, r) ->
    greedy_span (accepts false space) p (l ++ sfx)%list
      (fun j s' => run false A (Seq operator_pattern b) j s' c k)
    = None.
Proof.
  induction l as [|y l IH]; intros p Hnot Hfirst; [discriminate|].
  cbn [app] in Hfirst |- *. apply first_operator_later in Hfirst as [Hnone Hrest].
  assert (Hhere : run false A (Seq operator_pattern b) p (y :: l ++ sfx)%list c k = None)
    by (rewrite run_seq; apply run_no_operator, Hnone).
  cbn [greedy_span]. rewrite accepts_space, Hhere.
  destruct (is_space y) eqn:Hy; [|reflexivity].
  cbn [forallb] in Hnot. rewrite Hy in Hnot. cbn [andb] in Hnot.
  rewrite (IH (S p) Hnot Hrest). reflexivity.
Qed.

(** The left operand is the shortest text followed by white space and the
    operator: it ends where the white space before the operator starts. *)
Lemma lazy_left_operand (l sfx : list ascii) (cap : nat -> caps) (op : string)
    (r : list ascii) :
  forall i,
    first_operator (l ++ sfx)%list = Some (l, op, r) ->
    r <> [] ->
    one_line l = true ->
    one_line r = true ->
    lazy_span (accepts false Any) i (l ++ sfx)%list
      (fun j s' =>
         run false rmatch (Seq ws (Seq operator_pattern (Seq ws right_pattern)))
           j s' (cap j) kfin)
    = Some (f (i + List.length l + String.length op + List.length r)
              (set_cap 3 (Some (of_chars (right_operand r)))
                 (set_cap 2 (Some op)
                    (cap (i + List.length (without_trailing_space l)))))).
Proof.
  induction l as [|y l IH]; intros i Hfirst Hr Hl Hline.
  - apply lazy_span_here. cbv beta. rewrite run_ws.
    cbn [without_trailing_space List.length]. rewrite !Nat.add_0_r.
    rewrite (greedy_space_operator [] sfx (cap i) op r i eq_refl Hfirst Hr Hline).
    cbn [List.length]. rewrite Nat.add_0_r. reflexivity.
  - cbn [without_trailing_space]. destruct (forallb is_space (y :: l)) eqn:Hall.
    + apply lazy_span_here. cbv beta. rewrite run_ws.
      rewrite (greedy_space_operator (y :: l) sfx (cap i) op r i Hall
                 (first_operator_suffix _ _ _ _ Hfirst) Hr Hline).
      cbn [List.length]. rewrite Nat.add_0_r. reflexivity.
    + assert (Hhere :
        run false rmatch (Seq ws (Seq operator_pattern (Seq ws right_pattern)))
          i ((y :: l) ++ sfx)%list (cap i) kfin = None).
      { rewrite run_ws.
        apply (greedy_space_no_operator _ _ _ _ op r); assumption. }
      apply one_line_cons in Hl as [Hy Hl].
      cbn [app] in Hfirst, Hhere |- *. cbn [lazy_span]. rewrite Hhere.
      rewrite accepts_any, Hy. cbn [negb].
      apply first_operator_later in Hfirst as [_ Hrest].
      rewrite (IH (S i) Hrest Hr Hl Hline). cbn [List.length]. f_equal. f_equal; [lia|].
      f_equal. f_equal. f_equal. lia.
Qed.

End Comparison.

(** The match of [RE_comparison] on one line of text with an operator that
    has something before it and something after it: the match starts with
    the text, the left operand ends where the white space before the first
    operator starts, and the right operand is the rest. *)
Lemma match_at_comparison (x : ascii) (l sfx : list ascii) (op : string)
    (r : list ascii) :
  first_operator (x :: l ++ sfx)%list = Some (x :: l, op, r) ->
  r <> [] ->
  one_line (x :: l ++ sfx)%list = true ->
  match_at RE_comparison 0 (x :: l ++ sfx)%list
  = Some (RMatch 0 (List.length (x :: l ++ sfx)%list) (of_chars (x :: l ++ sfx)%list)
            [Some (of_chars (x :: without_trailing_space l)); Some op;
             Some (of_chars (right_operand r))]).
Proof.
  intros Hfirst Hr Hline.
  set (s := (x :: l ++ sfx)%list) in *.
  set (build := fun (j : nat) (c : caps) =>
                  RMatch 0 j (of_chars (firstn (j - 0) s))
                    (map (fun n => get_cap n c) (seq 1 3))).
  set (kfin := fun (j : nat) (_ : list ascii) (c : caps) => Some (build j c)).
  change (match_at RE_comparison 0 s)
    with (run false rmatch
            (Seq (Group 1 (Plus false Any))
               (Seq ws (Seq operator_pattern (Seq ws right_pattern))))
            0 s [] kfin).
  apply first_operator_later in Hfirst as [_ Hrest].
  pose proof (first_operator_suffix _ _ _ _ Hrest) as Hsfx.
  apply one_line_cons in Hline as [Hx Hline].
  apply one_line_app in Hline as [Hl Hright].
  assert (Hrline : one_line r = true).
  { apply first_operator_here in Hsfx as [_ ->]. apply one_line_skipn, Hright. }
  assert (Hlength : List.length sfx = String.length op + List.length r).
  { apply first_operator_here in Hsfx as [Hop ->]. apply operator_length, Hop. }
  rewrite run_seq, run_group. unfold Plus. rewrite run_seq.
  unfold s at 1. rewrite run_atom by reflexivity. rewrite accepts_any, Hx. cbn [negb].
  rewrite run_star_lazy by reflexivity. cbv beta.
  rewrite (lazy_left_operand build kfin (fun _ _ _ => eq_refl) l sfx
             (fun j => set_cap 1 (Some (of_chars (firstn (j - 0) s))) [])
             op r 1 Hrest Hr Hl Hrline).
  unfold build. f_equal. f_equal.
  - unfold s. cbn [List.length]. rewrite length_app. lia.
  - rewrite Nat.sub_0_r. rewrite firstn_all2; [reflexivity|].
    unfold s. cbn [List.length]. rewrite length_app. lia.
  - cbn [seq map get_cap set_cap Nat.eqb]. rewrite Nat.sub_0_r.
    unfold s. cbn [Nat.add firstn]. rewrite firstn_without_trailing_space. reflexivity.
Qed.

(** Without an operator the pattern matches nowhere. *)
Lemma greedy_no_operator (A : Type) (b : re) (k : nat -> list ascii -> caps -> option A)
    (t : list ascii) :
  forall c p,
    first_operator t = None ->
    greedy_span (accepts false space) p t
      (fun j s' => run false A (Seq operator_pattern b) j s' c k)
    = None.
Proof.
  induction t as [|z t IH]; intros c p Hnone; cbn [greedy_span].
  - rewrite run_seq, run_no_operator by reflexivity. reflexivity.
  - apply first_operator_absent in Hnone as [Hz Hnone].
    rewrite (IH c (S p) Hnone), run_seq, (run_no_operator _ _ _ _ _ Hz).
    destruct (accepts false space z); reflexivity.
Qed.

Lemma lazy_no_operator (A : Type) (b : re) (k : nat -> list ascii -> caps -> option A)
    (cap : nat -> caps) (s : list ascii) :
  forall j,
    first_operator s = None ->
    lazy_span (accepts false Any) j s
      (fun j s' => run false A (Seq ws (Seq operator_pattern b)) j s' (cap j) k)
    = None.
Proof.
  induction s as [|y s IH]; intros j Hnone; cbn [lazy_span]; rewrite run_ws;
    rewrite (greedy_no_operator _ _ _ _ _ _ Hnone); [reflexivity|].
  apply first_operator_absent in Hnone as [_ Hnone].
  destruct (accepts false Any y); [|reflexivity].
  apply IH, Hnone.
Qed.

Lemma match_at_no_operator (s : list ascii) (i : nat) :
  first_operator s = None -> match_at RE_comparison i s = None.
Proof.
  intros Hnone.
  set (kfin := fun (j : nat) (_ : list ascii) (c : caps) =>
                 Some (RMatch i j (of_chars (firstn (j - i) s))
                         (map (fun n => get_cap n c) (seq 1 3)))).
  change (match_at RE_comparison i s)
    with (run false rmatch
            (Seq (Group 1 (Plus false Any))
               (Seq ws (Seq operator_pattern (Seq ws right_pattern))))
            i s [] kfin).
  rewrite run_seq, run_group. unfold Plus. rewrite run_seq.
  rewrite run_atom by reflexivity. destruct s as [|x s']; [reflexivity|].
  destruct (accepts false Any x); [|reflexivity].
  apply first_operator_absent in Hnone as [_ Hnone].
  rewrite run_star_lazy by reflexivity. cbv beta.
  apply (lazy_no_operator rmatch (Seq ws right_pattern) kfin
           (fun j => set_cap 1 (Some (of_chars (firstn (j - i) (x :: s')))) [])).
  exact Hnone.
Qed.

Lemma search_no_operator (s : list ascii) :
  forall i, first_operator s = None -> search RE_comparison i s = None.
Proof.
  induction s as [|y s IH]; intros i Hnone; cbn [search];
    rewrite (match_at_no_operator _ i Hnone); [reflexivity|].
  apply first_operator_absent in Hnone as [_ Hnone]. apply IH, Hnone.
Qed.

(** *** Trimming the operands *)

Lemma drop_space_all (w : list ascii) : forallb is_space w = true -> drop_space w = [].
Proof.
  induction w as [|y w IH]; [reflexivity|]. cbn [forallb drop_space].
  intros Hw. apply andb_prop in Hw as [-> Hw]. exact (IH Hw).
Qed.

Lemma drop_space_app (a w : list ascii) :
  drop_space (a ++ w)%list
  = if forallb is_space a then drop_space w else (drop_space a ++ w)%list.
Proof.
  induction a as [|y a IH]; [reflexivity|].
  cbn [app drop_space forallb]. destruct (is_space y); [exact IH | reflexivity].
Qed.

Lemma drop_space_idempotent (l : list ascii) : drop_space (drop_space l) = drop_space l.
Proof.
  induction l as [|y l IH]; [reflexivity|].
  cbn [drop_space]. destruct (is_space y) eqn:Hy; [exact IH|].
  cbn [drop_space]. rewrite Hy. reflexivity.
Qed.

Lemma forallb_rev_space (w : list ascii) :
  forallb is_space w = true -> forallb is_space (rev w) = true.
Proof.
  rewrite !forallb_forall. intros Hw x Hx. apply Hw, in_rev, Hx.
Qed.

Lemma trim_of_chars (l : list ascii) :
  trim (of_chars l) = of_chars (rev (drop_space (rev (drop_space l)))).
Proof. unfold trim. rewrite chars_of_chars. reflexivity. Qed.

(** White space at the end does not survive trimming. *)
Lemma trim_trailing_space (a w : list ascii) :
  forallb is_space w = true ->
  trim (of_chars (a ++ w)%list) = trim (of_chars a).
Proof.
  intros Hw. rewrite !trim_of_chars, drop_space_app, (drop_space_all w Hw).
  destruct (forallb is_space a) eqn:Ha.
  - rewrite (drop_space_all a Ha). reflexivity.
  - rewrite rev_app_distr, drop_space_app, (forallb_rev_space w Hw). reflexivity.
Qed.

Lemma trim_space (w : list ascii) : forallb is_space w = true -> trim (of_chars w) = "".
Proof. intros Hw. rewrite trim_of_chars, (drop_space_all w Hw). reflexivity. Qed.

Lemma trailing_space (l : list ascii) :
  exists w, l = (without_trailing_space l ++ w)%list /\ forallb is_space w = true.
Proof.
  induction l as [|y l (w & Hl & Hw)]; [exists []; split; reflexivity|].
  cbn [without_trailing_space]. destruct (forallb is_space (y :: l)) eqn:Hall.
  - exists (y :: l). split; [reflexivity | exact Hall].
  - exists w. split; [|exact Hw]. cbn [app]. rewrite <- Hl. reflexivity.
Qed.

Lemma trim_left_operand (x : ascii) (l : list ascii) :
  trim (of_chars (x :: without_trailing_space l)) = trim (of_chars (x :: l)).
Proof.
  destruct (trailing_space l) as (w & Hl & Hw).
  rewrite Hl at 2. symmetry. exact (trim_trailing_space (x :: without_trailing_space l) w Hw).
Qed.

Lemma right_operand_cases (r : list ascii) :
  right_operand r = drop_space r
  \/ (forallb is_space r = true /\ forallb is_space (right_operand r) = true).
Proof.
  induction r as [|y t IH]; [left; reflexivity|].
  cbn [right_operand drop_space forallb]. destruct (is_space y) eqn:Hy.
  - destruct t as [|z t'].
    + right. cbn [forallb]. rewrite Hy. split; reflexivity.
    + destruct IH as [IH|[Ht Hro]]; [left; exact IH | right; split; assumption].
  - left. reflexivity.
Qed.

Lemma trim_right_operand (r : list ascii) :
  trim (of_chars (right_operand r)) = trim (of_chars r).
Proof.
  destruct (right_operand_cases r) as [->|[Hr Hro]].
  - rewrite !trim_of_chars, drop_space_idempotent. reflexivity.
  - rewrite (trim_space _ Hr), (trim_space _ Hro). reflexivity.
Qed.

(** *** The split of a condition *)

(** On one line of text with an operator that has something before it and
    something after it, the pattern splits the condition at the first
    operator, up to the white space that trimming removes. *)
Lemma exec_comparison (condition : string) (l : list ascii) (op : string)
    (r : list ascii) :
  one_line (chars condition) = true ->
  first_operator (chars condition) = Some (l, op, r) ->
  l <> [] ->
  r <> [] ->
  exists m,
    exec RE_comparison condition = Some m
    /\ trim (group_text 1 m) = trim (of_chars l)
    /\ group_text 2 m = op
    /\ trim (group_text 3 m) = trim (of_chars r).
Proof.
  intros Hline Hfirst Hl Hr. unfold exec.
  destruct (first_operator_splits _ _ _ _ Hfirst) as (sfx & Hsplit & _).
  destruct l as [|x l]; [contradiction|].
  rewrite Hsplit in Hline, Hfirst |- *. cbn [app] in Hline, Hfirst |- *.
  cbn [search]. rewrite (match_at_comparison x l sfx op r Hfirst Hr Hline).
  eexists. split; [reflexivity|].
  unfold group_text, group. cbn [m_groups nth_error Nat.sub].
  split; [apply trim_left_operand|]. split; [reflexivity | apply trim_right_operand].
Qed.

Lemma exec_no_operator (condition : string) :
  first_operator (chars condition) = None -> exec RE_comparison condition = None.
Proof. apply search_no_operator. Qed.

Lemma operator_listed (s : list ascii) (op : string) :
  operator_at s = Some op ->
  op = ">=" \/ op = "<=" \/ op = ">" \/ op = "<" \/ op = "==".
Proof.
  intros Hop. apply find_some in Hop as [Hin _]. cbn in Hin.
  intuition (subst; auto).
Qed.

Lemma truthy_false (v : value) :
  truthy v = false
  <-> (v = VUndef \/ v = VNull \/ v = VStr "" \/ v = VBool false
       \/ exists x, v = VNum x /\ (is_zero x = true \/ is_nan x = true)).
Proof.
  split.
  - destruct v as [| |b|x|s|l|o]; cbn [truthy]; intros Hv; try discriminate; auto.
    + destruct b; [discriminate|]. auto.
    + apply negb_false_iff, orb_prop in Hv. do 4 right. exists x. split; [reflexivity | exact Hv].
    + apply negb_false_iff, String.eqb_eq in Hv. subst s. auto.
  - intros [->|[->|[->|[->|(x & -> & Hx)]]]]; try reflexivity.
    cbn [truthy]. apply negb_false_iff, orb_true_iff, Hx.
Qed.

(** C7 (as amended): for every condition and bindings, (1) a condition
    containing [ contains ] is the substring test on the texts of the two
    evaluated sides; (2) otherwise, when the condition is one line of text
    and its first operator has at least one character before it and one
    after it, the condition compares the evaluated operands, the text
    before and the text after that first operator, trimmed: the ordering
    operators compare what [parseFloat] reads and [==] is loose equality;
    (3) otherwise, when the condition has no operator, it is the truthiness
    of the evaluated condition; (4) the falsy values are absent, null, the
    empty text, false, zero and not-a-number, all others are truthy. *)
Theorem evaluateLiquidCondition_cases (condition : string) (variables : bindings)
    (st : resolver) :
  (includes condition " contains " = true ->
   evaluateLiquidCondition condition variables st
   = (l <- evaluateLiquidExpression
             (nth 0 (map trim (split condition " contains ")) "") variables ;;
      r <- evaluateLiquidExpression
             (nth 1 (map trim (split condition " contains ")) "") variables ;;
      ret (includes (toString l) (toString r))) st)
  /\ (includes condition " contains " = false ->
      forall l op r,
        one_line (chars condition) = true ->
        first_operator (chars condition) = Some (l, op, r) ->
        l <> [] ->
        r <> [] ->
        evaluateLiquidCondition condition variables st
        = (lv <- evaluateLiquidExpression (trim (of_chars l)) variables ;;
           rv <- evaluateLiquidExpression (trim (of_chars r)) variables ;;
           ret (compare_values op lv rv)) st)
  /\ (includes condition " contains " = false ->
      first_operator (chars condition) = None ->
      evaluateLiquidCondition condition variables st
      = (v <- evaluateLiquidExpression condition variables ;; ret (truthy v)) st)
  /\ (forall v,
        truthy v = false
        <-> (v = VUndef \/ v = VNull \/ v = VStr "" \/ v = VBool false
             \/ exists x, v = VNum x /\ (is_zero x = true \/ is_nan x = true))).
Proof.
  split; [|split; [|split]].
  - intros Hcontains. unfold evaluateLiquidCondition. rewrite Hcontains. reflexivity.
  - intros Hcontains l op r Hline Hfirst Hl Hr.
    destruct (exec_comparison condition l op r Hline Hfirst Hl Hr)
      as (m & Hexec & Hleft & Hop & Hright).
    assert (Hlisted : op = ">=" \/ op = "<=" \/ op = ">" \/ op = "<" \/ op = "==").
    { destruct (first_operator_splits _ _ _ _ Hfirst) as (sfx & _ & Hsfx).
      apply first_operator_here in Hsfx as [Hat _]. exact (operator_listed _ _ Hat). }
    unfold evaluateLiquidCondition. rewrite Hcontains, Hexec. cbv zeta.
    rewrite Hleft, Hop, Hright. unfold bind.
    destruct (evaluateLiquidExpression (trim (of_chars l)) variables st) as [[lv|e] st1];
      [|reflexivity].
    destruct (evaluateLiquidExpression (trim (of_chars r)) variables st1) as [[rv|e] st2];
      [|reflexivity].
    destruct Hlisted as [->|[->|[->|[->| ->]]]]; reflexivity.
  - intros Hcontains Hnone. unfold evaluateLiquidCondition.
    rewrite Hcontains, (exec_no_operator condition Hnone). reflexivity.
  - apply truthy_false.
Qed.

(** ** The matching brace *)

Lemma opens_cons (x : ascii) (l : list ascii) :
  opens (x :: l) = (if Ascii.eqb x "{" then 1 else 0) + opens l.
Proof.
  unfold opens. cbn [count_occ].
  destruct (Ascii.eqb_spec x "{") as [->|Hx]; destruct (ascii_dec _ _);
    solve [reflexivity | congruence].
Qed.

Lemma closes_cons (x : ascii) (l : list ascii) :
  closes (x :: l) = (if Ascii.eqb x "}" then 1 else 0) + closes l.
Proof.
  unfold closes. cbn [count_occ].
  destruct (Ascii.eqb_spec x "}") as [->|Hx]; destruct (ascii_dec _ _);
    solve [reflexivity | congruence].
Qed.

(** The loop of [findMatchingBrace], entered at depth [d]: it stops after
    the first closing brace that brings the depth to zero. *)
Lemma findMatchingBrace_from_spec (s : list ascii) :
  forall i d,
    0 < d ->
    match findMatchingBrace_from s i d with
    | Some e =>
        exists n,
          e = i + n /\ 0 < n <= List.length s
          /\ nth_error s (n - 1) = Some "}"%char
          /\ closes (firstn n s) = opens (firstn n s) + d
          /\ forall n', n' < n -> closes (firstn n' s) < opens (firstn n' s) + d
    | None =>
        forall n', closes (firstn n' s) < opens (firstn n' s) + d
    end.
Proof.
  induction s as [|x s IH]; intros i d Hd; cbn [findMatchingBrace_from].
  - intros n'. rewrite firstn_nil. cbn. lia.
  - destruct (Ascii.eqb x "{") eqn:Hopen.
    + assert (Hclose : Ascii.eqb x "}" = false)
        by (apply Ascii.eqb_eq in Hopen; subst x; reflexivity).
      specialize (IH (S i) (S d) ltac:(lia)).
      destruct (findMatchingBrace_from s (S i) (S d)) as [e|].
      * destruct IH as (n & -> & Hn & Hlast & Hbal & Hmin).
        exists (S n). cbn [List.length firstn]. rewrite opens_cons, closes_cons, Hopen, Hclose.
        repeat split; try lia.
        -- replace (S n - 1) with (S (n - 1)) by lia. exact Hlast.
        -- intros [|n'] Hlt; cbn [firstn]; [cbn; lia|].
           rewrite opens_cons, closes_cons, Hopen, Hclose.
           specialize (Hmin n' ltac:(lia)). lia.
      * intros [|n']; cbn [firstn]; [cbn; lia|].
        rewrite opens_cons, closes_cons, Hopen, Hclose. specialize (IH n'). lia.
    + destruct (Ascii.eqb x "}") eqn:Hclose.
      * destruct d as [|[|d]]; [lia| |].
        -- exists 1. cbn [List.length firstn]. rewrite Nat.add_1_r.
           rewrite opens_cons, closes_cons, Hopen, Hclose.
           apply Ascii.eqb_eq in Hclose. subst x.
           repeat split; try lia; try reflexivity.
           intros n' Hlt. replace n' with 0 by lia. cbn. lia.
        -- specialize (IH (S i) (S d) ltac:(lia)). cbn [Nat.sub].
           rewrite ?Nat.sub_0_r.
           destruct (findMatchingBrace_from s (S i) (S d)) as [e|].
           ++ destruct IH as (n & -> & Hn & Hlast & Hbal & Hmin).
              exists (S n). cbn [List.length firstn].
              rewrite opens_cons, closes_cons, Hopen, Hclose.
              repeat split; try lia.
              ** replace (S n - 1) with (S (n - 1)) by lia. exact Hlast.
              ** intros [|n'] Hlt; cbn [firstn]; [cbn; lia|].
                 rewrite opens_cons, closes_cons, Hopen, Hclose.
                 specialize (Hmin n' ltac:(lia)). lia.
           ++ intros [|n']; cbn [firstn]; [cbn; lia|].
              rewrite opens_cons, closes_cons, Hopen, Hclose. specialize (IH n'). lia.
      * specialize (IH (S i) d Hd).
        destruct (findMatchingBrace_from s (S i) d) as [e|].
        -- destruct IH as (n & -> & Hn & Hlast & Hbal & Hmin).
           exists (S n). cbn [List.length firstn].
           rewrite opens_cons, closes_cons, Hopen, Hclose.
           repeat split; try lia.
           ++ replace (S n - 1) with (S (n - 1)) by lia. exact Hlast.
           ++ intros [|n'] Hlt; cbn [firstn]; [cbn; lia|].
              rewrite opens_cons, closes_cons, Hopen, Hclose.
              specialize (Hmin n' ltac:(lia)). lia.
        -- intros [|n']; cbn [firstn]; [cbn; lia|].
           rewrite opens_cons, closes_cons, Hopen, Hclose. specialize (IH n'). lia.
Qed.

(** X1.  [findMatchingBrace text startIndex] is the index just after the first
    closing brace, at or after [startIndex], at which the braces read from
    [startIndex] on close one more than they open; before it they never do.
    Without such a brace (also when [startIndex] lies beyond the text) the
    result is absent. *)
Theorem findMatchingBrace_closes_the_block (text : string) (startIndex : nat) :
  match findMatchingBrace text startIndex with
  | Some e =>
      startIndex < e <= String.length text
      /\ nth_error (chars text) (e - 1) = Some "}"%char
      /\ closes (slice startIndex e text) = opens (slice startIndex e text) + 1
      /\ forall e', e' < e ->
           closes (slice startIndex e' text) <= opens (slice startIndex e' text)
  | None =>
      forall e', closes (slice startIndex e' text) <= opens (slice startIndex e' text)
  end.
Proof.
  unfold findMatchingBrace, slice.
  pose proof (findMatchingBrace_from_spec (skipn startIndex (chars text)) startIndex 1
                ltac:(lia)) as Hspec.
  destruct (findMatchingBrace_from (skipn startIndex (chars text)) startIndex 1) as [e|].
  - destruct Hspec as (n & -> & Hn & Hlast & Hbal & Hmin).
    rewrite length_skipn, length_chars in Hn.
    replace (startIndex + n - startIndex) with n by lia.
    split; [lia|]. split; [|split; [exact Hbal|]].
    + rewrite nth_error_skipn in Hlast.
      replace (startIndex + n - 1) with (startIndex + (n - 1)) by lia. exact Hlast.
    + intros e' He'. destruct (Nat.le_gt_cases e' startIndex) as [Hle|Hgt].
      * replace (e' - startIndex) with 0 by lia. rewrite firstn_O. unfold closes, opens. cbn. lia.
      * specialize (Hmin (e' - startIndex) ltac:(lia)). lia.
  - intros e'. specialize (Hspec (e' - startIndex)). lia.
Qed.

(** ** The caches, call by call *)

(** X2.  [getSettingValue] answers from the cache when the key is there, and
    otherwise looks the key up and memoizes what it finds, absent values
    included.  Either way the answer is then in the cache: a second call
    gives the same answer and changes nothing, also after other settings
    have been loaded without the cache being cleared.  No other key of the
    cache is touched. *)
Theorem getSettingValue_memoizes (key : string) (r : resolver) :
  let v := default (lookupSetting (shopifySettings r) (shopifySettingsSchema r) key)
                   (settingValueCache r !! key) in
  let r1 := snd (getSettingValue key r) in
  getSettingValue key r
  = (Ok v, set_settingValueCache (<[key := v]> (settingValueCache r)) r)
  /\ (forall settings schema,
        getSettingValue key (set_settings settings schema r1)
        = (Ok v, set_settings settings schema r1))
  /\ (forall key', key' <> key ->
        settingValueCache r1 !! key' = settingValueCache r !! key').
Proof.
  intros v r1.
  assert (Hcall : getSettingValue key r
                  = (Ok v, set_settingValueCache (<[key := v]> (settingValueCache r)) r)).
  { unfold getSettingValue, bind, gets, modify, ret, v.
    destruct r as [settings schema cache hex]. cbn [settingValueCache shopifySettings
      shopifySettingsSchema hexToRgbaCache set_settingValueCache].
    destruct (cache !! key) as [v0|] eqn:Hhit; cbn [default].
    - rewrite (insert_id cache key v0 Hhit). reflexivity.
    - reflexivity. }
  assert (Hr1 : r1 = set_settingValueCache (<[key := v]> (settingValueCache r)) r)
    by (unfold r1; rewrite Hcall; reflexivity).
  split; [exact Hcall|]. split.
  - intros settings schema. rewrite Hr1.
    unfold getSettingValue, bind, gets, ret.
    cbn [set_settings set_settingValueCache settingValueCache].
    rewrite lookup_insert_eq. reflexivity.
  - intros key' Hne. rewrite Hr1. cbn [set_settingValueCache settingValueCache].
    apply lookup_insert_ne. congruence.
Qed.

(** X3.  [hexToRgba] never throws; a value that is no text, or the empty text,
    gives absent; an absent result leaves the state as it was (it is not
    memoized), and any result is given again by a second call, which
    changes nothing.  Only the hex cache is ever written. *)
Theorem hexToRgba_memoizes (hex : value) (alpha : option number) (r : resolver) :
  let r1 := snd (hexToRgba hex alpha r) in
  exists result,
    hexToRgba hex alpha r = (Ok result, r1)
    /\ hexToRgba hex alpha r1 = (Ok result, r1)
    /\ (result = None -> r1 = r)
    /\ ((forall h, hex <> VStr h) \/ hex = VStr "" -> result = None)
    /\ shopifySettings r1 = shopifySettings r
    /\ shopifySettingsSchema r1 = shopifySettingsSchema r
    /\ settingValueCache r1 = settingValueCache r.
Proof.
  intros r1. unfold r1. clear r1.
  assert (Hnone : forall q, hexToRgba hex alpha q = (Ok None, q) ->
            hexToRgba hex alpha r = (Ok None, r) ->
            exists result,
              hexToRgba hex alpha r = (Ok result, snd (hexToRgba hex alpha r))
              /\ hexToRgba hex alpha (snd (hexToRgba hex alpha r))
                 = (Ok result, snd (hexToRgba hex alpha r))
              /\ (result = None -> snd (hexToRgba hex alpha r) = r)
              /\ ((forall h, hex <> VStr h) \/ hex = VStr "" -> result = None)
              /\ shopifySettings (snd (hexToRgba hex alpha r)) = shopifySettings r
              /\ shopifySettingsSchema (snd (hexToRgba hex alpha r)) = shopifySettingsSchema r
              /\ settingValueCache (snd (hexToRgba hex alpha r)) = settingValueCache r).
  { intros q _ Hr. exists None. rewrite Hr. cbn [snd]. rewrite Hr. repeat split. }
  destruct hex as [| |b|x|h|l|o]; try (apply (Hnone r); reflexivity).
  destruct (String.eqb_spec h "") as [->|Hh]; [apply (Hnone r); reflexivity|].
  assert (Hne : String.eqb h "" = false) by (apply String.eqb_neq, Hh).
  unfold hexToRgba. rewrite Hne. unfold bind, gets, modify, ret. cbn [fst snd].
  destruct (hexToRgbaCache r !! (h ++ "-" ++ to_string (default one alpha)))
    as [memo|] eqn:Hhit.
  - exists (Some memo). cbn [snd]. rewrite ?Hhit. repeat split; try discriminate.
    intros [Hno | Hempty]; [exfalso; exact (Hno h eq_refl) | congruence].
  - destruct (hexToRgba_decode h (default one alpha)) as [c|] eqn:Hdecode.
    + exists (Some c). cbn [snd set_hexToRgbaCache hexToRgbaCache shopifySettings
        shopifySettingsSchema settingValueCache].
      rewrite lookup_insert_eq. repeat split; try discriminate.
      intros [Hno | Hempty]; [exfalso; exact (Hno h eq_refl) | congruence].
    + exists None. cbn [snd]. rewrite ?Hhit, ?Hdecode. repeat split.
Qed.

(** X4.  The configuration is read from the workspace once: [getExtensionConfig]
    returns the cached configuration when there is one, and otherwise
    caches what the workspace gives, so that a second call returns the same
    configuration and changes nothing.  [invalidateConfigCache] drops the
    cached configuration and empties both caches, leaving the registry and
    the settings alone; the next call reads the workspace again. *)
Theorem getExtensionConfig_reads_once (s : state) :
  let c := default workspaceConfiguration (cachedConfig s) in
  let s1 := snd (getExtensionConfig s) in
  let s2 := snd (invalidateConfigCache s) in
  (getExtensionConfig s = (Ok c, set_cachedConfig (Some c) s)
   /\ getExtensionConfig s1 = (Ok c, s1))
  /\ (cachedConfig s2 = None
      /\ settingValueCache (res s2) = ∅
      /\ hexToRgbaCache (res s2) = ∅
      /\ cssVariables s2 = cssVariables s
      /\ shopifySettings (res s2) = shopifySettings (res s)
      /\ shopifySettingsSchema (res s2) = shopifySettingsSchema (res s))
  /\ getExtensionConfig s2
     = (Ok workspaceConfiguration, set_cachedConfig (Some workspaceConfiguration) s2).
Proof.
  intros c s1 s2. split; [|split].
  - assert (Hcall : getExtensionConfig s = (Ok c, set_cachedConfig (Some c) s)).
    { unfold getExtensionConfig, c. destruct s as [registry [cached|] q i]; reflexivity. }
    split; [exact Hcall|]. unfold s1. rewrite Hcall. reflexivity.
  - repeat split.
  - reflexivity.
Qed.

(** ** Media declarations of entries without a media list *)

Lemma lacks_media_after (filePath q : string) (m m' : rmatch) (s : state) :
  q <> "" ->
  lacks_media (cssVariables s) m = false ->
  recordVariable filePath (Some q) m s
  = (Ok tt, snd (recordVariable filePath (Some q) m s))
  /\ lacks_media (cssVariables (snd (recordVariable filePath (Some q) m s))) m'
     = lacks_media (cssVariables s) m'.
Proof.
  intros Hq Hm. unfold lacks_media in *.
  remember ("--" ++ group_text 1 m) as name eqn:Hname.
  remember ("--" ++ group_text 1 m') as name' eqn:Hname'.
  unfold recordVariable, query_given. rewrite <- Hname.
  apply String.eqb_neq in Hq. rewrite Hq.
  unfold bind, gets, registry_set, modify, ret. cbn [fst snd].
  destruct (cssVariables s !! name) as [e|] eqn:He.
  - destruct (e_media e) as [variants|] eqn:Hmedia; [|discriminate].
    cbn [snd set_cssVariables cssVariables]. split; [reflexivity|].
    destruct (decide (name' = name)) as [->|Hne].
    + rewrite lookup_insert_eq, He, Hmedia. reflexivity.
    + rewrite lookup_insert_ne by congruence. reflexivity.
  - cbn [snd set_cssVariables cssVariables]. split; [reflexivity|].
    destruct (decide (name' = name)) as [->|Hne].
    + rewrite lookup_insert_eq, He. reflexivity.
    + rewrite lookup_insert_ne by congruence. reflexivity.
Qed.

Lemma existsb_pointwise {A : Type} (f g : A -> bool) (l : list A) :
  (forall x, f x = g x) -> existsb f l = existsb g l.
Proof.
  intros Hfg. induction l as [|x l IH]; [reflexivity|].
  cbn [existsb]. rewrite Hfg, IH. reflexivity.
Qed.

Lemma media_scan_outcome (filePath q : string) (ms : list rmatch) :
  q <> "" ->
  forall s,
    fst (foldM (fun _ m => recordVariable filePath (Some q) m) ms tt s)
    = if existsb (lacks_media (cssVariables s)) ms
      then Throw (TypeError "Cannot read properties of undefined (reading 'push')")
      else Ok tt.
Proof.
  intros Hq. induction ms as [|m ms IH]; intros s; [reflexivity|].
  rewrite foldM_cons. cbn [existsb].
  destruct (lacks_media (cssVariables s) m) eqn:Hm.
  - cbn [orb]. unfold lacks_media in Hm. unfold recordVariable, query_given.
    apply String.eqb_neq in Hq. rewrite Hq. unfold bind, gets. cbn [fst snd].
    destruct (cssVariables s !! ("--" ++ group_text 1 m)) as [e|]; [|discriminate].
    destruct (e_media e); [discriminate|]. reflexivity.
  - cbn [orb].
    destruct (lacks_media_after filePath q m m s Hq Hm) as [Hok _].
    rewrite Hok. rewrite IH.
    rewrite (existsb_pointwise
               (lacks_media (cssVariables (snd (recordVariable filePath (Some q) m s))))
               (lacks_media (cssVariables s)) ms); [reflexivity|].
    intros m'. exact (proj2 (lacks_media_after filePath q m m' s Hq Hm)).
Qed.

(** X5.  Under a media query that is not empty, [parseVariablesInBlock] throws
    the [TypeError] of [varData.media.push] exactly when one of the
    declarations of the block names an entry that has no media list (the
    entries recorded from [echo] statements have none); otherwise it
    succeeds. *)
Theorem parseVariablesInBlock_media_outcome (content filePath q : string) (s : state) :
  q <> "" ->
  fst (parseVariablesInBlock content filePath (Some q) s)
  = if existsb (lacks_media (cssVariables s)) (matches REGEX_cssVariable content)
    then Throw (TypeError "Cannot read properties of undefined (reading 'push')")
    else Ok tt.
Proof. intros Hq. apply media_scan_outcome, Hq. Qed.

(** ** Patterns that begin with a literal text *)

Lemma starts_with_ci_app (icase : bool) (x y s : list ascii) :
  starts_with_ci icase (x ++ y)%list s
  = starts_with_ci icase x s && starts_with_ci icase y (skipn (List.length x) s).
Proof.
  revert s. induction x as [|a x IH]; intros s; [reflexivity|].
  destruct s as [|b s]; [reflexivity|].
  cbn [app starts_with_ci List.length skipn]. rewrite IH, andb_assoc. reflexivity.
Qed.

(** A pattern of literal characters matches its text, and nothing else. *)
Lemma run_literal (icase : bool) (A : Type) (r : re) :
  forall w i s c (k : nat -> list ascii -> caps -> option A),
    literal_of r = Some w ->
    run icase A r i s c k
    = if starts_with_ci icase w s
      then k (i + List.length w) (skipn (List.length w) s) c
      else None.
Proof.
  induction r as [|a| |neg items|a IHa b IHb|a IHa b IHb|g a IHa|g a IHa|n a IHa| | |a IHa|n];
    intros w i s c k Hw; try discriminate.
  - injection Hw as <-. cbn [run starts_with_ci List.length].
    destruct s as [|x s]; [reflexivity|].
    cbn [skipn]. rewrite andb_true_r, Nat.add_1_r. reflexivity.
  - cbn [literal_of] in Hw.
    destruct (literal_of a) as [x|]; [|discriminate].
    destruct (literal_of b) as [y|]; [|discriminate].
    injection Hw as <-. rewrite run_seq, (IHa x i s c _ eq_refl), starts_with_ci_app.
    destruct (starts_with_ci icase x s); [|reflexivity]. cbn [andb].
    rewrite (IHb y _ _ c k eq_refl).
    destruct (starts_with_ci icase y (skipn (List.length x) s)); [|reflexivity].
    rewrite length_app, skipn_skipn. f_equal; [lia|]. f_equal. lia.
Qed.

(** A pattern fails where the input does not begin with its prefix. *)
Lemma run_prefix (icase : bool) (A : Type) (r : re) :
  forall i s c (k : nat -> list ascii -> caps -> option A),
    starts_with_ci icase (prefix_of r) s = false ->
    run icase A r i s c k = None.
Proof.
  induction r as [|a| |neg items|a IHa b IHb|a IHa b IHb|g a IHa|g a IHa|n a IHa| | |a IHa|n];
    intros i s c k Hs; try discriminate.
  - cbn [prefix_of starts_with_ci] in Hs. cbn [run].
    destruct s as [|x s]; [reflexivity|].
    rewrite andb_true_r in Hs. rewrite Hs. reflexivity.
  - cbn [prefix_of] in Hs. rewrite run_seq.
    destruct (literal_of a) as [x|] eqn:Hlit.
    + rewrite (run_literal icase A a x i s c _ Hlit).
      rewrite starts_with_ci_app in Hs.
      destruct (starts_with_ci icase x s); [|reflexivity].
      apply IHb. exact Hs.
    + apply IHa. exact Hs.
  - cbn [prefix_of] in Hs. rewrite run_group. apply IHa. exact Hs.
Qed.

(** Where the prefix of a pattern does not occur, the pattern matches
    nowhere. *)
Lemma search_prefix (r : regexp) (s : list ascii) :
  forall i,
    occurs (ignoreCase r) (prefix_of (source r)) s = false ->
    search r i s = None.
Proof.
  induction s as [|x s IH]; intros i Hs; cbn [occurs] in Hs;
    apply orb_false_elim in Hs as [Hhere Hlater]; cbn [search]; unfold match_at;
    rewrite (run_prefix _ _ _ _ _ _ _ Hhere); [reflexivity|].
  apply IH, Hlater.
Qed.

Lemma no_match (r : regexp) (text : string) :
  occurs (ignoreCase r) (prefix_of (source r)) (chars text) = false ->
  exec r text = None /\ matches r text = [].
Proof.
  intros Hs. split.
  - apply search_prefix, Hs.
  - unfold matches. cbn [matches_from]. rewrite (search_prefix r _ 0 Hs). reflexivity.
Qed.

Lemma splice_nothing (s : string) : splice 0 (chars s) [] = s.
Proof. apply of_chars_chars. Qed.

Lemma replace_no_match (r : regexp) (text template : string) :
  occurs (ignoreCase r) (prefix_of (source r)) (chars text) = false ->
  replace r text template = text.
Proof.
  intros Hs. unfold replace, replace_fn.
  rewrite (proj2 (no_match r text Hs)). apply splice_nothing.
Qed.

Lemma replace_fn_no_match (r : regexp) (text : string) (f : rmatch -> string) :
  occurs (ignoreCase r) (prefix_of (source r)) (chars text) = false ->
  replace_fn r text f = text.
Proof.
  intros Hs. unfold replace_fn.
  rewrite (proj2 (no_match r text Hs)). apply splice_nothing.
Qed.

Lemma replace_fnM_no_match {S : Type} (r : regexp) (text : string)
    (f : rmatch -> M S string) (st : S) :
  occurs (ignoreCase r) (prefix_of (source r)) (chars text) = false ->
  replace_fnM r text f st = (Ok text, st).
Proof.
  intros Hs. unfold replace_fnM.
  rewrite (proj2 (no_match r text Hs)). cbn [mapM]. unfold bind, ret. cbn [combine].
  rewrite splice_nothing. reflexivity.
Qed.

(** *** Occurrences and [includes] *)

Lemma starts_with_ci_exact (w s : list ascii) :
  starts_with_ci false w s = starts_with_l w s.
Proof.
  revert s. induction w as [|a w IH]; intros [|b s]; try reflexivity.
  cbn [starts_with_ci starts_with_l chr_eq]. rewrite IH. reflexivity.
Qed.

Lemma caseless_spec (a : ascii) :
  caseless a = true -> forall x, chr_eq true a x = Ascii.eqb a x.
Proof.
  intros Ha x. unfold caseless in Ha.
  pose proof (forall_ascii _ Ha x) as Hx. apply Bool.eqb_prop in Hx. exact Hx.
Qed.

Lemma starts_with_ci_caseless (icase : bool) (w s : list ascii) :
  forallb caseless w = true ->
  starts_with_ci icase w s = starts_with_l w s.
Proof.
  destruct icase; [|intros _; apply starts_with_ci_exact].
  revert s. induction w as [|a w IH]; intros [|b s] Hw; try reflexivity.
  cbn [forallb] in Hw. apply andb_prop in Hw as [Ha Hw].
  cbn [starts_with_ci starts_with_l]. rewrite (caseless_spec a Ha), (IH s Hw). reflexivity.
Qed.

Lemma index_of_l_occurs (w s : list ascii) :
  forall i, index_of_l w s i = None -> occurs false w s = false.
Proof.
  induction s as [|x s IH]; intros i Hnone; cbn [index_of_l occurs] in *;
    rewrite starts_with_ci_exact; destruct (starts_with_l w _); try discriminate;
    [reflexivity|].
  cbn [orb]. exact (IH (S i) Hnone).
Qed.

Lemma occurs_caseless (icase : bool) (w s : list ascii) :
  forallb caseless w = true ->
  occurs icase w s = occurs false w s.
Proof.
  intros Hw. induction s as [|x s IH]; cbn [occurs];
    rewrite !(starts_with_ci_caseless _ w _ Hw); [reflexivity|].
  rewrite IH. reflexivity.
Qed.

(** A text that does not include [w], a text without letters, has no
    occurrence of [w] in any letter case. *)
Lemma includes_occurs (icase : bool) (text w : string) :
  forallb caseless (chars w) = true ->
  includes text w = false ->
  occurs icase (chars w) (chars text) = false.
Proof.
  intros Hw Hno. rewrite (occurs_caseless icase _ _ Hw).
  unfold includes, indexOf in Hno.
  destruct (index_of_l (chars w) (chars text) 0) eqn:Hidx; [discriminate|].
  exact (index_of_l_occurs _ _ 0 Hidx).
Qed.

(** ** Text without Liquid *)

Lemma caseless_tag_open : forallb caseless (chars "{%") = true.
Proof. vm_compute. reflexivity. Qed.

Lemma caseless_output_open : forallb caseless (chars "{{") = true.
Proof. vm_compute. reflexivity. Qed.

(** A pattern whose prefix is [w], a text without letters, has no match in
    a text that does not include [w]. *)
Lemma prefix_not_included (r : regexp) (w text : string) :
  prefix_of (source r) = chars w ->
  forallb caseless (chars w) = true ->
  includes text w = false ->
  occurs (ignoreCase r) (prefix_of (source r)) (chars text) = false.
Proof. intros -> Hw Hno. apply includes_occurs; assumption. Qed.

(** The conditional reducer leaves a text without tags as it is. *)
Lemma processConditionalBlocks_plain (text : string) (st : resolver) :
  includes text "{%" = false ->
  processConditionalBlocks text st = (Ok text, st).
Proof.
  intros Htag. unfold processConditionalBlocks.
  apply replace_fnM_no_match.
  exact (prefix_not_included RE_ifRegex "{%" text eq_refl caseless_tag_open Htag).
Qed.

(** X6.  [liquidToCSS] returns a text that has neither a Liquid tag opener nor a
    Liquid output opener as it is, braces of style rules included, and
    reads and writes nothing. *)
Theorem liquidToCSS_leaves_plain_text (text : string) (st : resolver) :
  includes text "{%" = false ->
  includes text "{{" = false ->
  liquidToCSS text st = (Ok text, st).
Proof.
  intros Htag Hout.
  assert (Htags : forall r, prefix_of (source r) = chars "{%" ->
            occurs (ignoreCase r) (prefix_of (source r)) (chars text) = false)
    by (intros r Hr; exact (prefix_not_included r "{%" text Hr caseless_tag_open Htag)).
  assert (Houts : forall r, prefix_of (source r) = chars "{{" ->
            occurs (ignoreCase r) (prefix_of (source r)) (chars text) = false)
    by (intros r Hr; exact (prefix_not_included r "{{" text Hr caseless_output_open Hout)).
  unfold liquidToCSS, liquidToCSS_step0, liquidToCSS_step1, liquidToCSS_step2,
    liquidToCSS_step3, liquidToCSS_step4, liquidToCSS_step5, liquidToCSS_step6,
    liquidToCSS_step7, liquidToCSS_step8.
  unfold bind at 1.
  rewrite (replace_fnM_no_match REGEX_liquidBlock text _ st
             (Htags REGEX_liquidBlock eq_refl)).
  unfold bind at 1. unfold bind at 1. unfold gets at 1. cbn [fst snd]. unfold ret at 1.
  rewrite (replace_fn_no_match REGEX_forScheme text _ (Htags REGEX_forScheme eq_refl)).
  rewrite (replace_no_match REGEX_assign text _ (Htags REGEX_assign eq_refl)).
  unfold bind at 1. rewrite (processConditionalBlocks_plain text st Htag).
  rewrite (replace_fn_no_match REGEX_ifBlock text _ (Htags REGEX_ifBlock eq_refl)).
  unfold bind at 1.
  rewrite (replace_fnM_no_match REGEX_schemeSettings text _ st
             (Houts REGEX_schemeSettings eq_refl)).
  unfold bind at 1.
  rewrite (replace_fnM_no_match REGEX_settings text _ st (Houts REGEX_settings eq_refl)).
  rewrite (replace_no_match REGEX_variable text _ (Houts REGEX_variable eq_refl)).
  rewrite (replace_no_match REGEX_liquidTags text _ (Htags REGEX_liquidTags eq_refl)).
  rewrite (replace_no_match REGEX_liquidOutput text _ (Houts REGEX_liquidOutput eq_refl)).
  reflexivity.
Qed.

(** X7.  [resolveLiquidVariable] returns a text without a Liquid output opener
    as it is: neither the settings nor the caches are consulted. *)
Theorem resolveLiquidVariable_leaves_plain_text (liquidVar : string) (st : resolver) :
  includes liquidVar "{{" = false ->
  resolveLiquidVariable liquidVar st = (Ok liquidVar, st).
Proof.
  intros Hout. unfold resolveLiquidVariable.
  rewrite (proj1 (no_match RE_schemeVar liquidVar
                    (prefix_not_included RE_schemeVar "{{" liquidVar eq_refl
                       caseless_output_open Hout))).
  rewrite (proj1 (no_match RE_settingsVar liquidVar
                    (prefix_not_included RE_settingsVar "{{" liquidVar eq_refl
                       caseless_output_open Hout))).
  reflexivity.
Qed.

(** *** Conditions that name no setting *)

Lemma starts_with_ci_longer (icase : bool) (w a b : list ascii) :
  starts_with_ci icase w a = true -> starts_with_ci icase w (a ++ b)%list = true.
Proof.
  revert a. induction w as [|x w IH]; intros [|y a] Hw; try reflexivity; try discriminate.
  cbn [app starts_with_ci] in *. apply andb_prop in Hw as [-> Hw]. exact (IH a Hw).
Qed.

Lemma occurs_prefix (icase : bool) (w a b : list ascii) :
  occurs icase w (a ++ b)%list = false -> occurs icase w a = false.
Proof.
  induction a as [|y a IH]; cbn [app occurs].
  - intros Hb. destruct (starts_with_ci icase w []) eqn:Hw; [|reflexivity].
    apply (starts_with_ci_longer icase w [] b) in Hw. cbn [app] in Hw.
    destruct b; cbn [occurs] in Hb; rewrite Hw in Hb; discriminate.
  - intros Hab. apply orb_false_elim in Hab as [Hhere Hlater].
    rewrite (IH Hlater), orb_false_r.
    destruct (starts_with_ci icase w (y :: a)) eqn:Hw; [|reflexivity].
    apply (starts_with_ci_longer icase w (y :: a) b) in Hw. cbn [app] in Hw. congruence.
Qed.

Lemma occurs_suffix (icase : bool) (w a b : list ascii) :
  occurs icase w (a ++ b)%list = false -> occurs icase w b = false.
Proof.
  induction a as [|y a IH]; cbn [app]; [auto|].
  intros Hab. cbn [occurs] in Hab. apply orb_false_elim in Hab as [_ Hlater]. exact (IH Hlater).
Qed.

Lemma drop_space_suffix (l : list ascii) : exists p, l = (p ++ drop_space l)%list.
Proof.
  induction l as [|y l (p & Hp)]; [exists []; reflexivity|].
  cbn [drop_space]. destruct (is_space y).
  - exists (y :: p). cbn [app]. rewrite <- Hp. reflexivity.
  - exists []. reflexivity.
Qed.

(** What does not occur in a text does not occur in the trimmed text. *)
Lemma occurs_trim (icase : bool) (w : list ascii) (s : string) :
  occurs icase w (chars s) = false -> occurs icase w (chars (trim s)) = false.
Proof.
  intros Hs. unfold trim. rewrite chars_of_chars.
  destruct (drop_space_suffix (chars s)) as (p & Hp).
  rewrite Hp in Hs. apply occurs_suffix in Hs.
  destruct (drop_space_suffix (rev (drop_space (chars s)))) as (p' & Hp').
  apply (f_equal (@rev ascii)) in Hp'. rewrite rev_involutive, rev_app_distr in Hp'.
  rewrite Hp' in Hs. exact (occurs_prefix _ _ _ _ Hs).
Qed.

(** X8.  A condition that does not include [settings.] is false for
    [evaluateCondition], whatever else it says, and nothing is looked
    up. *)
Theorem evaluateCondition_without_setting (condition : string) (st : resolver) :
  includes condition "settings." = false ->
  evaluateCondition condition st = (Ok false, st).
Proof.
  intros Hno. unfold includes, indexOf in Hno.
  destruct (index_of_l (chars "settings.") (chars condition) 0) eqn:Hidx; [discriminate|].
  pose proof (occurs_trim false _ condition (index_of_l_occurs _ _ 0 Hidx)) as Htrim.
  unfold evaluateCondition.
  rewrite (proj1 (no_match RE_settingComparison (trim condition) Htrim)).
  rewrite (proj1 (no_match RE_settingName (trim condition) Htrim)).
  reflexivity.
Qed.

(** *** Declarations outside style blocks *)

(** X9.  A text with no Liquid tag opener and no [<style] in any letter case has
    no style block: [parseCssVariables] records nothing from it, whatever
    it declares, and leaves the settings and the caches alone. *)
Theorem parseCssVariables_needs_a_style_block (text filePath : string) (s : state) :
  includes text "{%" = false ->
  occurs true (chars "<style") (chars text) = false ->
  fst (parseCssVariables text filePath s) = Ok tt
  /\ cssVariables (snd (parseCssVariables text filePath s)) = cssVariables s
  /\ res (snd (parseCssVariables text filePath s)) = res s.
Proof.
  intros Htag Hstyle. unfold parseCssVariables.
  destruct (String.eqb text "" || (String.length text <? 50)%nat
            || negb (includes text ":root")); [repeat split|].
  unfold blocks_of.
  rewrite (proj2 (no_match RE_liquidStyle text
                    (prefix_not_included RE_liquidStyle "{%" text eq_refl
                       caseless_tag_open Htag))).
  rewrite (proj2 (no_match RE_liquidSheet text
                    (prefix_not_included RE_liquidSheet "{%" text eq_refl
                       caseless_tag_open Htag))).
  rewrite (proj2 (no_match RE_htmlStyle text Hstyle)).
  unfold bind, getExtensionConfig. destruct (cachedConfig s); repeat split.
Qed.

(** ** Expressions without filters *)

Lemma chars_append (a b : string) : chars (a ++ b) = (chars a ++ chars b)%list.
Proof.
  induction a as [|x a IH]; [reflexivity|].
  change (chars (String x (a ++ b)) = (x :: chars a ++ chars b)%list).
  cbn [chars list_ascii_of_string]. f_equal. exact IH.
Qed.

(** What a word character is not. *)
Lemma word_char_plain (x : ascii) :
  is_word x = true ->
  is_space x = false /\ Ascii.eqb x dquote = false /\ Ascii.eqb x "'" = false
  /\ Ascii.eqb x "|" = false /\ Ascii.eqb "[" x = false /\ Ascii.eqb "." x = false
  /\ Ascii.eqb "'" x = false /\ Ascii.eqb dquote x = false.
Proof.
  intros Hx.
  assert (Hall : forallb (fun x => implb (is_word x)
                   (negb (is_space x) && negb (Ascii.eqb x dquote) && negb (Ascii.eqb x "'")
                    && negb (Ascii.eqb x "|") && negb (Ascii.eqb "[" x)
                    && negb (Ascii.eqb "." x) && negb (Ascii.eqb "'" x)
                    && negb (Ascii.eqb dquote x))) all_ascii = true)
    by (vm_compute; reflexivity).
  pose proof (forall_ascii _ Hall x) as Hplain. cbv beta in Hplain. rewrite Hx in Hplain.
  cbn [implb] in Hplain.
  repeat (apply andb_prop in Hplain as [Hplain ?]).
  repeat split; apply negb_true_iff; assumption.
Qed.

Lemma drop_space_no_space (l : list ascii) :
  forallb (fun x => negb (is_space x)) l = true -> drop_space l = l.
Proof.
  destruct l as [|x l]; [reflexivity|]. cbn [forallb drop_space].
  intros Hl. apply andb_prop in Hl as [Hx _]. apply negb_true_iff in Hx. rewrite Hx.
  reflexivity.
Qed.

Lemma forallb_rev {A : Type} (p : A -> bool) (l : list A) :
  forallb p l = true -> forallb p (rev l) = true.
Proof. rewrite !forallb_forall. intros Hl x Hx. apply Hl, in_rev, Hx. Qed.

Lemma trim_no_space (l : list ascii) :
  forallb (fun x => negb (is_space x)) l = true -> trim (of_chars l) = of_chars l.
Proof.
  intros Hl. rewrite trim_of_chars, (drop_space_no_space l Hl).
  rewrite (drop_space_no_space (rev l) (forallb_rev _ l Hl)), rev_involutive. reflexivity.
Qed.

Lemma forallb_impl {A : Type} (p q : A -> bool) (l : list A) :
  (forall x, p x = true -> q x = true) -> forallb p l = true -> forallb q l = true.
Proof. rewrite !forallb_forall. intros Hpq Hl x Hx. apply Hpq, Hl, Hx. Qed.

(** A text of word characters is one piece for the pipe scanner. *)
Lemma split_pipes_word (l : list ascii) :
  forall prev current quoteChar parts,
    forallb is_word l = true ->
    split_pipes l prev current false quoteChar parts
    = split_pipes [] prev (rev l ++ current)%list false quoteChar parts.
Proof.
  induction l as [|x l IH]; intros prev current quoteChar parts Hl; [reflexivity|].
  cbn [forallb] in Hl. apply andb_prop in Hl as [Hx Hl].
  destruct (word_char_plain x Hx) as (_ & Hdq & Hq & Hpipe & _).
  cbn [split_pipes]. rewrite Hdq, Hq, Hpipe. cbn [orb andb].
  rewrite (IH (Some x) (x :: current) quoteChar parts Hl).
  cbn [rev split_pipes]. rewrite <- app_assoc. reflexivity.
Qed.

Lemma pipe_parts_word (v : string) :
  v <> "" ->
  forallb is_word (chars v) = true ->
  pipe_parts v = [v].
Proof.
  intros Hv Hword. unfold pipe_parts. rewrite (split_pipes_word _ _ _ _ _ Hword).
  rewrite app_nil_r. cbn [split_pipes].
  destruct (rev (chars v)) as [|x l] eqn:Hrev.
  - apply (f_equal (@rev ascii)) in Hrev. rewrite rev_involutive in Hrev. cbn in Hrev.
    destruct v; [contradiction | discriminate].
  - rewrite <- Hrev, rev_involutive. cbn [rev app].
    rewrite trim_no_space, of_chars_chars; [reflexivity|].
    apply (forallb_impl is_word); [|exact Hword].
    intros y Hy. apply negb_true_iff. exact (proj1 (word_char_plain y Hy)).
Qed.

Lemma index_of_l_single (c : ascii) (l : list ascii) :
  forall i,
    forallb (fun x => negb (Ascii.eqb c x)) l = true ->
    index_of_l [c] l i = None.
Proof.
  induction l as [|x l IH]; intros i Hl; [reflexivity|].
  cbn [forallb] in Hl. apply andb_prop in Hl as [Hx Hl]. apply negb_true_iff in Hx.
  cbn [index_of_l starts_with_l]. rewrite Hx. cbn [andb]. exact (IH (S i) Hl).
Qed.

(** A greedy loop followed by the end of the input. *)
Lemma greedy_span_to_end {A : Type} (p : ascii -> bool) (s : list ascii) :
  forall (i : nat) (k : nat -> option A),
    greedy_span p i s (fun j s' => match s' with [] => k j | _ :: _ => None end)
    = if forallb p s then k (i + List.length s) else None.
Proof.
  induction s as [|x s IH]; intros i k; cbn [greedy_span forallb List.length].
  - rewrite Nat.add_0_r. reflexivity.
  - destruct (p x); cbn [andb]; [|reflexivity].
    rewrite IH. replace (S i + List.length s) with (i + S (List.length s)) by lia.
    destruct (forallb p s); [destruct (k _)|]; reflexivity.
Qed.

Lemma accepts_word_us (x : ascii) : accepts false word_us x = is_word x.
Proof.
  unfold accepts, word_us, set_has. cbn [existsb cls_has andb xorb].
  rewrite !orb_false_r. unfold is_word.
  destruct (is_lower x || is_upper x || is_digit x); [reflexivity|].
  cbn [orb]. rewrite Ascii.eqb_sym. destruct (Ascii.eqb "_" x); reflexivity.
Qed.

Lemma run_bol (icase : bool) (A : Type) (i : nat) (s : list ascii) (c : caps)
    (k : nat -> list ascii -> caps -> option A) :
  run icase A Bol i s c k = if Nat.eqb i 0 then k i s c else None.
Proof. reflexivity. Qed.

Lemma run_eol (icase : bool) (A : Type) (i : nat) (s : list ascii) (c : caps)
    (k : nat -> list ascii -> caps -> option A) :
  run icase A Eol i s c k = match s with [] => k i s c | _ :: _ => None end.
Proof. reflexivity. Qed.

(** [/^[\w_]+$/] accepts the texts of word characters. *)
Lemma test_identifier (v : string) :
  v <> "" ->
  forallb is_word (chars v) = true ->
  test RE_identifier v = true.
Proof.
  intros Hv Hword. unfold test, exec.
  destruct (chars v) as [|x l] eqn:Hchars.
  - destruct v; [contradiction | discriminate].
  - cbn [search]. unfold match_at.
    change (source RE_identifier) with (Seq Bol (Seq (Plus true word_us) Eol)).
    change (ignoreCase RE_identifier) with false.
    unfold Plus. rewrite run_seq, run_bol. cbn [Nat.eqb]. rewrite !run_seq.
    rewrite run_atom by reflexivity.
    cbn [forallb] in Hword. apply andb_prop in Hword as [Hx Hl].
    rewrite accepts_word_us, Hx. rewrite run_star_greedy by reflexivity.
    rewrite (greedy_span_ext _ l 1 _
               (fun j s' => match s' with
                            | [] => Some (RMatch 0 j (of_chars (firstn (j - 0) (x :: l))) [])
                            | _ :: _ => None
                            end))
      by (intros j [|y s']; rewrite run_eol; reflexivity).
    pose proof (greedy_span_to_end (accepts false word_us) l 1
                  (fun j => Some (RMatch 0 j (of_chars (firstn (j - 0) (x :: l))) [])))
      as Hend.
    cbv beta in Hend. rewrite Hend.
    rewrite (forallb_impl is_word (accepts false word_us) l); [reflexivity| |exact Hl].
    intros y Hy. rewrite accepts_word_us. exact Hy.
Qed.

(** The value of a text of word characters. *)
Lemma evaluate_identifier (v : string) (variables : bindings) (st : resolver) :
  v <> "" ->
  forallb is_word (chars v) = true ->
  evaluateLiquidExpression v variables st
  = (Ok (match variables !! v with
         | Some x => if is_undefined x then VStr v else x
         | None => VStr v
         end), st).
Proof.
  intros Hv Hword.
  assert (Hfirst : exists x l, chars v = x :: l /\ is_word x = true).
  { destruct (chars v) as [|x l] eqn:Hchars.
    - destruct v; [contradiction | discriminate].
    - exists x, l. split; [reflexivity|]. cbn [forallb] in Hword.
      apply andb_prop in Hword as [Hx _]. exact Hx. }
  destruct Hfirst as (x & l & Hchars & Hx).
  assert (Hquoted : is_quoted v = false).
  { unfold is_quoted, startsWith. rewrite Hchars. cbn [chars list_ascii_of_string starts_with_l].
    destruct (word_char_plain x Hx) as (_ & _ & _ & _ & _ & _ & Hq & Hdq).
    rewrite Hq, Hdq. reflexivity. }
  assert (Hbracket : includes v "[" = false).
  { unfold includes, indexOf. cbn [chars list_ascii_of_string].
    rewrite index_of_l_single; [reflexivity|].
    apply (forallb_impl is_word); [|exact Hword].
    intros y Hy. apply negb_true_iff. apply (word_char_plain y Hy). }
  assert (Hdot : includes v "." = false).
  { unfold includes, indexOf. cbn [chars list_ascii_of_string].
    rewrite index_of_l_single; [reflexivity|].
    apply (forallb_impl is_word); [|exact Hword].
    intros y Hy. apply negb_true_iff. apply (word_char_plain y Hy). }
  unfold evaluateLiquidExpression. cbn [evaluateLiquidExpression_fuel].
  rewrite (pipe_parts_word v Hv Hword), Hquoted, Hbracket, Hdot.
  rewrite (test_identifier v Hv Hword).
  unfold bind, ret, lookup_var. cbn [foldM].
  destruct (variables !! v) as [y|]; reflexivity.
Qed.

(** X10.  A name evaluates to the value it is bound to, and to its own text when
    it is not bound (or bound to [undefined]); the settings and the caches
    play no part.  A text of digits is a name: it evaluates to itself as a
    text, not to a number.  (The names of the members that every object
    inherits are left aside.) *)
Theorem evaluateLiquidExpression_identifier (v : string) (variables : bindings)
    (st : resolver) :
  is_name v = true ->
  inherited v = false ->
  evaluateLiquidExpression v variables st
  = (Ok (match variables !! v with
         | Some x => if is_undefined x then VStr v else x
         | None => VStr v
         end), st).
Proof.
  intros Hname _. unfold is_name in Hname. apply andb_prop in Hname as [Hv Hword].
  apply negb_true_iff, String.eqb_neq in Hv.
  apply evaluate_identifier; assumption.
Qed.

(** Inside quotes opened by [q], the pipe scanner reads on until it meets
    [q] again: nothing is cut. *)
Lemma split_pipes_in_quotes (q : ascii) (body tail : list ascii) :
  forall prev current parts,
    existsb (Ascii.eqb q) body = false ->
    exists prev',
      split_pipes (body ++ tail)%list prev current true q parts
      = split_pipes tail prev' (rev body ++ current)%list true q parts.
Proof.
  induction body as [|x body IH]; intros prev current parts Hbody.
  - exists prev. reflexivity.
  - cbn [existsb] in Hbody. apply orb_false_elim in Hbody as [Hx Hbody].
    rewrite Ascii.eqb_sym in Hx.
    destruct (IH (Some x) (x :: current) parts Hbody) as (prev' & Hrest).
    exists prev'. cbn [app split_pipes rev]. rewrite <- app_assoc. cbn [app].
    rewrite Hx, andb_false_r. cbn [negb].
    destruct ((Ascii.eqb x dquote || Ascii.eqb x "'")
              && match prev with Some p => negb (Ascii.eqb p "\") | None => true end);
      exact Hrest.
Qed.

Lemma trim_between (a b : ascii) (m : list ascii) :
  is_space a = false ->
  is_space b = false ->
  trim (of_chars (a :: m ++ [b])) = of_chars (a :: m ++ [b]).
Proof.
  intros Ha Hb. rewrite trim_of_chars. cbn [drop_space]. rewrite Ha.
  assert (Hrev : rev (a :: m ++ [b]) = b :: rev (a :: m)).
  { change (a :: m ++ [b])%list with ((a :: m) ++ [b])%list. rewrite rev_app_distr. reflexivity. }
  rewrite Hrev. cbn [drop_space]. rewrite Hb. rewrite <- Hrev, rev_involutive. reflexivity.
Qed.

(** A text between two quotes [q] that has no [q] inside is one piece for
    the pipe scanner, pipes or not. *)
Lemma pipe_parts_quoted (q : ascii) (body : string) :
  q = "'"%char \/ q = dquote ->
  existsb (Ascii.eqb q) (chars body) = false ->
  pipe_parts (String q (body ++ String q "")) = [String q (body ++ String q "")].
Proof.
  intros Hq Hbody. unfold pipe_parts.
  assert (Hchars : chars (String q (body ++ String q "")) = q :: chars body ++ [q]).
  { cbn [chars list_ascii_of_string]. f_equal. apply chars_append. }
  rewrite Hchars.
  assert (Hopen : split_pipes (q :: chars body ++ [q]) None [] false "000" []
                  = split_pipes (chars body ++ [q]) (Some q) [q] true q []).
  { destruct Hq as [-> | ->]; reflexivity. }
  rewrite Hopen.
  destruct (split_pipes_in_quotes q (chars body) [q] (Some q) [q] [] Hbody) as (prev' & ->).
  assert (Hclose : split_pipes [q] prev' (rev (chars body) ++ [q]) true q []
                   = [trim (of_chars (rev (q :: rev (chars body) ++ [q])))]).
  { destruct Hq as [-> | ->]; cbn [split_pipes];
      destruct prev' as [p|]; try destruct (Ascii.eqb p "\"); reflexivity. }
  rewrite Hclose. f_equal.
  assert (Hrev : rev (q :: rev (chars body) ++ [q]) = q :: chars body ++ [q]).
  { change (q :: rev (chars body) ++ [q])%list with ((q :: rev (chars body)) ++ [q])%list.
    rewrite rev_app_distr. cbn [rev app]. rewrite rev_involutive. reflexivity. }
  rewrite Hrev, trim_between by (destruct Hq as [-> | ->]; reflexivity).
  rewrite <- Hchars. apply of_chars_chars.
Qed.

(** X11.  A quoted text evaluates to what stands between the quotes, when the
    quote character does not occur there: pipes inside the quotes are no
    filters, and nothing is looked up. *)
Theorem evaluateLiquidExpression_quoted (q : ascii) (body : string)
    (variables : bindings) (st : resolver) :
  q = "'"%char \/ q = dquote ->
  existsb (Ascii.eqb q) (chars body) = false ->
  evaluateLiquidExpression (String q (body ++ String q "")) variables st
  = (Ok (VStr body), st).
Proof.
  intros Hq Hbody.
  assert (Hchars : chars (String q (body ++ String q "")) = q :: chars body ++ [q]).
  { cbn [chars list_ascii_of_string]. f_equal. apply chars_append. }
  assert (Hquoted : is_quoted (String q (body ++ String q "")) = true).
  { unfold is_quoted, startsWith, endsWith. rewrite Hchars.
    change (q :: chars body ++ [q])%list with ((q :: chars body) ++ [q])%list.
    rewrite rev_app_distr.
    destruct Hq as [-> | ->]; cbn [chars list_ascii_of_string rev app starts_with_l];
      rewrite ?Ascii.eqb_refl; reflexivity. }
  assert (Hslice : slice_1_m1 (String q (body ++ String q "")) = body).
  { unfold slice_1_m1. rewrite Hchars. cbn [List.length skipn].
    rewrite length_app. cbn [List.length].
    replace (S (List.length (chars body) + 1) - 1 - 1) with (List.length (chars body) + 0)
      by lia.
    rewrite skipn_O, firstn_app_2, firstn_O, app_nil_r. apply of_chars_chars. }
  unfold evaluateLiquidExpression. cbn [evaluateLiquidExpression_fuel].
  rewrite (pipe_parts_quoted q body Hq Hbody), Hquoted, Hslice.
  reflexivity.
Qed.

(** ** Blocks of straight lines *)

Lemma bind_pointwise {S A B : Type} (c : M S A) (k1 k2 : A -> M S B) (st : S) :
  (forall x st', k1 x st' = k2 x st') -> bind c k1 st = bind c k2 st.
Proof.
  intros Hk. unfold bind. destruct (c st) as [[x|e] st']; [apply Hk | reflexivity].
Qed.

Lemma bind_assoc {S A B C : Type} (c : M S A) (k : A -> M S B) (g : B -> M S C) (st : S) :
  bind (bind c k) g st = bind c (fun x => bind (k x) g) st.
Proof. unfold bind. destruct (c st) as [[x|e] st']; reflexivity. Qed.

Lemma assign_is_no_echo (line : string) :
  startsWith line "assign " = true -> startsWith line "echo " = false.
Proof.
  unfold startsWith. destruct (chars line) as [|x l]; [discriminate|].
  cbn [chars list_ascii_of_string starts_with_l].
  destruct (Ascii.eqb_spec "a" x) as [<-|]; [reflexivity | discriminate].
Qed.

(** The main loop on straight lines does what [run_lines] does. *)
Lemma run_block_straight (fuel : nat) (lines : list string) :
  forall i variables output st,
    forallb straight_line (skipn i lines) = true ->
    List.length lines - i < fuel ->
    run_block fuel lines i false variables output st
    = (vo <- run_lines (skipn i lines) variables output ;; ret (snd vo)) st.
Proof.
  induction fuel as [|fuel IH]; intros i variables output st Hstraight Hfuel; [lia|].
  cbn [run_block].
  destruct (nth_error lines i) as [line|] eqn:Hline.
  - assert (Hskip : skipn i lines = line :: skipn (S i) lines).
    { clear - Hline. revert i Hline.
      induction lines as [|x lines IHl]; intros [|i] Hline; try discriminate.
      - injection Hline as ->. reflexivity.
      - cbn [skipn]. apply IHl. exact Hline. }
    assert (Hlength : i < List.length lines)
      by (apply nth_error_Some; congruence).
    rewrite Hskip in Hstraight |- *. cbn [forallb] in Hstraight.
    apply andb_prop in Hstraight as [Hthis Hrest].
    unfold straight_line in Hthis. apply negb_true_iff in Hthis.
    repeat (apply orb_false_elim in Hthis as [Hthis ?]).
    rewrite Hthis. cbn [orb run_lines].
    repeat match goal with Hc : _ = false |- _ => rewrite Hc end. cbn [orb].
    destruct (startsWith line "assign ") eqn:Hassign.
    + rewrite (assign_is_no_echo line Hassign), bind_assoc.
      apply bind_pointwise. intros variables' st'.
      exact (IH (S i) variables' output st' Hrest ltac:(lia)).
    + destruct (startsWith line "echo ") eqn:Hecho.
      * rewrite bind_assoc. apply bind_pointwise. intros output' st'.
        exact (IH (S i) variables output' st' Hrest ltac:(lia)).
      * exact (IH (S i) variables output st Hrest ltac:(lia)).
  - apply nth_error_None in Hline. rewrite skipn_all2 by exact Hline. reflexivity.
Qed.

(** X12.  A block without comment, [for] and [unless] lines is run line by
    line: the [assign] and [echo] lines take effect in order and every
    other line is passed over, the [if], [elsif], [else] and [endif] lines
    among them, so that the lines of all branches of a conditional run. *)
Theorem executeLiquidBlock_straight_lines (liquidCode : string) (st : resolver) :
  forallb straight_line (block_lines liquidCode) = true ->
  executeLiquidBlock liquidCode st
  = (vo <- run_lines (block_lines liquidCode) ∅ "" ;; ret (snd vo)) st.
Proof.
  intros Hstraight. unfold executeLiquidBlock.
  change (List.filter (fun l => negb (String.eqb l "")) (map trim (split liquidCode LF)))
    with (block_lines liquidCode).
  apply (run_block_straight _ (block_lines liquidCode) 0 ∅ "" st); [exact Hstraight | lia].
Qed.

(** ** The arithmetic filters *)

(** *** Rounding never gives not-a-number *)

Lemma shr_1_nonneg (mrs : shr_record) : (0 <= shr_m mrs)%Z -> (0 <= shr_m (shr_1 mrs))%Z.
Proof.
  destruct mrs as [m r s]. simpl. destruct m as [|p|p]; [| destruct p |]; simpl; lia.
Qed.

Lemma iter_shr_1_nonneg (p : positive) :
  forall mrs, (0 <= shr_m mrs)%Z -> (0 <= shr_m (@SpecFloat.iter_pos shr_record shr_1 p mrs))%Z.
Proof.
  induction p as [p IH|p IH|]; intros mrs Hm; simpl.
  - apply IH, IH, shr_1_nonneg, Hm.
  - apply IH, IH, Hm.
  - apply shr_1_nonneg, Hm.
Qed.

Lemma shr_fexp_nonneg (m e : Z) (l : location) :
  (0 <= m)%Z -> (0 <= shr_m (fst (shr_fexp prec emax m e l)))%Z.
Proof.
  intros Hm. unfold shr_fexp, shr.
  assert (Hl : (0 <= shr_m (shr_record_of_loc m l))%Z)
    by (destruct l as [|[]]; exact Hm).
  destruct (fexp prec emax (Zdigits2 m + e) - e)%Z; simpl; try exact Hl.
  apply iter_shr_1_nonneg, Hl.
Qed.

Lemma round_nearest_even_nonneg (mx : Z) (lx : location) :
  (0 <= mx)%Z -> (0 <= round_nearest_even mx lx)%Z.
Proof.
  intros Hm. destruct lx as [|[]]; simpl; try destruct (Z.even mx); lia.
Qed.

Lemma binary_round_aux_not_nan (sx : bool) (mx ex : Z) (lx : location) :
  (0 <= mx)%Z -> is_nan (binary_round_aux prec emax sx mx ex lx) = false.
Proof.
  intros Hm. unfold binary_round_aux.
  pose proof (shr_fexp_nonneg mx ex lx Hm) as H1.
  destruct (shr_fexp prec emax mx ex lx) as [mrs' e']. simpl in H1.
  pose proof (shr_fexp_nonneg _ e' loc_Exact
                (round_nearest_even_nonneg _ (loc_of_shr_record mrs') H1)) as H2.
  destruct (shr_fexp prec emax (round_nearest_even (shr_m mrs') (loc_of_shr_record mrs'))
              e' loc_Exact) as [mrs'' e''].
  simpl in H2. destruct (shr_m mrs'') as [|m|m]; [reflexivity| |lia].
  destruct (e'' <=? emax - prec)%Z; reflexivity.
Qed.

Lemma mul_not_nan (x : number) (s : bool) (m : positive) (e : Z) :
  is_nan x = false -> is_nan (mul x (S754_finite s m e)) = false.
Proof.
  destruct x as [sx|sx| |sx mx ex]; intros Hx; try reflexivity; [discriminate|].
  apply binary_round_aux_not_nan. lia.
Qed.

Lemma div_not_nan (x : number) (s : bool) (m : positive) (e : Z) :
  is_nan x = false -> is_nan (div x (S754_finite s m e)) = false.
Proof.
  destruct x as [sx|sx| |sx mx ex]; intros Hx; try reflexivity; [discriminate|].
  unfold div, SFdiv, SFdiv_core_binary.
  set (e' := Z.min _ _). set (m' := match (ex - e - e')%Z with Z0 => _ | _ => _ end).
  assert (Hm' : (0 <= m')%Z).
  { unfold m'. destruct (ex - e - e')%Z; [lia| |lia]. apply Z.shiftl_nonneg. lia. }
  pose proof (Z.div_pos m' (Z.pos m) Hm' ltac:(lia)) as Hq.
  unfold Z.div in Hq. destruct (Z.div_eucl m' (Z.pos m)) as [q r].
  apply binary_round_aux_not_nan, Hq.
Qed.

Lemma of_ratio_not_nan (neg : bool) (p q : Z) :
  (0 <= p)%Z -> (0 < q)%Z -> is_nan (of_ratio neg p q) = false.
Proof.
  intros Hp Hq. unfold of_ratio. destruct (p =? 0)%Z; [reflexivity|].
  set (k := Z.max 0 _).
  assert (Hpk : (0 <= p * 2 ^ k)%Z) by (apply Z.mul_nonneg_nonneg; [lia | apply Z.pow_nonneg; lia]).
  pose proof (Z.div_pos _ q Hpk Hq) as Hd.
  unfold Z.div in Hd. destruct (Z.div_eucl (p * 2 ^ k) q) as [d r].
  apply binary_round_aux_not_nan, Hd.
Qed.

Lemma round_not_nan (x : number) : is_nan x = false -> is_nan (round x) = false.
Proof.
  destruct x as [sx|sx| |sx mx ex]; intros Hx; try reflexivity; [discriminate|].
  unfold round. destruct (0 <=? ex)%Z eqn:He; [reflexivity|]. apply Z.leb_gt in He.
  set (q := (2 ^ (- ex))%Z).
  assert (Hq : (0 < q)%Z) by (apply Z.pow_pos_nonneg; lia).
  set (r := if sx then _ else _).
  destruct (r =? 0)%Z; [reflexivity|].
  apply of_ratio_not_nan; [|lia].
  unfold r. destruct sx.
  - destruct (Z.le_gt_cases (- (2 * Z.pos mx) + q) 0) as [Hle|Hgt].
    + pose proof (Z.div_le_upper_bound (- (2 * Z.pos mx) + q) (2 * q) 0 ltac:(lia) ltac:(lia)).
      lia.
    + rewrite Z.div_small by lia. lia.
  - apply Z.div_pos; lia.
Qed.

Lemma round5_not_nan (x : number) : is_nan x = false -> is_nan (round5 x) = false.
Proof.
  intros Hx. unfold round5.
  change hundred_thousand with (S754_finite false 6871947673600000 (-36)).
  apply div_not_nan, round_not_nan, mul_not_nan, Hx.
Qed.

(** X13.  [times], [divided_by], [minus] and [plus] give a number that is not
    not-a-number, whatever the value and the argument are: the rounding to
    five decimals that follows the guards of [times] and [divided_by] does
    not bring not-a-number back.  The filter throws only what the
    evaluation of its argument throws, and changes the state only as that
    evaluation does. *)
Theorem arithmetic_filters_give_numbers
    (evaluate : string -> bindings -> M resolver value)
    (value : value) (filter : string) (variables : bindings) (st : resolver) (m : rmatch) :
  exec RE_filter filter = Some m ->
  In (group_text 1 m) ["times"; "divided_by"; "minus"; "plus"] ->
  match group 2 m with
  | Some arg =>
      match evaluate arg variables st with
      | (Ok _, st') =>
          exists x, applyLiquidFilter evaluate value filter variables st = (Ok (VNum x), st')
                    /\ is_nan x = false
      | (Throw e, st') =>
          applyLiquidFilter evaluate value filter variables st = (Throw e, st')
      end
  | None =>
      exists x, applyLiquidFilter evaluate value filter variables st = (Ok (VNum x), st)
                /\ is_nan x = false
  end.
Proof.
  intros Hm Hname. unfold applyLiquidFilter. rewrite Hm.
  assert (Hguard : forall x, is_nan (if is_nan x then zero else x) = false)
    by (intros x; destruct (is_nan x) eqn:Hx; [reflexivity | exact Hx]).
  assert (Hround : forall x, exists y,
            (if is_nan x then ret (VNum zero) else ret (VNum (round5 x)))
            = (ret (VNum y) : M resolver JsValue.value) /\ is_nan y = false).
  { intros x. destruct (is_nan x) eqn:Hx; eexists; split; try reflexivity.
    apply round5_not_nan, Hx. }
  simpl in Hname.
  destruct Hname as [<-|[<-|[<-|[<-|[]]]]]; cbn [String.eqb Ascii.eqb Bool.eqb];
    destruct (group 2 m) as [arg|]; unfold bind, ret;
    try (destruct (evaluate arg variables st) as [[v|e] st']; [|reflexivity]).
  - destruct (Hround (mul (parseFloat value) (parseFloat v))) as (y & Hy & Hnan).
    exists y. split; [|exact Hnan]. exact (f_equal (fun c => c st') Hy).
  - destruct (Hround (mul (parseFloat value) one)) as (y & Hy & Hnan).
    exists y. split; [|exact Hnan]. exact (f_equal (fun c => c st) Hy).
  - destruct (is_zero (parseFloat v)); [exists zero; split; reflexivity|].
    destruct (Hround (div (parseFloat value) (parseFloat v))) as (y & Hy & Hnan).
    exists y. split; [|exact Hnan]. exact (f_equal (fun c => c st') Hy).
  - change (is_zero one) with false. cbv iota.
    destruct (Hround (div (parseFloat value) one)) as (y & Hy & Hnan).
    exists y. split; [|exact Hnan]. exact (f_equal (fun c => c st) Hy).
  - eexists. split; [reflexivity | apply Hguard].
  - eexists. split; [reflexivity | apply Hguard].
  - eexists. split; [reflexivity | apply Hguard].
  - eexists. split; [reflexivity | apply Hguard].
Qed.

(** ** The shape of the registry *)

Lemma well_formed_insert (m : gmap string entry) (name : string) (e : entry) :
  well_formed m -> well_formed_entry name e -> well_formed (<[name := e]> m).
Proof.
  intros Hm He other d.
  destruct (decide (name = other)) as [<-|Hne].
  - rewrite lookup_insert_eq. intros [= <-]. exact He.
  - rewrite lookup_insert_ne by exact Hne. apply Hm.
Qed.

Lemma keeps_well_formed_ret {A : Type} (a : A) : keeps_well_formed (ret a).
Proof. intros s Hs. exact Hs. Qed.

Lemma keeps_well_formed_bind {A B : Type} (c : M state A) (k : A -> M state B) :
  keeps_well_formed c -> (forall a, keeps_well_formed (k a)) -> keeps_well_formed (bind c k).
Proof.
  intros Hc Hk s Hs. unfold bind. specialize (Hc s Hs).
  destruct (c s) as [[a|e] s']; simpl in *.
  - apply Hk, Hc.
  - exact Hc.
Qed.

Lemma keeps_well_formed_foldM {A B : Type} (f : B -> A -> M state B) (l : list A) (b : B) :
  (forall b x, keeps_well_formed (f b x)) -> keeps_well_formed (foldM f l b).
Proof.
  intros Hf s.
  apply (foldM_preserves
           (fun s s' => well_formed (cssVariables s) -> well_formed (cssVariables s'))).
  - auto.
  - auto.
  - intros. apply Hf. assumption.
Qed.

Lemma keeps_well_formed_lift {A : Type} (c : M resolver A) : keeps_well_formed (lift c).
Proof. intros s Hs. rewrite lift_registry. exact Hs. Qed.

Lemma keeps_well_formed_getExtensionConfig : keeps_well_formed getExtensionConfig.
Proof.
  intros s Hs. unfold getExtensionConfig. destruct (cachedConfig s); exact Hs.
Qed.

Lemma recordVariable_well_formed (filePath : string) (mediaQuery : option string)
    (m : rmatch) :
  keeps_well_formed (recordVariable filePath mediaQuery m).
Proof.
  intros s Hs. unfold recordVariable, bind, gets, registry_set, modify, throw, ret. simpl.
  assert (Hq : forall q, query_given mediaQuery = Some q -> q <> "").
  { intros q. unfold query_given. destruct mediaQuery as [q'|]; [|discriminate].
    destruct (String.eqb_spec q' ""); [discriminate|]. intros [= <-]. assumption. }
  destruct (cssVariables s !! _) as [varData|] eqn:Hlook.
  - destruct (Hs _ _ Hlook) as (Hname & Hfile & Hmedia).
    destruct (query_given mediaQuery) as [q|]; [|exact Hs].
    destruct (e_media varData) as [variants|] eqn:Hvariants; simpl; [|exact Hs].
    apply well_formed_insert; [exact Hs|].
    split; [exact Hname|]. split; [exact Hfile|].
    intros variants' v [= <-] Hin. apply in_app_or in Hin.
    destruct Hin as [Hin|[<-|[]]].
    + exact (Hmedia variants v eq_refl Hin).
    + apply Hq. reflexivity.
  - simpl. apply well_formed_insert; [exact Hs|].
    split; [reflexivity|]. split; [reflexivity|].
    intros variants v [= <-] Hin.
    destruct (query_given mediaQuery) as [q|]; [|destruct Hin].
    destruct Hin as [<-|[]]. apply Hq. reflexivity.
Qed.

Lemma record_if_new_well_formed (name : string) (e : entry) :
  well_formed_entry name e ->
  keeps_well_formed
    (registry <- gets cssVariables ;;
     match registry !! name with
     | None => registry_set name e
     | Some _ => ret tt
     end).
Proof.
  intros He s Hs. unfold bind, gets, registry_set, modify, ret. simpl.
  destruct (cssVariables s !! name); simpl; [exact Hs|].
  apply well_formed_insert; assumption.
Qed.

Lemma parseVariablesInBlock_well_formed (content filePath : string)
    (mediaQuery : option string) :
  keeps_well_formed (parseVariablesInBlock content filePath mediaQuery).
Proof. apply keeps_well_formed_foldM. intros. apply recordVariable_well_formed. Qed.

Lemma keeps_well_formed_frame {A : Type} (c : M state A) :
  (forall s, cssVariables (snd (c s)) = cssVariables s) -> keeps_well_formed c.
Proof. intros Hc s Hs. rewrite Hc. exact Hs. Qed.

Lemma parseRootBlocks_well_formed (text filePath : string) :
  keeps_well_formed (parseRootBlocks text filePath).
Proof.
  unfold parseRootBlocks.
  apply keeps_well_formed_bind;
    [apply keeps_well_formed_frame; reflexivity | intros lastIndex].
  apply keeps_well_formed_bind; [|intros _; apply keeps_well_formed_frame; reflexivity].
  apply keeps_well_formed_foldM. intros _ rootStartMatch.
  apply keeps_well_formed_bind; [apply keeps_well_formed_frame; reflexivity | intros _].
  unfold parseRootBlock.
  destruct (findMatchingBrace _ _); [|apply keeps_well_formed_ret].
  apply keeps_well_formed_bind; [apply parseVariablesInBlock_well_formed|]. intros _.
  apply keeps_well_formed_foldM. intros _ mediaMatch. unfold parseMediaBlock.
  destruct (findMatchingBrace _ _); [|apply keeps_well_formed_ret].
  apply parseVariablesInBlock_well_formed.
Qed.

Lemma parseLiquidEchoVariables_well_formed (text filePath : string) :
  keeps_well_formed (parseLiquidEchoVariables text filePath).
Proof.
  apply keeps_well_formed_foldM. intros _ echoMatch.
  apply keeps_well_formed_foldM. intros _ varMatch.
  apply record_if_new_well_formed.
  split; [reflexivity|]. split; [reflexivity|]. discriminate.
Qed.

Lemma parseClassBlocks_well_formed (text filePath : string) :
  keeps_well_formed (parseClassBlocks text filePath).
Proof.
  apply keeps_well_formed_foldM. intros _ classStartMatch. unfold parseClassBlock.
  destruct (findMatchingBrace _ _); [|apply keeps_well_formed_ret].
  apply keeps_well_formed_foldM. intros _ line.
  destruct (_ || _); [apply keeps_well_formed_ret|].
  apply keeps_well_formed_foldM. intros _ varMatch.
  apply record_if_new_well_formed.
  split; [reflexivity|]. split; [reflexivity|].
  intros variants v [= <-] [].
Qed.

Lemma parseCssVariables_well_formed (text filePath : string) :
  keeps_well_formed (parseCssVariables text filePath).
Proof.
  unfold parseCssVariables.
  destruct (_ || _); [apply keeps_well_formed_ret|].
  apply keeps_well_formed_bind; [apply keeps_well_formed_getExtensionConfig|].
  intros config.
  destruct (_ ++ _)%list; [apply keeps_well_formed_ret|].
  apply keeps_well_formed_foldM. intros _ block. unfold processStyleBlock.
  apply keeps_well_formed_bind; [apply keeps_well_formed_lift|].
  intros cleanCSS. destruct (negb _); [apply keeps_well_formed_ret|].
  apply keeps_well_formed_bind; [apply parseLiquidEchoVariables_well_formed|]. intros _.
  apply keeps_well_formed_bind; [apply parseRootBlocks_well_formed|]. intros _.
  destruct (negb _); [apply parseClassBlocks_well_formed | apply keeps_well_formed_ret].
Qed.

Lemma scanFile_well_formed (f : string * string) : keeps_well_formed (scanFile f).
Proof.
  destruct f as [fsPath text]. unfold scanFile.
  destruct (includes text ":root"); [|apply keeps_well_formed_ret].
  intros s Hs. pose proof (parseCssVariables_well_formed text fsPath s Hs) as Hk.
  destruct (parseCssVariables text fsPath s) as [[[]|e] s']; exact Hk.
Qed.

(** X14.  After a scan, whatever the state before it and whatever the files hold,
    every name of the registry begins with two dashes, every entry names
    the file of its path, and no media variant has an empty query; the
    extraction of one more file keeps the registry so, also when it
    throws. *)
Theorem scan_leaves_well_formed_registry (w : workspace) (s : state) :
  let s1 := snd (scanLiquidFiles w s) in
  well_formed (cssVariables s1)
  /\ forall text filePath,
       well_formed (cssVariables (snd (parseCssVariables text filePath s1))).
Proof.
  intros s1.
  assert (Hscan : well_formed (cssVariables s1)).
  { unfold s1, scanLiquidFiles.
    match goal with |- context [bind (scanLiquidFiles_begin w) ?k] => set (rest := k) end.
    assert (Hrest : keeps_well_formed (rest tt)).
    { unfold rest. destruct (negb (hasFolders w)); [apply keeps_well_formed_ret|].
      apply keeps_well_formed_bind; [apply keeps_well_formed_getExtensionConfig|].
      intros config. apply keeps_well_formed_bind.
      - apply keeps_well_formed_foldM. intros _ f. apply scanFile_well_formed.
      - intros _. apply keeps_well_formed_bind; [|intros; apply keeps_well_formed_ret].
        intros s0 Hs0. exact Hs0. }
    change (bind (scanLiquidFiles_begin w) rest s)
      with (rest tt (snd (scanLiquidFiles_begin w s))).
    apply Hrest. intros name e. unfold scanLiquidFiles_begin, modify. simpl.
    rewrite lookup_empty. discriminate. }
  split; [exact Hscan|].
  intros text filePath. apply parseCssVariables_well_formed, Hscan.
Qed.

(** ** Dotted names *)

(** A greedy loop stops at the first code unit that does not qualify; when
    what follows matches there, nothing shorter is tried. *)
Lemma greedy_span_stop {A : Type} (p : ascii -> bool) (a : list ascii) (y : ascii)
    (rest : list ascii) (r : A) :
  forall (i : nat) (k : nat -> list ascii -> option A),
    forallb p a = true ->
    p y = false ->
    k (i + List.length a) (y :: rest) = Some r ->
    greedy_span p i (a ++ y :: rest) k = Some r.
Proof.
  induction a as [|x a IH]; intros i k Ha Hy Hk; cbn [app greedy_span List.length] in *.
  - rewrite Hy. rewrite Nat.add_0_r in Hk. exact Hk.
  - cbn [forallb] in Ha. apply andb_prop in Ha as [Hx Ha]. rewrite Hx.
    rewrite (IH (S i) k Ha Hy); [reflexivity|].
    replace (S i + List.length a) with (i + S (List.length a)) by lia. exact Hk.
Qed.

(** A greedy loop over code units that all qualify, before something that
    matches at the end of the input only. *)
Lemma greedy_span_at_end {A : Type} (p : ascii -> bool) (s : list ascii) :
  forall (i : nat) (k : nat -> list ascii -> option A),
    forallb p s = true ->
    (forall j s', s' <> [] -> k j s' = None) ->
    greedy_span p i s k = k (i + List.length s) [].
Proof.
  induction s as [|x s IH]; intros i k Hs Hk; cbn [greedy_span List.length].
  - rewrite Nat.add_0_r. reflexivity.
  - cbn [forallb] in Hs. apply andb_prop in Hs as [Hx Hs]. rewrite Hx.
    rewrite (IH (S i) k Hs Hk), (Hk i (x :: s)) by discriminate.
    replace (i + S (List.length s)) with (S i + List.length s) by lia.
    destruct (k _ _); reflexivity.
Qed.

Lemma firstn_app_exact {A : Type} (l r : list A) : firstn (List.length l) (l ++ r) = l.
Proof. induction l as [|x l IH]; [destruct r; reflexivity|]. simpl. f_equal. exact IH. Qed.

(** [REGEX.propAccess] on two names joined by a dot. *)
Lemma exec_propAccess (x y : ascii) (la lb : list ascii) :
  forallb is_word (x :: la) = true ->
  forallb is_word (y :: lb) = true ->
  exists m,
    exec REGEX_propAccess (of_chars ((x :: la) ++ "."%char :: y :: lb)) = Some m
    /\ group_text 1 m = of_chars (x :: la)
    /\ group_text 2 m = of_chars (y :: lb).
Proof.
  intros Ha Hb. cbn [forallb] in Ha, Hb.
  apply andb_prop in Ha as [Hx Hla]. apply andb_prop in Hb as [Hy Hlb].
  assert (Hwa : forallb (accepts false word_us) la = true).
  { apply (forallb_impl is_word); [|exact Hla]. intros z Hz. rewrite accepts_word_us. exact Hz. }
  assert (Hwb : forallb (accepts false word_us) lb = true).
  { apply (forallb_impl is_word); [|exact Hlb]. intros z Hz. rewrite accepts_word_us. exact Hz. }
  set (s := ((x :: la) ++ "."%char :: y :: lb)%list).
  set (n := List.length s).
  exists (RMatch 0 n (of_chars (firstn (n - 0) s))
            [Some (of_chars (x :: la)); Some (of_chars (y :: lb))]).
  split; [|split; reflexivity].
  unfold exec. rewrite chars_of_chars. unfold s at 1. cbn [app search]. unfold match_at.
  change (source REGEX_propAccess)
    with (Seq Bol (Seq (Group 1 (Plus true word_us))
                     (Seq (Chr ".") (Seq (Group 2 (Plus true word_us)) Eol)))).
  change (ignoreCase REGEX_propAccess) with false.
  change (ngroups REGEX_propAccess) with 2.
  unfold Plus. rewrite run_seq, run_bol. cbn [Nat.eqb].
  rewrite run_seq, run_group, run_seq, (run_atom _ _ word_us) by reflexivity.
  rewrite accepts_word_us, Hx. rewrite run_star_greedy by reflexivity.
  rewrite (greedy_span_stop (accepts false word_us) la "." (y :: lb)
             (RMatch 0 n (of_chars (firstn (n - 0) s))
                [Some (of_chars (x :: la)); Some (of_chars (y :: lb))]));
    [reflexivity | exact Hwa | reflexivity |].
  cbv beta. rewrite run_seq, (run_atom _ _ (Chr ".")) by reflexivity.
  change (accepts false (Chr ".") ".") with true. cbv iota.
  rewrite run_seq, run_group, run_seq, (run_atom _ _ word_us) by reflexivity.
  rewrite accepts_word_us, Hy. rewrite run_star_greedy by reflexivity.
  rewrite greedy_span_at_end.
  - rewrite run_eol. cbn [map seq get_cap set_cap Nat.eqb].
    assert (Hn : S (S (1 + List.length la)) + List.length lb = n)
      by (unfold n, s; cbn [app List.length]; rewrite length_app; cbn [List.length]; lia).
    rewrite Hn. do 3 f_equal.
    + rewrite Nat.sub_0_r.
      change (x :: la ++ "."%char :: y :: lb)%list with ((x :: la) ++ "."%char :: y :: lb)%list.
      change (1 + List.length la) with (List.length (x :: la)).
      rewrite firstn_app_exact. reflexivity.
    + rewrite <- Hn.
      replace (S (S (1 + List.length la)) + List.length lb - S (1 + List.length la))
        with (List.length (y :: lb)) by (cbn [List.length]; lia).
      rewrite <- (app_nil_r (y :: lb)) at 2. rewrite firstn_app_exact. reflexivity.
  - exact Hwb.
  - intros j [|z s'] Hs'; [contradiction | apply run_eol].
Qed.

(** A text without quotes and pipes is one piece for the pipe scanner. *)
Lemma split_pipes_plain (l : list ascii) :
  forall prev current quoteChar parts,
    forallb plain l = true ->
    split_pipes l prev current false quoteChar parts
    = split_pipes [] prev (rev l ++ current)%list false quoteChar parts.
Proof.
  induction l as [|x l IH]; intros prev current quoteChar parts Hl; [reflexivity|].
  cbn [forallb] in Hl. apply andb_prop in Hl as [Hx Hl]. unfold plain in Hx.
  repeat (apply andb_prop in Hx as [Hx ?]).
  cbn [split_pipes].
  replace (Ascii.eqb x dquote) with false by (symmetry; apply negb_true_iff; assumption).
  replace (Ascii.eqb x "'") with false by (symmetry; apply negb_true_iff; assumption).
  replace (Ascii.eqb x "|") with false by (symmetry; apply negb_true_iff; assumption).
  cbn [orb andb].
  rewrite (IH (Some x) (x :: current) quoteChar parts Hl).
  cbn [rev split_pipes]. rewrite <- app_assoc. reflexivity.
Qed.

Lemma pipe_parts_plain (v : string) :
  v <> "" -> forallb plain (chars v) = true -> pipe_parts v = [v].
Proof.
  intros Hv Hplain. unfold pipe_parts. rewrite (split_pipes_plain _ _ _ _ _ Hplain).
  rewrite app_nil_r. cbn [split_pipes].
  destruct (rev (chars v)) as [|x l] eqn:Hrev.
  - apply (f_equal (@rev ascii)) in Hrev. rewrite rev_involutive in Hrev. cbn in Hrev.
    destruct v; [contradiction | discriminate].
  - rewrite <- Hrev, rev_involutive. cbn [rev app].
    rewrite trim_no_space, of_chars_chars; [reflexivity|].
    apply (forallb_impl plain); [|exact Hplain].
    intros y Hy. unfold plain in Hy. repeat (apply andb_prop in Hy as [Hy ?]). exact Hy.
Qed.

Lemma word_is_plain (x : ascii) : is_word x = true -> plain x = true.
Proof.
  intros Hx. destruct (word_char_plain x Hx) as (Hs & Hdq & Hq & Hpipe & _).
  unfold plain. rewrite Hs, Hdq, Hq, Hpipe. reflexivity.
Qed.

Lemma index_of_l_found (c : ascii) (a r : list ascii) :
  forall i, index_of_l [c] (a ++ c :: r) i <> None.
Proof.
  induction a as [|x a IH]; intros i; cbn [app index_of_l starts_with_l].
  - rewrite Ascii.eqb_refl. discriminate.
  - destruct (Ascii.eqb c x); [discriminate | apply IH].
Qed.

Lemma is_name_chars (v : string) :
  is_name v = true ->
  v <> "" /\ exists x l, chars v = x :: l /\ forallb is_word (x :: l) = true.
Proof.
  unfold is_name. intros Hv. apply andb_prop in Hv as [Hne Hword].
  apply negb_true_iff in Hne. apply String.eqb_neq in Hne. split; [exact Hne|].
  destruct (chars v) as [|x l] eqn:Hchars.
  - destruct v; [contradiction | discriminate].
  - exists x, l. split; [reflexivity | exact Hword].
Qed.

Lemma bind_ret {S A : Type} (c : M S A) (st : S) : bind c (fun x => ret x) st = c st.
Proof. unfold bind, ret. destruct (c st) as [[x|e] st']; reflexivity. Qed.

(** The base value of two names joined by a dot. *)
Lemma evaluate_property (a b : string) (variables : bindings) (st : resolver) :
  is_name a = true ->
  is_name b = true ->
  evaluateLiquidExpression (a ++ "." ++ b) variables st
  = if String.eqb a "settings"
    then (v <- getSettingValue b ;; ret (if is_undefined v then VStr "" else v)) st
    else (Ok (let obj := lookup_var variables a in
              if is_object obj && has_prop obj b then get_prop obj b
              else VStr (a ++ "." ++ b)), st).
Proof.
  intros Ha Hb.
  destruct (is_name_chars a Ha) as (_ & x & la & Hca & Hwa).
  destruct (is_name_chars b Hb) as (_ & y & lb & Hcb & Hwb).
  set (v := a ++ "." ++ b).
  assert (Hchars : chars v = ((x :: la) ++ "."%char :: y :: lb)%list).
  { unfold v. rewrite !chars_append, Hca, Hcb. reflexivity. }
  assert (Hv : v <> "") by (intros Hv; rewrite Hv in Hchars; discriminate).
  assert (Hx : is_word x = true) by (cbn [forallb] in Hwa; apply andb_prop in Hwa; tauto).
  assert (Hall : forall q : ascii -> bool,
            (forall z, is_word z = true -> q z = true) -> q "."%char = true ->
            forallb q (chars v) = true).
  { intros q Hq Hdot. rewrite Hchars, forallb_app.
    rewrite (forallb_impl is_word q _ Hq Hwa).
    change (forallb q ("."%char :: y :: lb)) with (q "."%char && forallb q (y :: lb)).
    rewrite Hdot, (forallb_impl is_word q _ Hq Hwb). reflexivity. }
  assert (Hquoted : is_quoted v = false).
  { unfold is_quoted, startsWith. rewrite Hchars.
    cbn [app chars list_ascii_of_string starts_with_l].
    destruct (word_char_plain x Hx) as (_ & _ & _ & _ & _ & _ & Hq & Hdq).
    rewrite Hq, Hdq. reflexivity. }
  assert (Hbracket : includes v "[" = false).
  { unfold includes, indexOf. cbn [chars list_ascii_of_string].
    rewrite index_of_l_single; [reflexivity|].
    apply Hall; [|reflexivity].
    intros z Hz. apply negb_true_iff. apply (word_char_plain z Hz). }
  assert (Hdot : includes v "." = true).
  { unfold includes, indexOf. cbn [chars list_ascii_of_string]. rewrite Hchars.
    pose proof (index_of_l_found "." (x :: la) (y :: lb) 0) as Hfound.
    destruct (index_of_l _ _ 0); [reflexivity | contradiction]. }
  destruct (exec_propAccess x y la lb Hwa Hwb) as (m & Hm & H1 & H2).
  rewrite <- Hchars, of_chars_chars in Hm.
  rewrite <- Hca, of_chars_chars in H1. rewrite <- Hcb, of_chars_chars in H2.
  unfold evaluateLiquidExpression. cbn [evaluateLiquidExpression_fuel].
  rewrite (pipe_parts_plain v Hv (Hall plain word_is_plain eq_refl)).
  rewrite Hquoted, Hbracket, Hdot, Hm, H1, H2.
  destruct (String.eqb a "settings").
  - rewrite bind_assoc. apply bind_pointwise. intros u st'. reflexivity.
  - unfold bind, ret. cbn [foldM].
    destruct (is_object (lookup_var variables a) && has_prop (lookup_var variables a) b);
      reflexivity.
Qed.

(** X15.  Two names joined by a dot.  Under [settings] the second name is
    looked up as a setting, and a setting that is not there gives the empty
    text; under another name the property of the bound object is given
    when the object has it, and the text of the expression when it has
    not, when the name is bound to no object, or when it is not bound.
    (The members that every object inherits, and arrays with theirs, are
    left aside.) *)
Theorem evaluateLiquidExpression_property (a b : string) (variables : bindings)
    (st : resolver) :
  is_name a = true ->
  is_name b = true ->
  inherited b = false ->
  isArray (lookup_var variables a) = false ->
  evaluateLiquidExpression (a ++ "." ++ b) variables st
  = if String.eqb a "settings"
    then (v <- getSettingValue b ;; ret (if is_undefined v then VStr "" else v)) st
    else (Ok (let obj := lookup_var variables a in
              if is_object obj && has_prop obj b then get_prop obj b
              else VStr (a ++ "." ++ b)), st).
Proof. intros Ha Hb _ _. apply evaluate_property; assumption. Qed.

(** ** Numeric literals *)

(** What a greedy loop that succeeds has read. *)
Lemma greedy_span_inv {A : Type} (p : ascii -> bool) (s : list ascii) (r : A) :
  forall (i : nat) (k : nat -> list ascii -> option A),
    greedy_span p i s k = Some r ->
    exists a rest,
      s = (a ++ rest)%list /\ forallb p a = true /\ k (i + List.length a) rest = Some r.
Proof.
  induction s as [|x s IH]; intros i k Hrun; cbn [greedy_span] in Hrun.
  - exists [], []. rewrite Nat.add_0_r. auto.
  - assert (Hhere : k i (x :: s) = Some r ->
              exists a rest, (x :: s = a ++ rest)%list /\ forallb p a = true
                             /\ k (i + List.length a) rest = Some r)
      by (intros Hk; exists [], (x :: s); rewrite Nat.add_0_r; auto).
    destruct (p x) eqn:Hx; [|exact (Hhere Hrun)].
    destruct (greedy_span p (S i) s k) as [r'|] eqn:Hrest; [|exact (Hhere Hrun)].
    injection Hrun as <-.
    destruct (IH (S i) k Hrest) as (a & rest & Hs & Ha & Hk).
    exists (x :: a), rest. cbn [forallb List.length app]. rewrite Hx, Ha, Hs.
    replace (i + S (List.length a)) with (S i + List.length a) by lia. auto.
Qed.

(** A pattern that begins with [^] matches at the start of the input or
    nowhere. *)
Lemma search_anchored (r : regexp) (b : re) (s : list ascii) :
  source r = Seq Bol b ->
  forall i, search r (S i) s = None.
Proof.
  intros Hr. induction s as [|x s IH]; intros i; cbn [search]; unfold match_at;
    rewrite Hr, run_seq, run_bol; cbn [Nat.eqb]; [reflexivity | apply IH].
Qed.

Lemma run_opt_greedy (icase : bool) (A : Type) (a : re) (i : nat) (s : list ascii)
    (c : caps) (k : nat -> list ascii -> caps -> option A) :
  run icase A (Opt true a) i s c k
  = match run icase A a i s (clear_caps (groups_of a) c)
            (fun j s' c' => if Nat.eqb j i then None else k j s' c') with
    | Some x => Some x
    | None => k i s c
    end.
Proof. reflexivity. Qed.

Lemma accepts_digit (x : ascii) : accepts false digit x = is_digit x.
Proof.
  unfold accepts, digit, set_has. cbn [existsb cls_has andb xorb].
  rewrite !orb_false_r. reflexivity.
Qed.

Lemma digit_is_word (x : ascii) : is_digit x = true -> is_word x = true.
Proof. intros Hx. unfold is_word. rewrite Hx, !orb_true_r. reflexivity. Qed.

(** The texts [/^\d+(\.\d+)?$/] accepts: digits, or digits, a dot and
    digits. *)
Lemma numericLiteral_inv (value : string) :
  test REGEX_numericLiteral value = true ->
  exists x la,
    forallb is_digit (x :: la) = true
    /\ (chars value = x :: la
        \/ exists y lb, forallb is_digit (y :: lb) = true
                        /\ chars value = ((x :: la) ++ "."%char :: y :: lb)%list).
Proof.
  unfold test, exec. intros Htest.
  destruct (chars value) as [|x l] eqn:Hchars; [discriminate Htest|].
  cbn [search] in Htest.
  rewrite (search_anchored REGEX_numericLiteral _ l eq_refl) in Htest.
  destruct (match_at REGEX_numericLiteral 0 (x :: l)) as [m|] eqn:Hm; [|discriminate].
  clear Htest. unfold match_at in Hm.
  change (source REGEX_numericLiteral)
    with (Seq Bol (Seq (Plus true digit)
                     (Seq (Opt true (Group 1 (Seq (Chr ".") (Plus true digit)))) Eol))) in Hm.
  change (ignoreCase REGEX_numericLiteral) with false in Hm.
  unfold Plus in Hm. rewrite run_seq, run_bol in Hm. cbn [Nat.eqb] in Hm.
  rewrite run_seq, run_seq, (run_atom _ _ digit) in Hm by reflexivity.
  rewrite accepts_digit in Hm. destruct (is_digit x) eqn:Hx; [|discriminate].
  rewrite run_star_greedy in Hm by reflexivity.
  apply greedy_span_inv in Hm as (la & rest & Hl & Hla & Hk).
  assert (Hdigits : forallb is_digit (x :: la) = true).
  { cbn [forallb]. rewrite Hx. apply (forallb_impl (accepts false digit)); [|exact Hla].
    intros z Hz. rewrite <- accepts_digit. exact Hz. }
  exists x, la. split; [exact Hdigits|].
  rewrite run_seq, run_opt_greedy in Hk.
  destruct (run false rmatch (Group 1 (Seq (Chr ".") (Seq digit (Star true digit)))) _ rest _ _)
    as [m'|] eqn:Hinner.
  - right. clear Hk.
    rewrite run_group, run_seq, (run_atom _ _ (Chr ".")) in Hinner by reflexivity.
    destruct rest as [|z rest1]; [discriminate|].
    change (accepts false (Chr ".") z) with (Ascii.eqb "." z) in Hinner.
    destruct (Ascii.eqb_spec "." z) as [<-|]; [|discriminate].
    rewrite run_seq, (run_atom _ _ digit) in Hinner by reflexivity.
    destruct rest1 as [|y rest2]; [discriminate|].
    rewrite accepts_digit in Hinner. destruct (is_digit y) eqn:Hy; [|discriminate].
    rewrite run_star_greedy in Hinner by reflexivity.
    apply greedy_span_inv in Hinner as (lb & rest3 & Hrest2 & Hlb & Hend).
    destruct (Nat.eqb _ _) in Hend; [discriminate|].
    rewrite run_eol in Hend. destruct rest3 as [|w rest3]; [|discriminate].
    exists y, lb. split.
    + cbn [forallb]. rewrite Hy. apply (forallb_impl (accepts false digit)); [|exact Hlb].
      intros w Hw. rewrite <- accepts_digit. exact Hw.
    + rewrite Hl, Hrest2, app_nil_r. reflexivity.
  - left. rewrite run_eol in Hk. destruct rest as [|z rest]; [|discriminate].
    rewrite Hl, app_nil_r. reflexivity.
Qed.

Lemma digits_name (l : list ascii) :
  l <> [] -> forallb is_digit l = true -> is_name (of_chars l) = true.
Proof.
  intros Hl Hd. unfold is_name. rewrite chars_of_chars.
  rewrite (forallb_impl is_digit is_word l digit_is_word Hd), andb_true_r.
  apply negb_true_iff, String.eqb_neq. intros Hempty.
  apply (f_equal chars) in Hempty. rewrite chars_of_chars in Hempty. contradiction.
Qed.

(** X16.  A text that [REGEX.numericLiteral] accepts never reaches the branch
    that makes a number of it: without a dot it is taken for a name, with a
    dot for a property access.  Where no name of digits is bound, the
    literal evaluates to itself, as a text. *)
Theorem numeric_literal_is_text (value : string) (variables : bindings) (st : resolver) :
  test REGEX_numericLiteral value = true ->
  (forall name, forallb is_digit (chars name) = true -> variables !! name = None) ->
  evaluateLiquidExpression value variables st = (Ok (VStr value), st).
Proof.
  intros Hliteral Hfree.
  destruct (numericLiteral_inv value Hliteral) as (x & la & Hda & [Hchars|Hdecimal]).
  - assert (Hvalue : value <> "") by (intros ->; discriminate Hchars).
    rewrite (evaluate_identifier value variables st Hvalue).
    + rewrite (Hfree value); [reflexivity|]. rewrite Hchars. exact Hda.
    + rewrite Hchars. exact (forallb_impl is_digit is_word _ digit_is_word Hda).
  - destruct Hdecimal as (y & lb & Hdb & Hchars).
    set (a := of_chars (x :: la)). set (b := of_chars (y :: lb)).
    assert (Hvalue : value = a ++ "." ++ b).
    { rewrite <- (of_chars_chars value), <- (of_chars_chars (a ++ "." ++ b)).
      f_equal. unfold a, b. rewrite !chars_append, !chars_of_chars. exact Hchars. }
    rewrite Hvalue.
    assert (Hne : forall (z : ascii) (l : list ascii), z :: l <> []) by discriminate.
    rewrite (evaluate_property a b variables st
               (digits_name _ (Hne x la) Hda) (digits_name _ (Hne y lb) Hdb)).
    assert (Hsettings : String.eqb a "settings" = false).
    { apply String.eqb_neq. intros Ha. apply (f_equal chars) in Ha. unfold a in Ha.
      rewrite chars_of_chars in Ha. injection Ha as -> _.
      cbn [forallb] in Hda. discriminate. }
    rewrite Hsettings. unfold lookup_var.
    rewrite (Hfree a) by (unfold a; rewrite chars_of_chars; exact Hda).
    reflexivity.
Qed.

(** ** References to settings *)

Lemma accepts_word_dot (x : ascii) :
  accepts false word_dot x = is_word x || Ascii.eqb "." x.
Proof.
  unfold accepts, word_dot, set_has. cbn [existsb cls_has andb xorb].
  rewrite !orb_false_r. reflexivity.
Qed.

(** An opener of a Liquid output does not begin where there is no brace. *)
Lemma occurs_no_brace (l sfx : list ascii) :
  forallb (fun x => negb (Ascii.eqb "{" x)) l = true ->
  occurs false (chars "{{") (l ++ sfx) = occurs false (chars "{{") sfx.
Proof.
  induction l as [|x l IH]; intros Hl; [reflexivity|].
  cbn [forallb] in Hl. apply andb_prop in Hl as [Hx Hl]. apply negb_true_iff in Hx.
  cbn [app occurs]. rewrite (IH Hl).
  cbn [chars list_ascii_of_string starts_with_ci]. unfold chr_eq.
  rewrite Hx. reflexivity.
Qed.

Lemma word_is_no_brace (x : ascii) : is_word x = true -> negb (Ascii.eqb "{" x) = true.
Proof.
  intros Hx. destruct (Ascii.eqb_spec "{" x) as [<-|]; [discriminate Hx | reflexivity].
Qed.

Lemma occurs_cons (icase : bool) (w : list ascii) (x : ascii) (s : list ascii) :
  occurs icase w (x :: s) = starts_with_ci icase w (x :: s) || occurs icase w s.
Proof. reflexivity. Qed.

Lemma search_cons (r : regexp) (i : nat) (x : ascii) (s : list ascii) :
  search r i (x :: s)
  = match match_at r i (x :: s) with
    | Some m => Some m
    | None => search r (S i) s
    end.
Proof. reflexivity. Qed.

(** The pattern of scheme settings finds nothing in the reference of a
    setting. *)
Lemma exec_schemeVar_setting (name : string) :
  is_name name = true -> exec RE_schemeVar (setting_reference name) = None.
Proof.
  intros Hname. destruct (is_name_chars name Hname) as (_ & x & l & Hchars & Hword).
  set (tail := (chars "settings." ++ chars name ++ chars " }}")%list).
  assert (Hs : chars (setting_reference name)
               = "{"%char :: "{"%char :: " "%char :: tail)
    by (unfold setting_reference; rewrite !chars_append; reflexivity).
  assert (Hhere : match_at RE_schemeVar 0 ("{"%char :: "{"%char :: " "%char :: tail) = None).
  { unfold match_at.
    change (source RE_schemeVar)
      with (Seq (lit "{{") (Seq ws (Seq (lit "scheme.settings.")
                                      (seqs [Group 1 (Plus true word_dot); ws; lit "}}"])))).
    change (ignoreCase RE_schemeVar) with false.
    rewrite run_seq, (run_literal false _ (lit "{{") (chars "{{")) by reflexivity.
    cbn [chars list_ascii_of_string starts_with_ci chr_eq Ascii.eqb Bool.eqb andb
           List.length skipn].
    rewrite run_ws. unfold tail. cbn [greedy_span app chars list_ascii_of_string].
    rewrite !run_seq, !(run_literal false _ (lit "scheme.settings.") (chars "scheme.settings."))
      by reflexivity.
    reflexivity. }
  unfold exec. rewrite Hs, search_cons, Hhere.
  apply search_prefix.
  change (prefix_of (source RE_schemeVar)) with (chars "{{").
  change (ignoreCase RE_schemeVar) with false.
  rewrite occurs_cons.
  replace (starts_with_ci false (chars "{{") ("{"%char :: " "%char :: tail))
    with false by reflexivity.
  rewrite orb_false_l.
  rewrite <- (app_nil_r (" "%char :: tail)), occurs_no_brace; [reflexivity|].
  unfold tail. cbn [forallb]. rewrite !forallb_app.
  rewrite (forallb_impl is_word _ (chars name) word_is_no_brace)
    by (rewrite Hchars; exact Hword).
  reflexivity.
Qed.

Lemma greedy_span_one {A : Type} (p : ascii -> bool) (x y : ascii) (rest : list ascii)
    (r : A) (i : nat) (k : nat -> list ascii -> option A) :
  p x = true -> p y = false -> k (S i) (y :: rest) = Some r ->
  greedy_span p i (x :: y :: rest) k = Some r.
Proof. intros Hx Hy Hk. cbn [greedy_span]. rewrite Hx, Hy, Hk. reflexivity. Qed.

(** The pattern of settings finds the name in the reference of a setting. *)
Lemma exec_settingsVar_setting (name : string) :
  is_name name = true ->
  exists m, exec RE_settingsVar (setting_reference name) = Some m /\ group_text 1 m = name.
Proof.
  intros Hname. destruct (is_name_chars name Hname) as (_ & x & l & Hchars & Hword).
  cbn [forallb] in Hword. apply andb_prop in Hword as [Hx Hl].
  set (s := chars (setting_reference name)).
  set (n := 15 + List.length (x :: l)).
  exists (RMatch 0 n (of_chars (firstn (n - 0) s)) [Some name]).
  split; [|reflexivity].
  assert (Hs : s = "{"%char :: "{"%char :: " "%char
                   :: (chars "settings." ++ (x :: l) ++ chars " }}")%list)
    by (unfold s, setting_reference; rewrite !chars_append, Hchars; reflexivity).
  unfold exec. fold s. rewrite Hs at 1. rewrite search_cons. unfold match_at.
  change (source RE_settingsVar)
    with (Seq (lit "{{") (Seq ws (Seq (lit "settings.")
                                    (Seq (Group 1 (Plus true word_dot)) (Seq ws (lit "}}")))))).
  change (ignoreCase RE_settingsVar) with false.
  change (ngroups RE_settingsVar) with 1.
  rewrite run_seq, (run_literal false _ (lit "{{") (chars "{{")) by reflexivity.
  cbn [chars list_ascii_of_string starts_with_ci chr_eq Ascii.eqb Bool.eqb andb
         List.length skipn app].
  rewrite run_ws.
  rewrite (greedy_span_one (accepts false space) " " "s" _
             (RMatch 0 n (of_chars (firstn (n - 0) s)) [Some name]));
    [reflexivity | reflexivity | reflexivity |].
  cbv beta. rewrite run_seq, (run_literal false _ (lit "settings.") (chars "settings."))
    by reflexivity.
  cbn [chars list_ascii_of_string starts_with_ci chr_eq Ascii.eqb Bool.eqb andb
         List.length skipn].
  rewrite run_seq, run_group. unfold Plus.
  rewrite run_seq, (run_atom _ _ word_dot) by reflexivity.
  rewrite accepts_word_dot, Hx. cbn [orb]. rewrite run_star_greedy by reflexivity.
  rewrite (greedy_span_stop (accepts false word_dot) l " " [ "}"%char; "}"%char ]
             (RMatch 0 n (of_chars (firstn (n - 0) s)) [Some name]));
    [reflexivity | | reflexivity |].
  { apply (forallb_impl is_word); [|exact Hl].
    intros z Hz. rewrite accepts_word_dot, Hz. reflexivity. }
  cbv beta. rewrite run_ws.
  rewrite (greedy_span_one (accepts false space) " " "}" [ "}"%char ]
             (RMatch 0 n (of_chars (firstn (n - 0) s)) [Some name]));
    [reflexivity | reflexivity | reflexivity |].
  cbv beta. rewrite (run_literal false _ (lit "}}") (chars "}}")) by reflexivity.
  cbn [chars list_ascii_of_string starts_with_ci chr_eq Ascii.eqb Bool.eqb andb
         List.length skipn map seq get_cap set_cap Nat.eqb].
  assert (Hn : S (S (S (0 + 2) + 9) + List.length l) + 2 = n)
    by (unfold n; cbn [List.length]; lia).
  rewrite Hn. f_equal. f_equal.
  - rewrite Hs. reflexivity.
  - replace (S (S (0 + 2) + 9) + List.length l - (S (0 + 2) + 9))
      with (List.length (x :: l)) by (cbn [List.length]; lia).
    change (x :: l ++ [" "%char; "}"%char; "}"%char])%list
      with ((x :: l) ++ [" "%char; "}"%char; "}"%char])%list.
    rewrite firstn_app_exact, <- Hchars, of_chars_chars. reflexivity.
Qed.

(** A text without dots is one piece for [split('.')]. *)
Lemma split_l_no_dot (l : list ascii) :
  forall fuel cur,
    forallb (fun x => negb (Ascii.eqb "." x)) l = true ->
    List.length l < fuel ->
    split_l fuel ["."%char] l cur = [of_chars (rev cur ++ l)].
Proof.
  induction l as [|x l IH]; intros fuel cur Hl Hfuel;
    (destruct fuel as [|fuel]; [inversion Hfuel|]); cbn [split_l].
  - rewrite app_nil_r. reflexivity.
  - cbn [forallb] in Hl. apply andb_prop in Hl as [Hx Hl]. apply negb_true_iff in Hx.
    cbn [starts_with_l]. rewrite Hx. cbn [andb].
    rewrite (IH fuel (x :: cur) Hl) by (cbn [List.length] in Hfuel; lia).
    cbn [rev]. rewrite <- app_assoc. reflexivity.
Qed.

Lemma split_name (name : string) : is_name name = true -> split name "." = [name].
Proof.
  intros Hname. unfold is_name in Hname. apply andb_prop in Hname as [_ Hword].
  unfold split. cbn [chars list_ascii_of_string].
  rewrite split_l_no_dot;
    [cbn [rev app]; rewrite of_chars_chars; reflexivity | | rewrite length_chars; lia].
  apply (forallb_impl is_word); [|exact Hword].
  intros z Hz. apply negb_true_iff. apply (word_char_plain z Hz).
Qed.

Lemma strict_eq_undefined (v : value) : strict_eq v VUndef = is_undefined v.
Proof. destruct v; reflexivity. Qed.

(** The value of the reference of a setting. *)
Lemma resolve_setting (name : string) (st : resolver) :
  is_name name = true ->
  is_record (shopifySettings st) = true ->
  resolveLiquidVariable (setting_reference name) st
  = (Ok (let current := get_prop (shopifySettings st) name in
         let default := get_prop (shopifySettingsSchema st) name in
         if negb (is_undefined current) then formatSettingValue current name
         else if truthy (shopifySettingsSchema st) && negb (is_undefined default)
              then formatSettingValue default name
              else "[" ++ name ++ "]"), st).
Proof.
  intros Hname Hsettings.
  destruct (exec_settingsVar_setting name Hname) as (m & Hm & Hgroup).
  unfold resolveLiquidVariable.
  rewrite (exec_schemeVar_setting name Hname), Hm, Hgroup, (split_name name Hname).
  unfold bind, gets, ret. cbn [hd tl walk_keep join fst snd].
  rewrite !strict_eq_undefined.
  destruct (shopifySettings st) as [| | | | | |o]; try discriminate Hsettings.
  - cbn [truthy get_prop is_undefined negb andb].
    destruct (truthy (shopifySettingsSchema st)
              && negb (is_undefined (get_prop (shopifySettingsSchema st) name)));
      reflexivity.
  - cbn [truthy andb]. destruct (negb (is_undefined (get_prop (VObj o) name))); [reflexivity|].
    destruct (truthy (shopifySettingsSchema st)
              && negb (is_undefined (get_prop (shopifySettingsSchema st) name)));
      reflexivity.
Qed.

(** X17.  The reference [{{ settings.name }}] that [liquidToCSS] hands over
    for a setting resolves to the value in the settings loaded, and only
    when they have none to the default of the schema; with neither it
    resolves to the name in brackets.  Nothing is cached and the state is
    as before.  (The names of the members that every object inherits are
    left aside; the settings and the defaults are objects or absent.) *)
Theorem resolveLiquidVariable_setting (name : string) (st : resolver) :
  is_name name = true ->
  inherited name = false ->
  is_record (shopifySettings st) = true ->
  is_record (shopifySettingsSchema st) = true ->
  resolveLiquidVariable (setting_reference name) st
  = (Ok (let current := get_prop (shopifySettings st) name in
         let default := get_prop (shopifySettingsSchema st) name in
         if negb (is_undefined current) then formatSettingValue current name
         else if negb (is_undefined default) then formatSettingValue default name
         else "[" ++ name ++ "]"), st).
Proof.
  intros Hname _ Hsettings Hschema. rewrite (resolve_setting name st Hname Hsettings).
  destruct (shopifySettingsSchema st) as [| | | | | |o]; try discriminate Hschema; reflexivity.
Qed.

End Properties.


(** The witness of C9: a text of 30 code units with a valid declaration in a
    style block. *)
Lemma parseCssVariables_quick_exit_witness :
  (String.length "<style>:root{--a:1px;}</style>" < 50)%nat
  /\ @parseCssVariables posix_host "<style>:root{--a:1px;}</style>" "sections/a.liquid"
       initial_state
     = (Ok tt, initial_state).
Proof.
  split.
  - vm_compute. lia.
  - apply (@parseCssVariables_quick_exit posix_host).
    right. left. vm_compute. lia.
Defined.

(** ** Examples, witnesses and counterexamples *)

(** The witness of C5.  The text [--x: 1px; --x: 2px;] scanned into the
    empty registry records [--x] with [1px], the first of the two values;
    and where [--x] is recorded with [1px] already, a base scan of
    [--x: 2px;] leaves the entry as it is. *)
Lemma registry_first_write_wins_witness :
  (fst (@parseVariablesInBlock posix_host "--x: 1px; --x: 2px;" "snippets/base.liquid" None
          initial_state) = Ok tt
   /\ cssVariables (snd (@parseVariablesInBlock posix_host "--x: 1px; --x: 2px;"
                            "snippets/base.liquid" None initial_state)) !! "--x"
      = Some x_entry)
  /\ cssVariables x_recorded !! "--x" = Some x_entry
  /\ cssVariables (snd (@parseVariablesInBlock posix_host "--x: 2px;" "snippets/base.liquid"
                          None x_recorded)) !! "--x"
     = Some x_entry.
Proof.
  assert (Hx : cssVariables x_recorded !! "--x" = Some x_entry) by reflexivity.
  split; [|split; [exact Hx|]].
  - exact (proj1 (@registry_first_write_wins posix_host initial_state "--x")
             "--x: 1px; --x: 2px;" "snippets/base.liquid").
  - exact (proj2 (proj1 (proj2 (proj2 (@registry_first_write_wins posix_host x_recorded
                                          "--x"))) x_entry Hx)
             "--x: 2px;" "snippets/base.liquid").
Defined.

(** The example of the specification, through [parseRootBlocks]: of the two
    declarations of [--x] in one root region the first one is kept. *)
Example duplicate_declaration_keeps_first :
  cssVariables (snd (@parseRootBlocks posix_host ":root { --x: 1px; --x: 2px; }"
                       "snippets/base.liquid" initial_state)) !! "--x"
  = Some x_entry.
Proof. vm_compute. reflexivity. Qed.

Lemma x_recorded_has_media_lists : has_media_lists (cssVariables x_recorded).
Proof.
  intros name e. unfold x_recorded. simpl.
  destruct (decide ("--x" = name)) as [<-|Hne].
  - rewrite lookup_insert_eq. intros [= <-]. discriminate.
  - rewrite lookup_insert_ne by exact Hne. rewrite lookup_empty. discriminate.
Defined.

(** The witness of C6: [--x], recorded with [1px], is declared once in the
    block [@media (min-width: 768px) { --x: 3px; }]. *)
Lemma media_declaration_appends_variant_witness :
  List.filter (declares "--x") (matches REGEX_cssVariable " --x: 3px; ") = [x_3px]
  /\ (let result := @parseVariablesInBlock posix_host " --x: 3px; " "snippets/base.liquid"
                      (Some "(min-width: 768px)") x_recorded in
      fst result = Ok tt
      /\ cssVariables (snd result) !! "--x"
         = Some (Entry "1px" "base.liquid" "snippets/base.liquid"
                   (Some [Variant "(min-width: 768px)" "3px"]))).
Proof.
  assert (Honce : List.filter (declares "--x") (matches REGEX_cssVariable " --x: 3px; ")
                  = [x_3px]) by (vm_compute; reflexivity).
  split; [exact Honce|].
  apply (@media_declaration_appends_variant posix_host " --x: 3px; " "snippets/base.liquid"
           "(min-width: 768px)" x_recorded "--x" x_entry [] x_3px).
  - discriminate.
  - exact x_recorded_has_media_lists.
  - reflexivity.
  - reflexivity.
  - exact Honce.
Defined.

(** The counterexample of C6: in [:root{--x:1px;@media {--x:2px;}}] the
    media block is found, its query text is empty, and the entry of [--x]
    gets no variant. *)
Lemma empty_query_appends_nothing :
  media_blocks "--x:1px;@media {--x:2px;}" = [("", "--x:2px;")]
  /\ cssVariables (snd (@parseRootBlocks posix_host ":root{--x:1px;@media {--x:2px;}}"
                          "snippets/base.liquid" initial_state)) !! "--x"
     = Some (Entry "1px" "base.liquid" "snippets/base.liquid" (Some [])).
Proof. split; vm_compute; reflexivity. Qed.

Lemma initial_state_has_media_lists : has_media_lists (cssVariables initial_state).
Proof. intros name e. simpl. rewrite lookup_empty. discriminate. Defined.



(** The same across the files of a scan.  The first file records [--x]
    from its [echo] text and throws in the media block of its region; the
    handler of the file catches the exception, and the index stays at the
    end of the match.  The second file alone gives [--w]; scanned after
    the first, its region is never found, and the scan counts one
    variable. *)
Example stale_index_skips_the_next_file :
  cssVariables (snd (@scanFile posix_host ("snippets/b.liquid", short_region) initial_state))
    !! "--w"
  = Some (Entry "1px" "b.liquid" "snippets/b.liquid" (Some []))
  /\ (let first := snd (@scanFile posix_host ("snippets/a.liquid", echo_then_media)
                          initial_state) in
      cssVariables first !! "--x" = Some (Entry "1px" "a.liquid" "snippets/a.liquid" None)
      /\ rootBlockLastIndex first = 23
      /\ cssVariables (snd (@scanFile posix_host ("snippets/b.liquid", short_region) first))
           !! "--w" = None)
  /\ fst (@scanLiquidFiles posix_host two_files initial_state) = Ok 1.
Proof. repeat split; vm_compute; reflexivity. Qed.

(** A cache hit of [hexToRgba] returns the memoized record and changes
    nothing. *)
Lemma hexToRgba_hit (hex : string) (alpha : option number) (r : resolver)
    (memo : rgba) :
  hex <> "" ->
  hexToRgbaCache r !! (hex ++ "-" ++ to_string (default one alpha)) = Some memo ->
  hexToRgba (VStr hex) alpha r = (Ok (Some memo), r).
Proof.
  intros Hhex Hmemo. unfold hexToRgba.
  apply String.eqb_neq in Hhex. rewrite Hhex.
  unfold bind, gets, ret. simpl. rewrite Hmemo. reflexivity.
Qed.


(** The decoder at [#fff], [#ff8000] and [#ff800080]. *)
Example hexToRgba_decodes_colors :
  hexToRgba_decode "#fff" one = Some (Rgba (of_Z 255) (of_Z 255) (of_Z 255) one)
  /\ hexToRgba_decode "#ff8000" one = Some (Rgba (of_Z 255) (of_Z 128) (of_Z 0) one)
  /\ hexToRgba_decode "#ff800080" one
     = Some (Rgba (of_Z 255) (of_Z 128) (of_Z 0) (div (of_Z 128) (of_Z 255))).
Proof.
  split; [|split].
  - exact (proj1 (@hexToRgba_decodes "#fff" one) "f" "f" "f" eq_refl eq_refl)%char.
  - exact (proj1 (proj2 (@hexToRgba_decodes "#ff8000" one))
             "f" "f" "8" "0" "0" "0" eq_refl eq_refl)%char.
  - exact (proj1 (proj2 (proj2 (@hexToRgba_decodes "#ff800080" one)))
             "f" "f" "8" "0" "0" "0" "8" "0" eq_refl eq_refl)%char.
Defined.

(** [conversions_round_to_nearest] at the value [1.5] and the default base. *)
Lemma conversions_round_to_nearest_witness :
  is_nan (parseFloat (VStr "1.5")) = false
  /\ remToPx (VStr "1.5") None
     = Some (strip_trailing_zeros (toFixed 2 (mul (parseFloat (VStr "1.5")) sixteen)))
  /\ pxToRem (VStr "1.5") None
     = Some (strip_trailing_zeros (toFixed 4 (div (parseFloat (VStr "1.5")) sixteen))).
Proof.
  split; [reflexivity|].
  exact (proj1 (proj2 (conversions_round_to_nearest (VStr "1.5") None)) eq_refl).
Defined.

Example conversions_of_common_values :
  remToPx (VStr "1.5") None = Some "24"
  /\ remToPx (VStr "0.875rem") None = Some "14"
  /\ pxToRem (VStr "24") None = Some "1.5"
  /\ pxToRem (VStr "10px") None = Some "0.625"
  /\ remToPx (VStr "0") None = Some "0"
  /\ remToPx (VStr "auto") None = None
  /\ pxToRem (VStr "auto") None = None.
Proof. repeat split; vm_compute; reflexivity. Qed.

(** The counterexample of C8.  (1) The third decimal of [1.999] is not cut
    off, the result is [2] and not [1.99]; the fifth decimal of [2 / 3] is
    not cut off, the result is [0.6667] and not [0.6666].  (2) A tie goes
    away from zero: [-0.0078125] times 16 is [-0.125], written [-0.13];
    and a number that rounds to zero keeps its sign.  (3) From [10 ^ 21]
    on the text is in exponent notation and the trailing zeros of the
    exponent are trimmed as well; a base of zero gives an infinity or
    not-a-number, written by name. *)
Lemma conversions_do_not_truncate :
  (remToPx (VStr "1.999") (Some one) = Some "2"
   /\ strip_trailing_zeros (truncated_fixed 2 (mul (parseFloat (VStr "1.999")) one)) = "1.99"
   /\ pxToRem (VStr "2") (Some (of_Z 3)) = Some "0.6667"
   /\ strip_trailing_zeros (truncated_fixed 4 (div (parseFloat (VStr "2")) (of_Z 3)))
      = "0.6666")
  /\ (remToPx (VStr "-0.0078125") None = Some "-0.13"
      /\ remToPx (VStr "-0.0001") None = Some "-0")
  /\ (remToPx (VStr "1e30") (Some one) = Some "1e+3"
      /\ remToPx (VStr "1e30") None = Some "1.6e+31"
      /\ pxToRem (VStr "1") (Some zero) = Some "Infinity"
      /\ pxToRem (VStr "0") (Some zero) = Some "NaN"
      /\ remToPx (VStr "Infinity") (Some zero) = Some "NaN").
Proof. repeat split; vm_compute; reflexivity. Qed.

(** [evaluateLiquidCondition_cases] at the condition [3 > 2]. *)
Lemma evaluateLiquidCondition_cases_witness :
  includes "3 > 2" " contains " = false
  /\ one_line (chars "3 > 2") = true
  /\ first_operator (chars "3 > 2") = Some (chars "3 ", ">", chars " 2")
  /\ @evaluateLiquidCondition posix_host "3 > 2" ∅ initial_resolver
     = (lv <- @evaluateLiquidExpression posix_host (trim (of_chars (chars "3 "))) ∅ ;;
        rv <- @evaluateLiquidExpression posix_host (trim (of_chars (chars " 2"))) ∅ ;;
        ret (compare_values ">" lv rv)) initial_resolver.
Proof.
  split; [reflexivity|]. split; [reflexivity|]. split; [reflexivity|].
  exact (proj1 (proj2 (@evaluateLiquidCondition_cases posix_host "3 > 2" ∅ initial_resolver))
           eq_refl (chars "3 ") ">" (chars " 2") eq_refl eq_refl
           ltac:(discriminate) ltac:(discriminate)).
Defined.

Example conditions_evaluated :
  fst (@evaluateLiquidCondition posix_host "3 > 2" ∅ initial_resolver) = Ok true
  /\ fst (@evaluateLiquidCondition posix_host "2 >= 10" ∅ initial_resolver) = Ok false
  /\ fst (@evaluateLiquidCondition posix_host "'a' == 'a'" ∅ initial_resolver) = Ok true
  /\ fst (@evaluateLiquidCondition posix_host "'abc' contains 'b'" ∅ initial_resolver) = Ok true
  /\ fst (@evaluateLiquidCondition posix_host "''" ∅ initial_resolver) = Ok false.
Proof. repeat split; vm_compute; reflexivity. Qed.

(** The counterexample of C7.  (1) The conditions [> 5] and [5 <] contain
    an operator, but nothing stands before it in the first and nothing
    after it in the second; neither is split, each is evaluated as a whole,
    to its own text, and is true because that text is not empty.  (2) In
    the condition of the two lines [a] and [b > 5] the left operand is [b],
    not the text before the operator: with [b] bound to 7 the condition is
    true, while the comparison of the text before the operator with 5 is
    false.  (3) A variable bound to not-a-number is falsy. *)
Lemma conditions_outside_the_split_rule :
  (first_operator (chars "> 5") = Some ([], ">", chars " 5")
   /\ exec RE_comparison "> 5" = None
   /\ fst (@evaluateLiquidExpression posix_host "> 5" ∅ initial_resolver) = Ok (VStr "> 5")
   /\ fst (@evaluateLiquidCondition posix_host "> 5" ∅ initial_resolver) = Ok true
   /\ first_operator (chars "5 <") = Some (chars "5 ", "<", [])
   /\ exec RE_comparison "5 <" = None
   /\ fst (@evaluateLiquidExpression posix_host "5 <" ∅ initial_resolver) = Ok (VStr "5 <")
   /\ fst (@evaluateLiquidCondition posix_host "5 <" ∅ initial_resolver) = Ok true)
  /\ (first_operator (chars two_line_condition)
      = Some (chars ("a" ++ LF ++ "b "), ">", chars " 5")
      /\ fst (@evaluateLiquidCondition posix_host two_line_condition b_is_7 initial_resolver)
         = Ok true
      /\ fst ((lv <- @evaluateLiquidExpression posix_host (trim ("a" ++ LF ++ "b ")) b_is_7 ;;
               rv <- @evaluateLiquidExpression posix_host (trim " 5") b_is_7 ;;
               ret (compare_values ">" lv rv)) initial_resolver)
         = Ok false)
  /\ (fst (@evaluateLiquidExpression posix_host "x" (<["x" := VNum NaN]> ∅) initial_resolver)
      = Ok (VNum NaN)
      /\ fst (@evaluateLiquidCondition posix_host "x" (<["x" := VNum NaN]> ∅) initial_resolver)
         = Ok false).
Proof. repeat split; vm_compute; reflexivity. Qed.

(** ** The properties beyond the specification, at concrete inputs *)

(** [parseVariablesInBlock_media_outcome] where [--x] was recorded from an
    [echo] statement: a declaration of [--x] under a media query throws. *)
Lemma parseVariablesInBlock_media_outcome_witness :
  "(min-width: 768px)" <> ""
  /\ existsb (lacks_media (cssVariables x_echoed)) (matches REGEX_cssVariable " --x: 3px; ")
     = true
  /\ fst (@parseVariablesInBlock posix_host " --x: 3px; " "snippets/base.liquid"
            (Some "(min-width: 768px)") x_echoed)
     = (if existsb (lacks_media (cssVariables x_echoed))
             (matches REGEX_cssVariable " --x: 3px; ")
        then Throw (TypeError "Cannot read properties of undefined (reading 'push')")
        else Ok tt).
Proof.
  split; [discriminate|]. split; [vm_compute; reflexivity|].
  apply (@parseVariablesInBlock_media_outcome posix_host). discriminate.
Defined.

(** The same declaration where [--x] was recorded from a root region. *)
Example media_declaration_of_root_entry :
  existsb (lacks_media (cssVariables x_recorded)) (matches REGEX_cssVariable " --x: 3px; ")
  = false
  /\ fst (@parseVariablesInBlock posix_host " --x: 3px; " "snippets/base.liquid"
            (Some "(min-width: 768px)") x_recorded) = Ok tt
  /\ fst (@parseVariablesInBlock posix_host " --x: 3px; " "snippets/base.liquid"
            (Some "(min-width: 768px)") x_echoed)
     = Throw (TypeError "Cannot read properties of undefined (reading 'push')").
Proof. repeat split; vm_compute; reflexivity. Qed.

(** [liquidToCSS_leaves_plain_text] at a rule without Liquid. *)
Lemma liquidToCSS_leaves_plain_text_witness :
  includes bare_rule "{%" = false
  /\ includes bare_rule "{{" = false
  /\ @liquidToCSS posix_host bare_rule initial_resolver = (Ok bare_rule, initial_resolver).
Proof.
  split; [reflexivity|]. split; [reflexivity|].
  apply (@liquidToCSS_leaves_plain_text posix_host); reflexivity.
Defined.

(** [resolveLiquidVariable_leaves_plain_text] at [12px]. *)
Lemma resolveLiquidVariable_leaves_plain_text_witness :
  includes "12px" "{{" = false
  /\ resolveLiquidVariable "12px" initial_resolver = (Ok "12px", initial_resolver).
Proof.
  split; [reflexivity|].
  apply resolveLiquidVariable_leaves_plain_text; reflexivity.
Defined.

(** [evaluateCondition_without_setting] at [x > 5]. *)
Lemma evaluateCondition_without_setting_witness :
  includes "x > 5" "settings." = false
  /\ evaluateCondition "x > 5" initial_resolver = (Ok false, initial_resolver).
Proof.
  split; [reflexivity|].
  apply evaluateCondition_without_setting; reflexivity.
Defined.

(** [parseCssVariables_needs_a_style_block] at a bare rule that declares
    [--x]: the text is long enough and has [:root], and nothing is
    recorded. *)
Lemma parseCssVariables_needs_a_style_block_witness :
  includes bare_rule "{%" = false
  /\ occurs true (chars "<style") (chars bare_rule) = false
  /\ (String.eqb bare_rule "" || (String.length bare_rule <? 50)%nat
      || negb (includes bare_rule ":root")) = false
  /\ fst (@parseCssVariables posix_host bare_rule "sections/a.liquid" initial_state) = Ok tt
  /\ cssVariables (snd (@parseCssVariables posix_host bare_rule "sections/a.liquid"
                          initial_state)) = cssVariables initial_state
  /\ res (snd (@parseCssVariables posix_host bare_rule "sections/a.liquid" initial_state))
     = res initial_state.
Proof.
  split; [reflexivity|]. split; [reflexivity|]. split; [reflexivity|].
  apply (@parseCssVariables_needs_a_style_block posix_host); reflexivity.
Defined.

(** [evaluateLiquidExpression_identifier] at [b], bound to 7. *)
Lemma evaluateLiquidExpression_identifier_witness :
  is_name "b" = true
  /\ inherited "b" = false
  /\ @evaluateLiquidExpression posix_host "b" b_is_7 initial_resolver
     = (Ok (VNum (of_Z 7)), initial_resolver).
Proof.
  split; [reflexivity|]. split; [reflexivity|].
  apply (@evaluateLiquidExpression_identifier posix_host "b" b_is_7 initial_resolver);
    reflexivity.
Defined.

(** A text of digits is a text of word characters: it evaluates to itself
    as a text, not to a number, and as a text it is truthy. *)
Example digits_evaluate_to_text :
  fst (@evaluateLiquidExpression posix_host "0" ∅ initial_resolver) = Ok (VStr "0")
  /\ fst (@evaluateLiquidCondition posix_host "0" ∅ initial_resolver) = Ok true.
Proof. split; vm_compute; reflexivity. Qed.

(** [evaluateLiquidExpression_quoted] at a quoted text with a pipe. *)
Lemma evaluateLiquidExpression_quoted_witness :
  ("'"%char = "'"%char \/ "'"%char = dquote)
  /\ existsb (Ascii.eqb "'") (chars "a | b") = false
  /\ @evaluateLiquidExpression posix_host "'a | b'" ∅ initial_resolver
     = (Ok (VStr "a | b"), initial_resolver).
Proof.
  split; [left; reflexivity|]. split; [reflexivity|].
  apply (@evaluateLiquidExpression_quoted posix_host "'" "a | b" ∅ initial_resolver);
    [left; reflexivity | reflexivity].
Defined.

(** [executeLiquidBlock_straight_lines] at a block with an [if] and an
    [else]: the [echo] lines of both branches are run. *)
Lemma executeLiquidBlock_straight_lines_witness :
  forallb straight_line (block_lines if_else_block) = true
  /\ @executeLiquidBlock posix_host if_else_block initial_resolver
     = (vo <- @run_lines posix_host (block_lines if_else_block) ∅ "" ;; ret (snd vo))
         initial_resolver.
Proof.
  split; [reflexivity|].
  apply (@executeLiquidBlock_straight_lines posix_host). reflexivity.
Defined.

Example if_at_the_top_of_a_block :
  block_lines if_else_block = ["if 1 > 2"; "echo 'a'"; "else"; "echo 'b'"; "endif"]
  /\ fst (@executeLiquidBlock posix_host if_else_block initial_resolver) = Ok "ab".
Proof. split; vm_compute; reflexivity. Qed.

(** [arithmetic_filters_give_numbers] at [times: 2], applied to a text
    that is no number. *)
Lemma arithmetic_filters_give_numbers_witness :
  let m := RMatch 0 8 "times: 2" [Some "times"; Some "2"] in
  exec RE_filter "times: 2" = Some m
  /\ In (group_text 1 m) ["times"; "divided_by"; "minus"; "plus"]
  /\ exists x,
       @applyLiquidFilter posix_host (@evaluateLiquidExpression posix_host) (VStr "wide")
         "times: 2" ∅ initial_resolver
       = (Ok (VNum x), initial_resolver)
       /\ is_nan x = false.
Proof.
  intros m.
  assert (Hm : exec RE_filter "times: 2" = Some m) by (vm_compute; reflexivity).
  assert (Hname : In (group_text 1 m) ["times"; "divided_by"; "minus"; "plus"])
    by (left; reflexivity).
  split; [exact Hm|]. split; [exact Hname|].
  exact (@arithmetic_filters_give_numbers posix_host (@evaluateLiquidExpression posix_host)
           (VStr "wide") "times: 2" ∅ initial_resolver m Hm Hname).
Defined.

Example arithmetic_filters_evaluated :
  fst (@evaluateLiquidExpression posix_host "'wide' | times: 2" ∅ initial_resolver)
  = Ok (VNum zero)
  /\ fst (@evaluateLiquidExpression posix_host "'7' | divided_by: '0'" ∅ initial_resolver)
     = Ok (VNum zero)
  /\ fst (@evaluateLiquidExpression posix_host "'1' | divided_by: '3'" ∅ initial_resolver)
     = Ok (VNum (parseFloat_string "0.33333")).
Proof. repeat split; vm_compute; reflexivity. Qed.

(** [evaluateLiquidExpression_property] at [forloop.index] in the first
    iteration of a loop. *)
Lemma evaluateLiquidExpression_property_witness :
  is_name "forloop" = true
  /\ is_name "index" = true
  /\ inherited "index" = false
  /\ isArray (lookup_var first_iteration "forloop") = false
  /\ @evaluateLiquidExpression posix_host "forloop.index" first_iteration initial_resolver
     = (Ok (VNum (of_nat 1)), initial_resolver).
Proof.
  split; [reflexivity|]. split; [reflexivity|]. split; [reflexivity|]. split; [reflexivity|].
  exact (@evaluateLiquidExpression_property posix_host "forloop" "index" first_iteration
           initial_resolver eq_refl eq_refl eq_refl eq_refl).
Defined.

Example properties_evaluated :
  fst (@evaluateLiquidExpression posix_host "settings.radius" ∅ example_resolver)
  = Ok (VNum (of_Z 14))
  /\ fst (@evaluateLiquidExpression posix_host "settings.width" ∅ example_resolver)
     = Ok (VStr "")
  /\ fst (@evaluateLiquidExpression posix_host "item.size" first_iteration initial_resolver)
     = Ok (VStr "item.size")
  /\ fst (@evaluateLiquidExpression posix_host "page.title" first_iteration initial_resolver)
     = Ok (VStr "page.title").
Proof. repeat split; vm_compute; reflexivity. Qed.

(** [numeric_literal_is_text] at [1.5], with nothing bound. *)
Lemma numeric_literal_is_text_witness :
  test REGEX_numericLiteral "1.5" = true
  /\ (forall name, forallb is_digit (chars name) = true -> (∅ : bindings) !! name = None)
  /\ @evaluateLiquidExpression posix_host "1.5" ∅ initial_resolver
     = (Ok (VStr "1.5"), initial_resolver).
Proof.
  assert (Hfree : forall name, forallb is_digit (chars name) = true ->
                               (∅ : bindings) !! name = None)
    by (intros name _; apply lookup_empty).
  split; [reflexivity|]. split; [exact Hfree|].
  exact (@numeric_literal_is_text posix_host "1.5" ∅ initial_resolver eq_refl Hfree).
Defined.

(** A literal is a text also where a number is expected to differ from
    one: the texts [1.50] and [1.5] are not loosely equal. *)
Example literals_compared_as_texts :
  fst (@evaluateLiquidCondition posix_host "1.50 == 1.5" ∅ initial_resolver) = Ok false
  /\ fst (@evaluateLiquidCondition posix_host "10 > 9" ∅ initial_resolver) = Ok true.
Proof. split; vm_compute; reflexivity. Qed.

(** [resolveLiquidVariable_setting] at the setting [radius] of the
    example. *)
Lemma resolveLiquidVariable_setting_witness :
  is_name "radius" = true
  /\ inherited "radius" = false
  /\ is_record (shopifySettings example_resolver) = true
  /\ is_record (shopifySettingsSchema example_resolver) = true
  /\ resolveLiquidVariable "{{ settings.radius }}" example_resolver
     = (Ok "14", example_resolver).
Proof.
  split; [reflexivity|]. split; [reflexivity|]. split; [reflexivity|]. split; [reflexivity|].
  exact (resolveLiquidVariable_setting "radius" example_resolver
           eq_refl eq_refl eq_refl eq_refl).
Defined.

Example settings_resolved :
  fst (resolveLiquidVariable "{{ settings.width }}" example_resolver) = Ok "[width]"
  /\ fst (resolveLiquidVariable "{{ settings.width }}"
            (Resolver example_settings (VObj [("width", VNum (of_Z 3))]) ∅ ∅)) = Ok "3"
  /\ fst (@liquidToCSS posix_host ":root { --r: {{ settings.radius }}px; }" example_resolver)
     = Ok ":root { --r: 14px; }".
Proof. repeat split; vm_compute; reflexivity. Qed.
